(** * OverlayImpl: the peer-overlay manager of rippled

    A shallow embedding of [src/ripple/overlay/impl/OverlayImpl.cpp].

    The manager's member functions are state transformers over the record
    [OverlayImpl.t] in a small state-and-abort monad: an [assert] of the
    source that fails ends the run with [Abort] and the assertion site (the
    build with assertions enabled).  Calls that leave the manager (PeerFinder,
    Resource::Manager, the socket, the handshake helpers, the timer, the
    children's [run] and [stop]) are appended to a call log; what they answer
    is read from an environment [Env.t] whose answers may depend on the
    whole log so far, so that a collaborator may answer the same question
    differently the second time.  [std::mutex] sections are atomic steps. *)

From Stdlib Require Import NArith List String Ascii Bool Lia.
From stdpp Require Import base option list gmap sets strings.

Set Warnings "-register-all".
Local Open Scope string_scope.
Local Open Scope list_scope.

(** ** Plain data *)

(** [Peer::id_t], [PeerFinder::Slot::ptr] (non-null), [RippleAddress] (the
    node public key) and object addresses ([Child*], [PeerImp*]). *)
Abbreviation id_t := N (only parsing).
Abbreviation Slot := positive (only parsing).
Abbreviation RippleAddress := string (only parsing).
Abbreviation child_ptr := positive (only parsing).
Abbreviation Transport := positive (only parsing).
Abbreviation error_code := N (only parsing).

Record Address := { addr_bytes : N }.
Record Endpoint := { address : Address; port : N }.

Inductive Severity := Trace | Debug | Error.

(** [Resource::Consumer], [protocol::TMHello], [uint256]: opaque tokens. *)
Abbreviation Consumer := N (only parsing).
Abbreviation TMHello := N (only parsing).
Abbreviation uint256 := N (only parsing).

(** [PeerFinder::Result]. *)
Module PeerFinder.
Inductive Result := duplicate | full | success.
End PeerFinder.

(** ** Json::Value

    Modelled from the spec: [Json::Value] comes from the JSON library, of
    which OverlayImpl.cpp has the calls only; the redirect body is "a JSON
    body [{"peer-ips": [<address strings>]}]": objects with named members,
    arrays that are appended to, strings. *)
Module Json.
Inductive Value :=
| nullValue
| stringValue (s : string)
| arrayValue (l : list Value)
| objectValue (members : list (string * Value)).

(** [ips.append(v)] on an array. *)
Definition append (v : Value) (a : Value) : Value :=
  match a with
  | arrayValue l => arrayValue (l ++ [v])
  | nullValue => arrayValue [v]
  | other => other
  end.

Fixpoint set_member (k : string) (v : Value) (ms : list (string * Value))
  : list (string * Value) :=
  match ms with
  | [] => [(k, v)]
  | (k', v') :: rest =>
      if String.eqb k k' then (k, v) :: rest else (k', v') :: set_member k v rest
  end.

(** [json[k] = v] on an object. *)
Definition set (k : string) (v : Value) (o : Value) : Value :=
  match o with
  | objectValue ms => objectValue (set_member k v ms)
  | nullValue => objectValue [(k, v)]
  | other => other
  end.

Definition get (k : string) (o : Value) : Value :=
  match o with
  | objectValue ms =>
      match find (fun kv => String.eqb k (fst kv)) ms with
      | Some kv => snd kv
      | None => nullValue
      end
  | _ => nullValue
  end.
End Json.

(** ** beast::http::message

    Modelled from the spec: the message type is beast's, of which
    OverlayImpl.cpp has the calls only: "the parsed request headers/status",
    a "declared protocol version and keep-alive preference", whether the
    message "declares a protocol upgrade", header values looked up by name
    and "compared case-insensitively". *)
Module Http.
Record message := {
  request : bool;                   (* request() : request or response *)
  status : N;
  reason : string;
  version : nat * nat;
  headers : list (string * string);
  upgrade : bool;                   (* upgrade() *)
  keep_alive : bool                 (* keep_alive() *)
}.

Definition lower (c : ascii) : ascii :=
  let n := nat_of_ascii c in
  if (65 <=? n)%nat && (n <=? 90)%nat then ascii_of_nat (n + 32) else c.

(** [beast::ci_equal]: equality up to ASCII case. *)
Fixpoint ci_equal (a b : string) : bool :=
  match a, b with
  | EmptyString, EmptyString => true
  | String x a', String y b' => Ascii.eqb (lower x) (lower y) && ci_equal a' b'
  | _, _ => false
  end.

(** [headers[name]]: the value of the first field of that name (field
    names compare without case), the empty string when there is none. *)
Fixpoint headers_get (h : list (string * string)) (name : string) : string :=
  match h with
  | [] => ""
  | (k, v) :: rest => if ci_equal k name then v else headers_get rest name
  end.

(** [headers.append(name, value)]. *)
Definition headers_append (name value : string) (m : message) : message :=
  {| request := request m; status := status m; reason := reason m;
     version := version m; headers := headers m ++ [(name, value)];
     upgrade := upgrade m; keep_alive := keep_alive m |}.

Definition set_request (b : bool) (m : message) : message :=
  {| request := b; status := status m; reason := reason m;
     version := version m; headers := headers m;
     upgrade := upgrade m; keep_alive := keep_alive m |}.

Definition set_status (n : N) (m : message) : message :=
  {| request := request m; status := n; reason := reason m;
     version := version m; headers := headers m;
     upgrade := upgrade m; keep_alive := keep_alive m |}.

Definition set_reason (r : string) (m : message) : message :=
  {| request := request m; status := status m; reason := r;
     version := version m; headers := headers m;
     upgrade := upgrade m; keep_alive := keep_alive m |}.

Definition set_version (v : nat * nat) (m : message) : message :=
  {| request := request m; status := status m; reason := reason m;
     version := v; headers := headers m;
     upgrade := upgrade m; keep_alive := keep_alive m |}.

(** Modelled from the spec: [HTTP::Writer] and [HTTP::make_JsonWriter] are
    declared in JsonWriter.h, of which OverlayImpl.cpp has the call only; a
    writer is kept as the message and the JSON body it was made from
    ("a service unavailable status ... and a JSON body"). *)
Record Writer := make_JsonWriter { w_message : message; w_body : Json.Value }.
End Http.

(** Modelled from the spec: [Handoff] is declared in Handoff.h;
    OverlayImpl.cpp sets its three members.  The outcome of [negotiate] is
    "notHandled | handled(response?)", and a request without an Upgrade
    header gets "not handled ... (no response generated)": a
    default-constructed [Handoff] has [moved = false] and no response, and
    it is handled when it is moved or has a response. *)
Module Handoff.
Record t := {
  moved : bool;
  keep_alive : bool;
  response : option Http.Writer
}.
Definition default : t :=
  {| moved := false; keep_alive := false; response := None |}.
Definition handled (h : t) : bool := moved h || bool_decide (is_Some (response h)).
End Handoff.

(** ** Children: the timer and the peers *)
Module PeerImp.
(** Modelled from the spec: [PeerImp] is declared in PeerImp.h; a Peer
    Handle "exposes start/stop, a numeric id, a public key once known, a
    reserved slot handle".  What the manager reads of one: its address
    ([peer.get()]), [id()], [slot()], [getNodePublic()]; and what it was
    constructed from. *)
Record t := {
  get : child_ptr;
  id : id_t;
  slot : Slot;
  getNodePublic : RippleAddress;
  bundle : option Transport;        (* the ssl_bundle moved into it *)
  buffer : list N;                  (* the bytes already read, legacy path *)
  remote : Endpoint;
  inbound : bool
}.
End PeerImp.

Inductive Child :=
| ChildTimer
| ChildPeer (p : PeerImp.t).

(** ** The call log *)
Inductive Event :=
| EvJournal (sev : Severity)
| EvLocalEndpoint (t : Transport)
| EvNewInboundEndpoint (a : Address)
| EvDisconnect (c : Consumer)
| EvNewInboundSlot (l r : Endpoint)
| EvNewOutboundSlot (r : Endpoint)
| EvRedirect (s : Slot)
| EvParseHello
| EvMakeSharedValue (t : Transport)
| EvVerifyHello (h : TMHello) (shared : uint256)
| EvNodeInCluster (k : RippleAddress)
| EvActivate (s : Slot) (k : RippleAddress) (cluster : bool)
| EvMakePeer (p : PeerImp.t)
| EvPeerRun (a : child_ptr)
| EvPeerStop (a : child_ptr)
| EvPeerSendEndpoints (a : child_ptr) (l : list Endpoint)
| EvOncePerSecond
| EvBuildEndpointsForPeers
| EvAutoconnect
| EvTimerCancel
| EvTimerExpiresFromNow (seconds : N)
| EvTimerAsyncWait
| EvStopped.

(** ** The collaborators

    What the manager consumes from the PeerFinder (the slot provider), the
    Resource::Manager (accounting), the socket, the handshake helpers of
    TMHello.h, the cluster list and the journal.  Every answer is a function
    of the call log so far. *)
Module Env.
Record t := {
  (* pure helpers declared outside OverlayImpl.cpp *)
  parse_ProtocolVersions : string -> list (nat * nat);
  split_commas : string -> list string;
  to_string : Address -> string;
  message_default : Http.message;           (* beast::http::message m; *)
  journal_active : Severity -> bool;
operation_aborted : error_code;           (* boost::asio::error::operation_aborted *)
  (* the socket *)
  local_endpoint : list Event -> Transport -> error_code * Endpoint;
  (* Resource::Manager *)
  newInboundEndpoint : list Event -> Address -> Consumer;
  disconnect : list Event -> Consumer -> bool;
  (* PeerFinder::Manager *)
  new_inbound_slot : list Event -> Endpoint -> Endpoint -> option Slot;
  new_outbound_slot : list Event -> Endpoint -> option Slot;
  redirect : list Event -> Slot -> list Endpoint;
  pf_activate : list Event -> Slot -> RippleAddress -> bool -> PeerFinder.Result;
  autoconnect : list Event -> list Endpoint;
  buildEndpointsForPeers : list Event -> list (Slot * list Endpoint);
  (* TMHello.h and the UNL *)
  parseHello : list Event -> Http.message -> TMHello * bool;
  makeSharedValue : list Event -> Transport -> uint256 * bool;
  verifyHello : list Event -> TMHello -> uint256 -> RippleAddress * bool;
  nodeInCluster : list Event -> RippleAddress -> bool
}.
End Env.

(** ** The manager's state

    Modelled from the spec: the members are declared in OverlayImpl.h; they
    are "three maps, one mutex": slot to peer, short id to peer, public key
    to peer, the two indexes holding weak references; the Child Set, "a
    mapping from an opaque child identity to a weak reference to that
    child"; the Work Token; the id counter, "starting at 1".  [m_peers] is
    locked before use in [sendEndpoints], so it holds weak references too.
    [isStopping] and [areChildrenStopped] are the Stoppable base class's.
    The id counter is kept as a natural number without a bound; nothing
    below rests on ids not repeating. *)
Module OverlayImpl.
Record t := {
  work_ : option unit;                          (* boost::optional<io_service::work> *)
  m_peers : gmap positive positive;             (* Slot::ptr -> weak_ptr<PeerImp> *)
  m_shortIdMap : gmap N positive;               (* Peer::id_t -> weak_ptr<PeerImp> *)
  m_publicKeyMap : gmap string positive;        (* RippleAddress -> weak_ptr<PeerImp> *)
  list_ : gmap positive positive;               (* Child* -> weak_ptr<Child> *)
  timer_ : option positive;                     (* weak_ptr<Timer> *)
  next_id_ : N;
  (* the Stoppable base class *)
  isStopping : bool;
  areChildrenStopped : bool;
  (* the objects a weak_ptr still resolves to *)
  heap : gmap positive Child;
  (* the calls made so far *)
  log : list Event
}.

Definition set_work_ (v : option unit) (s : t) : t :=
  {| work_ := v; m_peers := m_peers s; m_shortIdMap := m_shortIdMap s;
     m_publicKeyMap := m_publicKeyMap s; list_ := list_ s; timer_ := timer_ s;
     next_id_ := next_id_ s; isStopping := isStopping s;
     areChildrenStopped := areChildrenStopped s; heap := heap s; log := log s |}.

Definition set_m_peers (v : gmap positive positive) (s : t) : t :=
  {| work_ := work_ s; m_peers := v; m_shortIdMap := m_shortIdMap s;
     m_publicKeyMap := m_publicKeyMap s; list_ := list_ s; timer_ := timer_ s;
     next_id_ := next_id_ s; isStopping := isStopping s;
     areChildrenStopped := areChildrenStopped s; heap := heap s; log := log s |}.

Definition set_m_shortIdMap (v : gmap N positive) (s : t) : t :=
  {| work_ := work_ s; m_peers := m_peers s; m_shortIdMap := v;
     m_publicKeyMap := m_publicKeyMap s; list_ := list_ s; timer_ := timer_ s;
     next_id_ := next_id_ s; isStopping := isStopping s;
     areChildrenStopped := areChildrenStopped s; heap := heap s; log := log s |}.

Definition set_m_publicKeyMap (v : gmap string positive) (s : t) : t :=
  {| work_ := work_ s; m_peers := m_peers s; m_shortIdMap := m_shortIdMap s;
     m_publicKeyMap := v; list_ := list_ s; timer_ := timer_ s;
     next_id_ := next_id_ s; isStopping := isStopping s;
     areChildrenStopped := areChildrenStopped s; heap := heap s; log := log s |}.

Definition set_list_ (v : gmap positive positive) (s : t) : t :=
  {| work_ := work_ s; m_peers := m_peers s; m_shortIdMap := m_shortIdMap s;
     m_publicKeyMap := m_publicKeyMap s; list_ := v; timer_ := timer_ s;
     next_id_ := next_id_ s; isStopping := isStopping s;
     areChildrenStopped := areChildrenStopped s; heap := heap s; log := log s |}.

Definition set_timer_ (v : option positive) (s : t) : t :=
  {| work_ := work_ s; m_peers := m_peers s; m_shortIdMap := m_shortIdMap s;
     m_publicKeyMap := m_publicKeyMap s; list_ := list_ s; timer_ := v;
     next_id_ := next_id_ s; isStopping := isStopping s;
     areChildrenStopped := areChildrenStopped s; heap := heap s; log := log s |}.

Definition set_next_id_ (v : N) (s : t) : t :=
  {| work_ := work_ s; m_peers := m_peers s; m_shortIdMap := m_shortIdMap s;
     m_publicKeyMap := m_publicKeyMap s; list_ := list_ s; timer_ := timer_ s;
     next_id_ := v; isStopping := isStopping s;
     areChildrenStopped := areChildrenStopped s; heap := heap s; log := log s |}.

Definition set_heap (v : gmap positive Child) (s : t) : t :=
  {| work_ := work_ s; m_peers := m_peers s; m_shortIdMap := m_shortIdMap s;
     m_publicKeyMap := m_publicKeyMap s; list_ := list_ s; timer_ := timer_ s;
     next_id_ := next_id_ s; isStopping := isStopping s;
     areChildrenStopped := areChildrenStopped s; heap := v; log := log s |}.

Definition set_log (v : list Event) (s : t) : t :=
  {| work_ := work_ s; m_peers := m_peers s; m_shortIdMap := m_shortIdMap s;
     m_publicKeyMap := m_publicKeyMap s; list_ := list_ s; timer_ := timer_ s;
     next_id_ := next_id_ s; isStopping := isStopping s;
     areChildrenStopped := areChildrenStopped s; heap := heap s; log := v |}.

(** The constructor: [work_] engaged, the maps empty, [next_id_(1)]. *)
Definition init : t :=
  {| work_ := Some tt; m_peers := ∅; m_shortIdMap := ∅; m_publicKeyMap := ∅;
     list_ := ∅; timer_ := None; next_id_ := 1%N; isStopping := false;
     areChildrenStopped := false; heap := ∅; log := [] |}.
End OverlayImpl.
Import OverlayImpl.

(** ** The monad: state, and abort at a failed [assert] *)

(** The sites of the [assert]s of the source. *)
Inductive assertion :=
| assert_work                (* connect: assert(work_) *)
| assert_remove_found        (* remove(slot): assert(iter != m_peers.end()) *)
| assert_activate_id         (* activate: m_shortIdMap.emplace(...).second *)
| assert_activate_key        (* activate: m_publicKeyMap.emplace(...).second *)
| assert_activate_size       (* activate: assert(size() != 0) *)
| assert_add_slot.           (* add: m_peers.emplace(...).second *)

Inductive result (A : Type) :=
| Ok (a : A) (s : OverlayImpl.t)
| Abort (site : assertion) (s : OverlayImpl.t).
Arguments Ok {A} a s.
Arguments Abort {A} site s.

Definition M (A : Type) : Type := OverlayImpl.t -> result A.

Definition ret {A} (a : A) : M A := fun s => Ok a s.

Definition bind {A B} (c : M A) (k : A -> M B) : M B :=
  fun s => match c s with
           | Ok a s' => k a s'
           | Abort site s' => Abort site s'
           end.

Notation "'let!' x ':=' c 'in' k" := (bind c (fun x => k))
  (at level 10, x pattern, c at level 100, k at level 200).
Notation "c ';;' k" := (bind c (fun _ => k))
  (at level 100, k at level 200, right associativity).

Definition gets {A} (f : OverlayImpl.t -> A) : M A := fun s => Ok (f s) s.
Definition modify (f : OverlayImpl.t -> OverlayImpl.t) : M unit := fun s => Ok tt (f s).
Definition assert (site : assertion) (b : bool) : M unit :=
  fun s => if b then Ok tt s else Abort site s.

(** A call that leaves the manager: logged. *)
Definition call (e : Event) : M unit := modify (fun s => set_log (log s ++ [e]) s).

(** The state a run ends in, and whether it ran to its end. *)
Definition final {A} (r : result A) : OverlayImpl.t :=
  match r with Ok _ s => s | Abort _ s => s end.
Definition completes {A} (r : result A) : bool :=
  match r with Ok _ _ => true | Abort _ _ => false end.

(** [for (auto const& x : l) body(x);] *)
Fixpoint for_each {A} (l : list A) (body : A -> M unit) : M unit :=
  match l with
  | [] => ret tt
  | x :: rest => body x ;; for_each rest body
  end.

(** [std::map::emplace]: inserts unless the key is present; [.second] tells
    whether it inserted. *)
Definition emplace `{Countable K} {V} (k : K) (v : V) (m : gmap K V) : gmap K V * bool :=
  match m !! k with
  | Some _ => (m, false)
  | None => (<[k := v]> m, true)
  end.

(** [weak_ptr::lock()]: the object, if it is still there. *)
Definition lock (w : child_ptr) : M (option Child) := gets (fun s => heap s !! w).

Section Overlay.
Context (env : Env.t).

(** [if (journal_.sev) journal_.sev << ...] *)
Definition journal (sev : Severity) : M unit :=
  if Env.journal_active env sev then call (EvJournal sev) else ret tt.

(** A collaborator's answer to a call, read against the log before the
    call, which is then logged. *)
Definition ask {A} (answer : list Event -> A) (e : Event) : M A :=
  let! a := gets (fun s => answer (log s)) in
  call e ;;
  ret a.

(** The addresses in use: those of the live objects, the keys of [list_],
    and those a weak reference of the manager still points to, alive or
    not (the storage of an object made by [make_shared] is not given back
    while a weak reference to it is left). *)
Definition referenced (s : OverlayImpl.t) : gset positive :=
  dom (heap s) ∪ dom (list_ s)
  ∪ (map_img (list_ s) : gset positive)
  ∪ (map_img (m_peers s) : gset positive)
  ∪ (map_img (m_shortIdMap s) : gset positive)
  ∪ (map_img (m_publicKeyMap s) : gset positive)
  ∪ (match timer_ s with Some a => {[a]} | None => ∅ end).

(** [std::make_shared<...>]: a new object at an address that is not in
    use. *)
Definition new_address (s : OverlayImpl.t) : child_ptr :=
  fresh (referenced s).

(** *** The registry *)

Definition size : M nat := gets (fun s => base.size (m_publicKeyMap s)).

Definition activate (peer : PeerImp.t) : M unit :=
  let! r1 := gets (fun s => emplace (PeerImp.id peer) (PeerImp.get peer) (m_shortIdMap s)) in
  modify (set_m_shortIdMap (fst r1)) ;;
  assert assert_activate_id (snd r1) ;;
  let! r2 := gets (fun s => emplace (PeerImp.getNodePublic peer) (PeerImp.get peer)
                              (m_publicKeyMap s)) in
  modify (set_m_publicKeyMap (fst r2)) ;;
  assert assert_activate_key (snd r2) ;;
  journal Debug ;;
  let! n := size in
  assert assert_activate_size (negb (n =? 0)%nat).

Definition onPeerDeactivate (id : id_t) (publicKey : RippleAddress) : M unit :=
  modify (fun s => set_m_shortIdMap (delete id (m_shortIdMap s)) s) ;;
  modify (fun s => set_m_publicKeyMap (delete publicKey (m_publicKeyMap s)) s).

Definition findPeerByShortID (id : id_t) : M (option Child) :=
  let! iter := gets (fun s => m_shortIdMap s !! id) in
  match iter with
  | Some w => lock w
  | None => ret None
  end.

Definition getActivePeers : M (list Child) :=
  let! entries := gets (fun s => map_to_list (m_publicKeyMap s)) in
  let! sps := gets (fun s => omap (fun e => heap s !! snd e) entries) in
  ret sps.

Definition add (peer : PeerImp.t) : M unit :=
  let! r := gets (fun s => emplace (PeerImp.slot peer) (PeerImp.get peer) (m_peers s)) in
  modify (set_m_peers (fst r)) ;;
  assert assert_add_slot (snd r) ;;
  modify (fun s => set_list_ (fst (emplace (PeerImp.get peer) (PeerImp.get peer) (list_ s))) s).

(** [remove (PeerFinder::Slot::ptr const&)] *)
Definition remove (slot : Slot) : M unit :=
  let! iter := gets (fun s => m_peers s !! slot) in
  assert assert_remove_found (bool_decide (is_Some iter)) ;;
  modify (fun s => set_m_peers (delete slot (m_peers s)) s).

(** *** Stoppable *)

Definition checkStopped : M unit :=
  let! s := gets (fun s => s) in
  if isStopping s && areChildrenStopped s && bool_decide (list_ s = ∅)
  then call EvStopped
  else ret tt.

(** [remove (Child&)], called by [~Child]. *)
Definition remove_child (child : child_ptr) : M unit :=
  modify (fun s => set_list_ (delete child (list_ s)) s) ;;
  let! empty := gets (fun s => bool_decide (list_ s = ∅)) in
  if empty then checkStopped else ret tt.

Definition onChildrenStopped : M unit := checkStopped.

(** [child->stop()]: [Timer::stop] cancels the timer, a peer's [stop] is
    the peer's own. *)
Definition Child_stop (w : child_ptr) (c : Child) : M unit :=
  match c with
  | ChildTimer => call EvTimerCancel
  | ChildPeer _ => call (EvPeerStop w)
  end.

(** The children are visited in the order of [list_]; addresses being
    what the allocator gives, that order carries no meaning and
    [map_to_list] stands for it. *)
Definition stop : M unit :=
  let! w := gets work_ in
  match w with
  | Some _ =>
      modify (set_work_ None) ;;
      let! children := gets (fun s => map_to_list (list_ s)) in
      for_each children (fun e =>
        let! child := lock (snd e) in
        match child with
        | Some c => Child_stop (snd e) c
        | None => ret tt
        end)
  | None => ret tt
  end.

(** [strand_.dispatch(std::bind(&OverlayImpl::stop, this))]: [stop], run on
    the strand. *)
Definition onStop : M unit := stop.

(** *** Admission *)

(** Modelled from the spec: [Peer::id_t] is declared in Peer.h, outside
    this file; the spec has "a numeric id (assigned monotonically by the
    manager, starting at 1)".  It is taken as the unsigned 32-bit integer,
    so that [next_id_++] wraps around from 4294967295 to 0. *)
Definition id_bits : N := 32.

Definition next_id (id : id_t) : id_t := ((id + 1) mod 2 ^ id_bits)%N.

(** [std::make_shared<PeerImp>(..., slot, next_id_++)] *)
Definition make_PeerImp (bundle : option Transport) (buffer : list N)
    (remote_endpoint : Endpoint) (publicKey : RippleAddress) (slot : Slot)
    (inbound : bool) : M PeerImp.t :=
  let! id := gets next_id_ in
  modify (set_next_id_ (next_id id)) ;;
  let! a := gets new_address in
  let peer := {| PeerImp.get := a; PeerImp.id := id; PeerImp.slot := slot;
                 PeerImp.getNodePublic := publicKey; PeerImp.bundle := bundle;
                 PeerImp.buffer := buffer;
                 PeerImp.remote := remote_endpoint; PeerImp.inbound := inbound |} in
  modify (fun s => set_heap (<[a := ChildPeer peer]> (heap s)) s) ;;
  call (EvMakePeer peer) ;;
  ret peer.

(** [{ lock_guard lock (mutex_); add(peer); peer->run(); }] *)
Definition add_and_run (peer : PeerImp.t) : M unit :=
  add peer ;;
  call (EvPeerRun (PeerImp.get peer)).

Definition onLegacyPeerHello (ssl_bundle : Transport) (buffer : list N)
    (remote_endpoint : Endpoint) : M unit :=
  let! le := ask (fun h => Env.local_endpoint env h ssl_bundle) (EvLocalEndpoint ssl_bundle) in
  let '(ec, local_endpoint) := le in
  if negb (ec =? 0)%N then ret tt else
  let! slot := ask (fun h => Env.new_inbound_slot env h local_endpoint remote_endpoint)
                   (EvNewInboundSlot local_endpoint remote_endpoint) in
  match slot with
  | None => ret tt                       (* self connect, close *)
  | Some slot =>
      let! peer := make_PeerImp (Some ssl_bundle) buffer remote_endpoint "" slot true in
      add_and_run peer
  end.

Definition connect (remote_endpoint : Endpoint) : M unit :=
  let! w := gets work_ in
  assert assert_work (bool_decide (is_Some w)) ;;
  let! slot := ask (fun h => Env.new_outbound_slot env h remote_endpoint)
                   (EvNewOutboundSlot remote_endpoint) in
  match slot with
  | None => ret tt
  | Some slot =>
      let! peer := make_PeerImp None [] remote_endpoint "" slot false in
      add_and_run peer
  end.

(** *** The handshake / upgrade negotiator *)

Definition isPeerUpgrade (request : Http.message) : bool :=
  if negb (Http.upgrade request) then false else
  let versions := Env.parse_ProtocolVersions env
                    (Http.headers_get (Http.headers request) "Upgrade") in
  if (length versions =? 0)%nat then false else
  if negb (Http.request request) && negb (Http.status request =? 101)%N then false else
  true.

(** [ips] is a reference to [json["peer-ips"]]: every [append] goes
    through the object. *)
Definition append_ip (json : Json.Value) (e : Endpoint) : Json.Value :=
  Json.set "peer-ips"
    (Json.append (Json.stringValue (Env.to_string env (address e)))
       (Json.get "peer-ips" json))
    json.

Definition makeRedirectResponse (slot : Slot) (request : Http.message)
    (remote_address : Address) : M Http.Writer :=
  let json := Json.objectValue [] in
  let! result := ask (fun h => Env.redirect env h slot) (EvRedirect slot) in
  let json := Json.set "peer-ips" (Json.arrayValue []) json in
  let! candidates := ask (fun h => Env.redirect env h slot) (EvRedirect slot) in
  let json := fold_left append_ip candidates json in
  let m := Env.message_default env in
  let m := Http.set_request false m in
  let m := Http.set_status 503 m in
  let m := Http.set_reason "Service Unavailable" m in
  let m := Http.headers_append "Remote-Address" (Env.to_string env remote_address) m in
  let m := Http.set_version (Http.version request) m in
  ret (Http.make_JsonWriter m json).

Definition redirected (w : Http.Writer) (request : Http.message) : Handoff.t :=
  {| Handoff.moved := false;
     Handoff.response := Some w;
     Handoff.keep_alive := Http.keep_alive request |}.

Definition set_moved (b : bool) (h : Handoff.t) : Handoff.t :=
  {| Handoff.moved := b;
     Handoff.response := Handoff.response h;
     Handoff.keep_alive := Handoff.keep_alive h |}.

Definition onHandoff (ssl_bundle : Transport) (request : Http.message)
    (remote_endpoint : Endpoint) : M Handoff.t :=
  let handoff := Handoff.default in
  if negb (isPeerUpgrade request) then ret handoff else
  let handoff := set_moved true handoff in
  journal Trace ;;
  let! le := ask (fun h => Env.local_endpoint env h ssl_bundle) (EvLocalEndpoint ssl_bundle) in
  let '(ec, local_endpoint) := le in
  if negb (ec =? 0)%N then (journal Trace ;; ret handoff) else
  let! consumer := ask (fun h => Env.newInboundEndpoint env h (address remote_endpoint))
                       (EvNewInboundEndpoint (address remote_endpoint)) in
  let! over := ask (fun h => Env.disconnect env h consumer) (EvDisconnect consumer) in
  if over then ret handoff else
  let! slot := ask (fun h => Env.new_inbound_slot env h local_endpoint remote_endpoint)
                   (EvNewInboundSlot local_endpoint remote_endpoint) in
  match slot with
  | None =>
      (* self-connect, close *)
      ret (set_moved false handoff)
  | Some slot =>
      let types := Env.split_commas env
                     (Http.headers_get (Http.headers request) "Connect-As") in
      if negb (existsb (fun s => Http.ci_equal s "peer") types) then
        let! response := makeRedirectResponse slot request (address remote_endpoint) in
        ret (redirected response request)
      else
      let handoff := set_moved true handoff in
      let! ph := ask (fun h => Env.parseHello env h request) EvParseHello in
      let '(hello, success) := ph in
      if negb success then ret handoff else
      let! sv := ask (fun h => Env.makeSharedValue env h ssl_bundle)
                     (EvMakeSharedValue ssl_bundle) in
      let '(sharedValue, success) := sv in
      if negb success then ret handoff else
      let! vh := ask (fun h => Env.verifyHello env h hello sharedValue)
                     (EvVerifyHello hello sharedValue) in
      let '(publicKey, success) := vh in
      if negb success then ret handoff else
      let! clusterNode := ask (fun h => Env.nodeInCluster env h publicKey)
                              (EvNodeInCluster publicKey) in
      let! result := ask (fun h => Env.pf_activate env h slot publicKey clusterNode)
                         (EvActivate slot publicKey clusterNode) in
      match result with
      | PeerFinder.success =>
          let! peer := make_PeerImp (Some ssl_bundle) [] remote_endpoint publicKey slot true in
          add_and_run peer ;;
          ret (set_moved true handoff)
      | _ =>
          journal Trace ;;
          let! response := makeRedirectResponse slot request (address remote_endpoint) in
          ret (redirected response request)
      end
  end.

(** *** Auto-connect and endpoint broadcast *)

Definition autoConnect : M unit :=
  let! result := ask (Env.autoconnect env) EvAutoconnect in
  for_each result connect.

Definition sendEndpoints : M unit :=
  let! result := ask (Env.buildEndpointsForPeers env) EvBuildEndpointsForPeers in
  for_each result (fun e =>
    let! iter := gets (fun s => m_peers s !! fst e) in
    let! peer := match iter with
                 | Some w =>
                     let! c := lock w in
                     ret (match c with Some _ => Some w | None => None end)
                 | None => ret None
                 end in
    match peer with
    | Some w => call (EvPeerSendEndpoints w (snd e))
    | None => ret tt
    end).

(** *** The timer *)

(** What [Timer::run] and the tail of [Timer::on_timer] both do. *)
Definition Timer_wait : M unit :=
  call (EvTimerExpiresFromNow 1) ;;
  call EvTimerAsyncWait.

Definition Timer_run : M unit := Timer_wait.

Definition Timer_on_timer (ec : error_code) : M unit :=
  let! stopping := gets isStopping in
  if negb (ec =? 0)%N || stopping then
    (if negb (ec =? 0)%N && negb (ec =? Env.operation_aborted env)%N
     then journal Error else ret tt)
  else
    call EvOncePerSecond ;;
    sendEndpoints ;;
    autoConnect ;;
    Timer_wait.

Definition onStart : M unit :=
  let! a := gets new_address in
  modify (fun s => set_heap (<[a := ChildTimer]> (heap s)) s) ;;
  modify (fun s => set_list_ (fst (emplace a a (list_ s))) s) ;;
  modify (set_timer_ (Some a)) ;;
  Timer_run.

(** The last [shared_ptr] to a child is dropped: weak references to it
    stop resolving, and [~Child] then takes it off [list_]. *)
Definition expire (a : child_ptr) : M unit :=
  modify (fun s => set_heap (delete a (heap s)) s).

Definition Child_dtor (a : child_ptr) : M unit := remove_child a.
End Overlay.

(** ** A concrete environment, to run the model *)
Module Sample.
(** Modelled from the spec: [beast::rfc2616::split_commas] is beast's;
    "comma-separated value list": the pieces between commas, without the
    blanks around them. *)
Fixpoint split_commas_aux (cur : string) (s : string) : list string :=
  match s with
  | EmptyString => [cur]
  | String c rest =>
      if Ascii.eqb c ","%char then cur :: split_commas_aux "" rest
      else if Ascii.eqb c " "%char then split_commas_aux cur rest
      else split_commas_aux (cur ++ String c "") rest
  end.
Definition split_commas (s : string) : list string :=
  filter (fun x => x <> "") (split_commas_aux "" s).

(** One version, 1.2, for any non-empty Upgrade header. *)
Definition parse_ProtocolVersions (s : string) : list (nat * nat) :=
  match s with EmptyString => [] | _ => [(1, 2)%nat] end.

Definition ep (a p : N) : Endpoint := {| address := {| addr_bytes := a |}; port := p |}.

Definition to_string (a : Address) : string :=
  match addr_bytes a with
  | 1%N => "10.0.0.1" | 2%N => "10.0.0.2" | 3%N => "10.0.0.3" | _ => "0.0.0.0"
  end.

Definition message_default : Http.message :=
  {| Http.request := true; Http.status := 200; Http.reason := "";
     Http.version := (1, 1)%nat; Http.headers := []; Http.upgrade := false;
     Http.keep_alive := false |}.

(** The slot after the largest a peer has been made with. *)
Definition next_slot (h : list Event) : Slot :=
  Pos.succ (fold_right (fun e m => match e with
                                   | EvMakePeer p => Pos.max (PeerImp.slot p) m
                                   | _ => m
                                   end) 1%positive h).

(** A slot provider that hands out the slot after the largest in use
    (so never the same one twice), refuses port 0 as a self-connection,
    and whose redirect list grows with every query. *)
Definition env : Env.t :=
  {| Env.parse_ProtocolVersions := parse_ProtocolVersions;
     Env.split_commas := split_commas;
     Env.to_string := to_string;
     Env.message_default := message_default;
     Env.journal_active := fun _ => true;
     Env.operation_aborted := 125;
     Env.local_endpoint := fun _ t => (if (t =? 9)%positive then 5%N else 0%N, ep 1 51235);
     Env.newInboundEndpoint := fun _ a => addr_bytes a;
     Env.disconnect := fun _ c => (c =? 66)%N;
     Env.new_inbound_slot := fun h _ r =>
       if (port r =? 0)%N then None else Some (next_slot h);
     Env.new_outbound_slot := fun h r =>
       if (port r =? 0)%N then None else Some (next_slot h);
     Env.redirect := fun h _ =>
       map (fun n => ep (N.of_nat n) 51235)
           (seq 1 (length (List.filter (fun e => match e with EvRedirect _ => true | _ => false end) h)
                   + 1));
     Env.pf_activate := fun _ _ k _ =>
       if String.eqb k "nFull" then PeerFinder.full else PeerFinder.success;
     Env.autoconnect := fun _ => [ep 2 0; ep 3 51235];
     Env.buildEndpointsForPeers := fun _ => [];
     Env.parseHello := fun _ m => (7%N, negb (String.eqb (Http.headers_get (Http.headers m) "Hello") ""));
     Env.makeSharedValue := fun _ _ => (11%N, true);
     Env.verifyHello := fun _ _ _ => ("nKey", true);
     Env.nodeInCluster := fun _ _ => false |}.

Definition upgrade_request (connect_as : string) : Http.message :=
  {| Http.request := true; Http.status := 0; Http.reason := "";
     Http.version := (1, 1)%nat;
     Http.headers := [("Upgrade", "RTXP/1.2"); ("Connect-As", connect_as); ("Hello", "x")];
     Http.upgrade := true; Http.keep_alive := true |}.

Definition plain_request : Http.message :=
  {| Http.request := true; Http.status := 0; Http.reason := "";
     Http.version := (1, 1)%nat; Http.headers := []; Http.upgrade := false;
     Http.keep_alive := true |}.
End Sample.

(** * The vocabulary of the properties

    What the statements below are written in: the runs of the registry's
    operations and what is kept beside them, the calls of one inbound
    attempt and its outcomes, the calls of [stop] and of a timer tick. *)

(** ** The registry *)

(** The active-peer count of a state, as [size()] returns it. *)
Definition size_of (s : OverlayImpl.t) : nat := base.size (m_publicKeyMap s).

(** The two indexes hold entries for the same peers. *)
Definition same_peers (s : OverlayImpl.t) : Prop :=
  forall a : child_ptr,
    (exists i, m_shortIdMap s !! i = Some a) <-> (exists k, m_publicKeyMap s !! k = Some a).

(** The registry's operations, as the peers and the admission paths call
    them. *)
Inductive RegistryOp :=
| OpAdd (peer : PeerImp.t)
| OpRemove (slot : Slot)
| OpActivate (peer : PeerImp.t)
| OpDeactivate (id : id_t) (publicKey : RippleAddress).

Definition run_op (env : Env.t) (op : RegistryOp) : M unit :=
  match op with
  | OpAdd peer => add peer
  | OpRemove slot => remove slot
  | OpActivate peer => activate env peer
  | OpDeactivate id publicKey => onPeerDeactivate id publicKey
  end.

Definition run_ops (env : Env.t) (ops : list RegistryOp) : M unit :=
  for_each ops (run_op env).

(** The peers activated and not deactivated since, kept beside a run. *)
Definition track (act : list PeerImp.t) (op : RegistryOp) : list PeerImp.t :=
  match op with
  | OpActivate peer => peer :: act
  | OpDeactivate id _ => List.filter (fun q => negb (PeerImp.id q =? id)%N) act
  | _ => act
  end.

(** A deactivation is called by a peer with its own id and key: either the
    pair is that of an active peer, or neither the id nor the key is in use
    (the peer was never activated, or is deactivated a second time). *)
Definition paired (act : list PeerImp.t) (op : RegistryOp) : bool :=
  match op with
  | OpDeactivate id publicKey =>
      existsb (fun q => (PeerImp.id q =? id)%N
                        && String.eqb (PeerImp.getNodePublic q) publicKey) act
      || forallb (fun q => negb (PeerImp.id q =? id)%N
                           && negb (String.eqb (PeerImp.getNodePublic q) publicKey)) act
  | _ => true
  end.

Fixpoint all_paired (act : list PeerImp.t) (ops : list RegistryOp) : bool :=
  match ops with
  | [] => true
  | op :: rest => paired act op && all_paired (track act op) rest
  end.

Definition by_id (q : PeerImp.t) : N * positive := (PeerImp.id q, PeerImp.get q).

Definition by_key (q : PeerImp.t) : string * positive := (PeerImp.getNodePublic q, PeerImp.get q).

(** The two indexes are exactly the indexes of the list [act]. *)
Record tracks (act : list PeerImp.t) (s : OverlayImpl.t) : Prop := {
  tracks_ids : NoDup (PeerImp.id <$> act);
  tracks_keys : NoDup (PeerImp.getNodePublic <$> act);
  tracks_shortId : m_shortIdMap s = list_to_map (by_id <$> act);
  tracks_publicKey : m_publicKeyMap s = list_to_map (by_key <$> act)
}.

(** The slots added and not removed since, kept beside a run. *)
Definition track_slots (slots : gset positive) (op : RegistryOp) : gset positive :=
  match op with
  | OpAdd peer => {[PeerImp.slot peer]} ∪ slots
  | OpRemove slot => slots ∖ {[slot]}
  | _ => slots
  end.

(** The callers' side of the contract: a peer is activated under an id and
    a key that no active peer has, a slot is removed only while it is added,
    and a deactivation comes with the peer's own id and key. *)
Definition well_used (act : list PeerImp.t) (slots : gset positive) (op : RegistryOp) : bool :=
  match op with
  | OpAdd _ => true
  | OpRemove slot => bool_decide (slot ∈ slots)
  | OpActivate peer =>
      forallb (fun q => negb (PeerImp.id q =? PeerImp.id peer)%N
                        && negb (String.eqb (PeerImp.getNodePublic q)
                                            (PeerImp.getNodePublic peer))) act
  | OpDeactivate _ _ => paired act op
  end.

Fixpoint all_well_used (act : list PeerImp.t) (slots : gset positive)
    (ops : list RegistryOp) : bool :=
  match ops with
  | [] => true
  | op :: rest => well_used act slots op && all_well_used (track act op) (track_slots slots op) rest
  end.

(** The peers used in the examples: (address, id, slot, key). *)
Definition sample_peer (a : positive) (i : N) (sl : positive) (k : string) : PeerImp.t :=
  {| PeerImp.get := a; PeerImp.id := i; PeerImp.slot := sl; PeerImp.getNodePublic := k;
     PeerImp.bundle := None; PeerImp.buffer := [];
     PeerImp.remote := Sample.ep 1 51235; PeerImp.inbound := true |}.

Definition sample_ops : list RegistryOp :=
  [OpAdd (sample_peer 1 1 10 ""); OpAdd (sample_peer 2 2 20 "");
   OpActivate (sample_peer 1 1 10 "nA"); OpActivate (sample_peer 2 2 20 "nB");
   OpDeactivate 1 "nA"; OpDeactivate 1 "nA"; OpRemove 10].

(** ** The negotiator *)

Definition journal_log (env : Env.t) (sev : Severity) : list Event :=
  if Env.journal_active env sev then [EvJournal sev] else [].

(** The body [makeRedirectResponse] builds from a candidate list. *)
Definition peer_ips (env : Env.t) (candidates : list Endpoint) : Json.Value :=
  Json.objectValue
    [("peer-ips",
      Json.arrayValue (map (fun e => Json.stringValue (Env.to_string env (address e)))
                           candidates))].

(** The message of a redirect response. *)
Definition redirect_message (env : Env.t) (request : Http.message) (remote_address : Address)
  : Http.message :=
  {| Http.request := false; Http.status := 503; Http.reason := "Service Unavailable";
     Http.version := Http.version request;
     Http.headers := Http.headers (Env.message_default env)
                     ++ [("Remote-Address", Env.to_string env remote_address)];
     Http.upgrade := Http.upgrade (Env.message_default env);
     Http.keep_alive := Http.keep_alive (Env.message_default env) |}.

(** *** The calls of one inbound attempt, up to the slot

    The log as it stands when each collaborator is asked, and what each
    answers, for one call of [onHandoff]. *)
Section Attempt.
Context (env : Env.t) (ssl_bundle : Transport) (remote_endpoint : Endpoint)
        (s : OverlayImpl.t).

Definition log_upgrade : list Event := log s ++ journal_log env Trace.

Definition the_local_endpoint : error_code * Endpoint :=
  Env.local_endpoint env log_upgrade ssl_bundle.

Definition log_local : list Event := log_upgrade ++ [EvLocalEndpoint ssl_bundle].

Definition the_consumer : Consumer :=
  Env.newInboundEndpoint env log_local (address remote_endpoint).

Definition log_consumer : list Event :=
  log_local ++ [EvNewInboundEndpoint (address remote_endpoint)].

Definition the_disconnect : bool := Env.disconnect env log_consumer the_consumer.

Definition log_disconnect : list Event := log_consumer ++ [EvDisconnect the_consumer].

Definition the_slot : option Slot :=
  Env.new_inbound_slot env log_disconnect (snd the_local_endpoint) remote_endpoint.

Definition log_slot : list Event :=
  log_disconnect ++ [EvNewInboundSlot (snd the_local_endpoint) remote_endpoint].

(** The attempt gets as far as asking for a slot. *)
Definition reaches_slot (request : Http.message) : bool :=
  isPeerUpgrade env request
  && (fst the_local_endpoint =? 0)%N
  && negb the_disconnect.

(** The request is a peer's: "peer" is among the Connect-As values. *)
Definition connect_as_peer (request : Http.message) : bool :=
  existsb (fun t => Http.ci_equal t "peer")
    (Env.split_commas env (Http.headers_get (Http.headers request) "Connect-As")).

(** [onHandoff] from the Connect-As inspection on, once it has a slot. *)
Definition onHandoff_with_slot (request : Http.message) (slot : Slot) : M Handoff.t :=
  if negb (connect_as_peer request) then
    let! response := makeRedirectResponse env slot request (address remote_endpoint) in
    ret (redirected response request)
  else
    let handoff := set_moved true (set_moved true Handoff.default) in
    let! ph := ask (fun h => Env.parseHello env h request) EvParseHello in
    let '(hello, success) := ph in
    if negb success then ret handoff else
    let! sv := ask (fun h => Env.makeSharedValue env h ssl_bundle)
                   (EvMakeSharedValue ssl_bundle) in
    let '(sharedValue, success) := sv in
    if negb success then ret handoff else
    let! vh := ask (fun h => Env.verifyHello env h hello sharedValue)
                   (EvVerifyHello hello sharedValue) in
    let '(publicKey, success) := vh in
    if negb success then ret handoff else
    let! clusterNode := ask (fun h => Env.nodeInCluster env h publicKey)
                            (EvNodeInCluster publicKey) in
    let! result := ask (fun h => Env.pf_activate env h slot publicKey clusterNode)
                       (EvActivate slot publicKey clusterNode) in
    match result with
    | PeerFinder.success =>
        let! peer := make_PeerImp (Some ssl_bundle) [] remote_endpoint publicKey slot true in
        add_and_run peer ;;
        ret (set_moved true handoff)
    | _ =>
        journal env Trace ;;
        let! response := makeRedirectResponse env slot request (address remote_endpoint) in
        ret (redirected response request)
    end.

End Attempt.

(** *** The calls of the handshake, once the attempt has its slot

    What each helper answers, and the log as it stands when the next is
    asked, for a handshake that starts with the log [h]. *)
Section Handshake.
Context (env : Env.t) (ssl_bundle : Transport) (request : Http.message) (slot : Slot)
        (h : list Event).

Definition the_hello : TMHello * bool := Env.parseHello env h request.

Definition log_hello : list Event := h ++ [EvParseHello].

Definition the_shared_value : uint256 * bool := Env.makeSharedValue env log_hello ssl_bundle.

Definition log_shared_value : list Event := log_hello ++ [EvMakeSharedValue ssl_bundle].

Definition the_key : RippleAddress * bool :=
  Env.verifyHello env log_shared_value the_hello.1 the_shared_value.1.

Definition log_key : list Event :=
  log_shared_value ++ [EvVerifyHello the_hello.1 the_shared_value.1].

Definition the_cluster : bool := Env.nodeInCluster env log_key the_key.1.

Definition log_cluster : list Event := log_key ++ [EvNodeInCluster the_key.1].

Definition the_activation : PeerFinder.Result :=
  Env.pf_activate env log_cluster slot the_key.1 the_cluster.

Definition log_activation : list Event :=
  log_cluster ++ [EvActivate slot the_key.1 the_cluster].

(** The hello parses, the shared value is made, the hello verifies, and the
    PeerFinder activates the slot for the key. *)
Definition handshake_passes : bool :=
  the_hello.2 && the_shared_value.2 && the_key.2
  && match the_activation with PeerFinder.success => true | _ => false end.
End Handshake.

(** The attempt is one [onHandoff] admits a peer for: a peer upgrade that
    gets the slot [slot], asks to connect as a peer and passes the
    handshake. *)
Definition admits (env : Env.t) (ssl_bundle : Transport) (request : Http.message)
    (remote_endpoint : Endpoint) (s : OverlayImpl.t) (slot : Slot) : Prop :=
  reaches_slot env ssl_bundle remote_endpoint s request = true
  /\ the_slot env ssl_bundle remote_endpoint s = Some slot
  /\ connect_as_peer env request = true
  /\ handshake_passes env ssl_bundle request slot
       (log_slot env ssl_bundle remote_endpoint s) = true.

(** What [onHandoff] leaves untouched when it admits no peer. *)
Definition registry_untouched (s s' : OverlayImpl.t) : Prop :=
  m_peers s' = m_peers s /\ list_ s' = list_ s /\ heap s' = heap s
  /\ next_id_ s' = next_id_ s /\ work_ s' = work_ s
  /\ m_shortIdMap s' = m_shortIdMap s /\ m_publicKeyMap s' = m_publicKeyMap s.

(** The peer [make_PeerImp] constructs in state [s]. *)
Definition new_peer (bundle : option Transport) (buffer : list N)
    (remote_endpoint : Endpoint) (publicKey : RippleAddress) (slot : Slot) (inbound : bool)
    (s : OverlayImpl.t) : PeerImp.t :=
  {| PeerImp.get := new_address s; PeerImp.id := next_id_ s; PeerImp.slot := slot;
     PeerImp.getNodePublic := publicKey; PeerImp.bundle := bundle;
     PeerImp.buffer := buffer;
     PeerImp.remote := remote_endpoint; PeerImp.inbound := inbound |}.

(** The state in which [onHandoff] leaves the manager when it admits the
    peer of an attempt that has the slot [slot]. *)
Definition handed_off (env : Env.t) (ssl_bundle : Transport) (request : Http.message)
    (remote_endpoint : Endpoint) (s : OverlayImpl.t) (slot : Slot) : OverlayImpl.t :=
  let h := log_slot env ssl_bundle remote_endpoint s in
  let peer := new_peer (Some ssl_bundle) [] remote_endpoint
                (the_key env ssl_bundle request h).1 slot true s in
  set_log (log_activation env ssl_bundle request slot h
           ++ [EvMakePeer peer; EvPeerRun (new_address s)])
    (set_list_ (<[new_address s := new_address s]> (list_ s))
       (set_m_peers (<[slot := new_address s]> (m_peers s))
          (set_heap (<[new_address s := ChildPeer peer]> (heap s))
             (set_next_id_ (next_id (next_id_ s)) s)))).

(** The state after [add(peer); peer->run()]. *)
Definition admitted (peer : PeerImp.t) (s : OverlayImpl.t) : OverlayImpl.t :=
  set_log (log s ++ [EvPeerRun (PeerImp.get peer)])
    (set_list_ (emplace (PeerImp.get peer) (PeerImp.get peer) (list_ s)).1
       (set_m_peers (<[PeerImp.slot peer := PeerImp.get peer]> (m_peers s)) s)).

(** What a call may have changed of the state besides the call log. *)
Definition only_logged (added : list Event) (s s' : OverlayImpl.t) : Prop :=
  s' = set_log (log s ++ added) s.

Definition is_peer_event (e : Event) : bool :=
  match e with
  | EvMakePeer _ | EvPeerRun _ => true
  | _ => false
  end.

Definition handshake_events (e : Event) : bool :=
  match e with
  | EvParseHello | EvMakeSharedValue _ | EvVerifyHello _ _ => true
  | _ => false
  end.

Inductive with_slot_outcome (env : Env.t) (ssl_bundle : Transport)
    (remote_endpoint : Endpoint) (request : Http.message) (slot : Slot)
    (s : OverlayImpl.t) : result Handoff.t -> Prop :=
| handshake_failed added :
    connect_as_peer env request = true ->
    forallb handshake_events added = true ->
    with_slot_outcome env ssl_bundle remote_endpoint request slot s
      (Ok {| Handoff.moved := true; Handoff.keep_alive := false; Handoff.response := None |}
          (set_log (log s ++ added) s))
| was_redirected added :
    forallb (fun e => negb (is_peer_event e)) added = true ->
    with_slot_outcome env ssl_bundle remote_endpoint request slot s
      (Ok {| Handoff.moved := false; Handoff.keep_alive := Http.keep_alive request;
             Handoff.response :=
               Some (Http.make_JsonWriter
                       (redirect_message env request (address remote_endpoint))
                       (peer_ips env (Env.redirect env (log s ++ added ++ [EvRedirect slot])
                                        slot))) |}
          (set_log (log s ++ added ++ [EvRedirect slot; EvRedirect slot]) s))
| was_admitted hello sharedValue publicKey clusterNode s1 :
    connect_as_peer env request = true ->
    log s1 = log s ++ [EvParseHello; EvMakeSharedValue ssl_bundle;
                       EvVerifyHello hello sharedValue; EvNodeInCluster publicKey;
                       EvActivate slot publicKey clusterNode] ->
    only_logged [EvParseHello; EvMakeSharedValue ssl_bundle;
                 EvVerifyHello hello sharedValue; EvNodeInCluster publicKey;
                 EvActivate slot publicKey clusterNode] s s1 ->
    m_peers s !! slot = None ->
    with_slot_outcome env ssl_bundle remote_endpoint request slot s
      (Ok {| Handoff.moved := true; Handoff.keep_alive := false; Handoff.response := None |}
          (let peer := new_peer (Some ssl_bundle) [] remote_endpoint publicKey slot true s1 in
           admitted peer
             (set_log (log s1 ++ [EvMakePeer peer])
                (set_heap (<[new_address s1 := ChildPeer peer]> (heap s1))
                   (set_next_id_ (next_id (next_id_ s1)) s1)))))
| slot_in_use s' :
    connect_as_peer env request = true ->
    is_Some (m_peers s !! slot) ->
    with_slot_outcome env ssl_bundle remote_endpoint request slot s
      (Abort assert_add_slot s').


(** ** Shutdown *)

(** The call a child's [stop] is. *)
Definition stop_event (w : child_ptr) (c : Child) : Event :=
  match c with
  | ChildTimer => EvTimerCancel
  | ChildPeer _ => EvPeerStop w
  end.

(** The entries of [list_] whose weak reference resolves, with the child
    each resolves to, in the order [stop] visits them. *)
Definition resolving (s : OverlayImpl.t) : list (child_ptr * Child) :=
  omap (fun e : positive * positive => (fun c => (e.2, c)) <$> heap s !! e.2)
       (map_to_list (list_ s)).

Definition stop_signals (s : OverlayImpl.t) : list Event :=
  (fun wc : child_ptr * Child => stop_event wc.1 wc.2) <$> resolving s.

(** A manager with its timer (at address 1), an outbound peer (at 2) that
    has already gone but is still in [list_], and another (at 3). *)
Definition running : OverlayImpl.t :=
  final ((onStart ;;
          connect Sample.env (Sample.ep 2 51235) ;;
          connect Sample.env (Sample.ep 3 51235) ;;
          expire 2) init).

(** ** The maintenance timer *)

(** What the broadcast sends for one entry of the PeerFinder's plan: the
    endpoints, to the peer of the slot if [m_peers] has it and it is still
    there. *)
Definition sends_of (s : OverlayImpl.t) (e : Slot * list Endpoint) : list Event :=
  match m_peers s !! e.1 with
  | Some w => match heap s !! w with
              | Some _ => [EvPeerSendEndpoints w e.2]
              | None => []
              end
  | None => []
  end.

Definition is_send_event (e : Event) : bool :=
  match e with EvPeerSendEndpoints _ _ => true | _ => false end.

Definition is_connect_event (e : Event) : bool :=
  match e with
  | EvNewOutboundSlot _ | EvMakePeer _ | EvPeerRun _ => true
  | _ => false
  end.

(** What one [connect] calls, started in [t] with the work token engaged:
    the slot request and, when a slot is granted, the construction of the
    outbound peer and its [run]. *)
Definition connect_calls (env : Env.t) (remote_endpoint : Endpoint) (t : OverlayImpl.t)
  : list Event :=
  EvNewOutboundSlot remote_endpoint ::
  match Env.new_outbound_slot env (log t) remote_endpoint with
  | None => []
  | Some slot =>
      [EvMakePeer (new_peer None [] remote_endpoint "" slot false t);
       EvPeerRun (new_address t)]
  end.

(** The state one [connect] leaves, started in [t] with the work token
    engaged and given no slot or a slot that [m_peers] does not hold. *)
Definition connected (env : Env.t) (remote_endpoint : Endpoint) (t : OverlayImpl.t)
  : OverlayImpl.t :=
  match Env.new_outbound_slot env (log t) remote_endpoint with
  | None => set_log (log t ++ connect_calls env remote_endpoint t) t
  | Some slot =>
      set_log (log t ++ connect_calls env remote_endpoint t)
        (set_list_ (<[new_address t := new_address t]> (list_ t))
           (set_m_peers (<[slot := new_address t]> (m_peers t))
              (set_heap (<[new_address t
                           := ChildPeer (new_peer None [] remote_endpoint "" slot false t)]>
                           (heap t))
                 (set_next_id_ (next_id (next_id_ t)) t))))
  end.

Fixpoint connected_all (env : Env.t) (targets : list Endpoint) (t : OverlayImpl.t)
  : OverlayImpl.t :=
  match targets with
  | [] => t
  | r :: rest => connected_all env rest (connected env r t)
  end.

(** The calls of connecting to the targets one after the other. *)
Fixpoint connects_of (env : Env.t) (targets : list Endpoint) (t : OverlayImpl.t)
  : list Event :=
  match targets with
  | [] => []
  | r :: rest => connect_calls env r t ++ connects_of env rest (connected env r t)
  end.

(** Every slot the PeerFinder grants while the targets are connected to is
    one that [m_peers] does not hold when it is granted. *)
Fixpoint grants_new (env : Env.t) (targets : list Endpoint) (t : OverlayImpl.t) : bool :=
  match targets with
  | [] => true
  | r :: rest =>
      match Env.new_outbound_slot env (log t) r with
      | None => true
      | Some slot => bool_decide (m_peers t !! slot = None)
      end
      && grants_new env rest (connected env r t)
  end.

(** The log as it stands when the tick asks for the auto-connect targets. *)
Definition before_autoconnect (env : Env.t) (s : OverlayImpl.t) : list Event :=
  log s ++ [EvOncePerSecond]
        ++ EvBuildEndpointsForPeers
           :: flat_map (sends_of s) (Env.buildEndpointsForPeers env (log s ++ [EvOncePerSecond])).

(** * The rest of the file

    [onPrepare], the Stoppable hooks and the lookups, and the steps a
    manager takes one after the other. *)

(** ** onPrepare

    Modelled from the spec: [PeerFinder::Config], the global configuration
    and the resolver are declared outside OverlayImpl.cpp; the manager
    pushes "max peers, out-peer target, accept-inbound?, auto-connect?,
    listen port" to the PeerFinder and asks the resolver for the bootstrap
    and the fixed-peer names, whose results go to the PeerFinder's fallback
    and fixed-peer stores.  [onPrepare] touches nothing of the manager: it is
    the list of the calls it makes, and the resolver's callbacks are the
    calls they make when they are handed a result. *)
Module Prepare.
Record Config := {
  maxPeers : N;
  outPeers : N;
  wantIncoming : bool;
  autoConnect : bool;
  listeningPort : N;
  features : string
}.

(** [getConfig ()], the members read. *)
Record Settings := {
  PEERS_MAX : N;
  PEER_PRIVATE : bool;
  RUN_STANDALONE : bool;
  IPS : list string;
  IPS_FIXED : list string
}.

(** What is the PeerFinder's and beast's: the default [Config], its
    [calcOutPeers] and [applyTuning], and [to_string] of an endpoint. *)
Record Deps := {
  Config_default : Config;
  calcOutPeers : Config -> N;
  applyTuning : Config -> Config;
  to_string : Endpoint -> string
}.

(** The two lambdas handed to [m_resolver.resolve]. *)
Inductive Handler := bootstrap | fixed.

Inductive Call :=
| setConfig (config : Config)
| resolve (names : list string) (handler : Handler).

Inductive Forward :=
| addFallbackStrings (name : string) (ips : list string)
| addFixedPeer (name : string) (addresses : list Endpoint).

Definition set_maxPeers (v : N) (c : Config) : Config :=
  {| maxPeers := v; outPeers := outPeers c; wantIncoming := wantIncoming c;
     autoConnect := autoConnect c; listeningPort := listeningPort c;
     features := features c |}.

Definition set_outPeers (v : N) (c : Config) : Config :=
  {| maxPeers := maxPeers c; outPeers := v; wantIncoming := wantIncoming c;
     autoConnect := autoConnect c; listeningPort := listeningPort c;
     features := features c |}.

Definition set_wantIncoming (v : bool) (c : Config) : Config :=
  {| maxPeers := maxPeers c; outPeers := outPeers c; wantIncoming := v;
     autoConnect := autoConnect c; listeningPort := listeningPort c;
     features := features c |}.

Definition set_autoConnect (v : bool) (c : Config) : Config :=
  {| maxPeers := maxPeers c; outPeers := outPeers c; wantIncoming := wantIncoming c;
     autoConnect := v; listeningPort := listeningPort c;
     features := features c |}.

Definition set_listeningPort (v : N) (c : Config) : Config :=
  {| maxPeers := maxPeers c; outPeers := outPeers c; wantIncoming := wantIncoming c;
     autoConnect := autoConnect c; listeningPort := v;
     features := features c |}.

Definition set_features (v : string) (c : Config) : Config :=
  {| maxPeers := maxPeers c; outPeers := outPeers c; wantIncoming := wantIncoming c;
     autoConnect := autoConnect c; listeningPort := listeningPort c;
     features := v |}.

Definition empty {A} (l : list A) : bool :=
  match l with [] => true | _ => false end.

Definition onPrepare (d : Deps) (g : Settings) (port : N) : list Call :=
  let config := Config_default d in
  let config := if negb (PEERS_MAX g =? 0)%N then set_maxPeers (PEERS_MAX g) config
                else config in
  let config := set_outPeers (calcOutPeers d config) config in
  let config := set_wantIncoming (negb (PEER_PRIVATE g) && negb (port =? 0)%N) config in
  let config := set_autoConnect (negb (RUN_STANDALONE g) && negb (PEER_PRIVATE g)) config in
  let config := set_listeningPort port config in
  let config := set_features "" config in
  let config := applyTuning d config in
  let bootstrapIps := IPS g in
  let bootstrapIps := if empty bootstrapIps then bootstrapIps ++ ["r.ripple.com 51235"]
                      else bootstrapIps in
  [setConfig config]
  ++ (if negb (empty bootstrapIps) then [resolve bootstrapIps bootstrap] else [])
  ++ (if negb (RUN_STANDALONE g) && negb (empty (IPS_FIXED g))
      then [resolve (IPS_FIXED g) fixed] else []).

(** The callback of a [resolve], handed a name and what it resolved to. *)
Definition on_resolved (d : Deps) (handler : Handler) (name : string)
    (addresses : list Endpoint) : list Forward :=
  match handler with
  | bootstrap =>
      let ips := map (to_string d) addresses in
      let base := "config: " in
      if negb (empty ips) then [addFallbackStrings (base ++ name) ips] else []
  | fixed =>
      if negb (empty addresses) then [addFixedPeer name addresses] else []
  end.

(** A private server with one fixed peer and no bootstrap name of its own;
    a default configuration, with a tuning that changes nothing. *)
Definition sample_deps : Deps :=
  {| Config_default := {| maxPeers := 21; outPeers := 10; wantIncoming := true;
                          autoConnect := true; listeningPort := 0; features := "" |};
     calcOutPeers := fun c => N.max 10 (maxPeers c * 15 / 100);
     applyTuning := fun c => c;
     to_string := fun e => Sample.to_string (address e) |}.

Definition sample_settings : Settings :=
  {| PEERS_MAX := 0; PEER_PRIVATE := true; RUN_STANDALONE := false;
     IPS := []; IPS_FIXED := ["s1.ripple.com 51235"] |}.
End Prepare.

(** ** The steps of a manager's life *)

(** What the Stoppable base class does to its two flags. *)
Definition set_isStopping (v : bool) (s : OverlayImpl.t) : OverlayImpl.t :=
  {| work_ := work_ s; m_peers := m_peers s; m_shortIdMap := m_shortIdMap s;
     m_publicKeyMap := m_publicKeyMap s; list_ := list_ s; timer_ := timer_ s;
     next_id_ := next_id_ s; isStopping := v;
     areChildrenStopped := areChildrenStopped s; heap := heap s; log := log s |}.

Definition set_areChildrenStopped (v : bool) (s : OverlayImpl.t) : OverlayImpl.t :=
  {| work_ := work_ s; m_peers := m_peers s; m_shortIdMap := m_shortIdMap s;
     m_publicKeyMap := m_publicKeyMap s; list_ := list_ s; timer_ := timer_ s;
     next_id_ := next_id_ s; isStopping := isStopping s;
     areChildrenStopped := v; heap := heap s; log := log s |}.

(** The manager's member functions, and what happens to it from outside:
    the last reference to a child is dropped, the base class marks the
    manager stopping, the base class finds the manager's Stoppable children
    stopped (and then calls [onChildrenStopped]). *)
Inductive Step :=
| DoStart
| DoStop
| DoChildrenStopped
| DoConnect (remote_endpoint : Endpoint)
| DoLegacyPeerHello (ssl_bundle : Transport) (buffer : list N) (remote_endpoint : Endpoint)
| DoHandoff (ssl_bundle : Transport) (request : Http.message) (remote_endpoint : Endpoint)
| DoActivate (peer : PeerImp.t)
| DoDeactivate (id : id_t) (publicKey : RippleAddress)
| DoRemove (slot : Slot)
| DoChildDtor (child : child_ptr)
| DoTimer (ec : error_code)
| DoSendEndpoints
| DoAutoConnect
| DoFind (id : id_t)
| DoGetActivePeers
| EnvExpire (child : child_ptr)
| EnvStopping.

Definition run_step (env : Env.t) (st : Step) : M unit :=
  match st with
  | DoStart => onStart
  | DoStop => onStop
  | DoChildrenStopped => modify (set_areChildrenStopped true) ;; onChildrenStopped
  | DoConnect r => connect env r
  | DoLegacyPeerHello b buffer r => onLegacyPeerHello env b buffer r
  | DoHandoff b request r => onHandoff env b request r ;; ret tt
  | DoActivate peer => activate env peer
  | DoDeactivate id publicKey => onPeerDeactivate id publicKey
  | DoRemove slot => remove slot
  | DoChildDtor child => Child_dtor child
  | DoTimer ec => Timer_on_timer env ec
  | DoSendEndpoints => sendEndpoints env
  | DoAutoConnect => autoConnect env
  | DoFind id => findPeerByShortID id ;; ret tt
  | DoGetActivePeers => getActivePeers ;; ret tt
  | EnvExpire child => expire child
  | EnvStopping => modify (set_isStopping true)
  end.

Definition run_steps (env : Env.t) (steps : list Step) : M unit :=
  for_each steps (run_step env).

(** The steps that index or unindex a peer. *)
Definition indexes_peers (st : Step) : bool :=
  match st with
  | DoActivate _ | DoDeactivate _ _ => true
  | _ => false
  end.

(** A computation keeps a relation between the state it starts in and the
    state it ends in, run to its end or aborted. *)
Definition keeps (R : OverlayImpl.t -> OverlayImpl.t -> Prop) {A} (c : M A) : Prop :=
  forall s, R s (final (c s)).

Definition same_indexes (s s' : OverlayImpl.t) : Prop :=
  m_shortIdMap s' = m_shortIdMap s /\ m_publicKeyMap s' = m_publicKeyMap s.

(** The work token, once cleared, stays cleared. *)
Definition stays_cleared (s s' : OverlayImpl.t) : Prop :=
  work_ s = None -> work_ s' = None.

(** Every entry of [list_] is a child's address with the weak reference to
    that child. *)
Definition list_self (s : OverlayImpl.t) : Prop :=
  forall k w, list_ s !! k = Some w -> w = k.

Definition keeps_list_self (s s' : OverlayImpl.t) : Prop :=
  list_self s -> list_self s'.

(** The manager, once stopping, stays stopping. *)
Definition stays_stopping (s s' : OverlayImpl.t) : Prop :=
  isStopping s = true -> isStopping s' = true.

(** The ids of the peers constructed, in the order of their construction. *)
Definition made_ids (h : list Event) : list N :=
  omap (fun e => match e with EvMakePeer p => Some (PeerImp.id p) | _ => None end) h.

Definition makes_no_peer (e : Event) : bool :=
  match e with EvMakePeer _ => false | _ => true end.

(** The id of the [i]-th peer constructed: 1, 2, ..., 4294967295, 0, 1, ... *)
Definition nth_id (i : nat) : id_t := (N.of_nat i mod 2 ^ id_bits)%N.

(** The ids handed out so far are those of the first, the second, ... peer,
    and [next_id_] is that of the next. *)
Definition ids_in_order (s : OverlayImpl.t) : Prop :=
  exists k : nat,
    next_id_ s = nth_id (S k) /\ made_ids (log s) = nth_id <$> seq 1 k.

Definition keeps_ids (s s' : OverlayImpl.t) : Prop :=
  ids_in_order s -> ids_in_order s'.

(** How many times the manager has reported itself stopped. *)
Definition is_stopped_event (e : Event) : bool :=
  match e with EvStopped => true | _ => false end.

Definition reported (s : OverlayImpl.t) : nat :=
  length (List.filter is_stopped_event (log s)).

Definition reports_nothing (s s' : OverlayImpl.t) : Prop := reported s' = reported s.

(** The steps at which the manager looks whether it has stopped. *)
Definition may_report (st : Step) : bool :=
  match st with
  | DoChildrenStopped | DoChildDtor _ => true
  | _ => false
  end.

(** The slot requests among some calls. *)
Definition is_slot_request (e : Event) : bool :=
  match e with EvNewOutboundSlot _ => true | _ => false end.

(** The state after the children at [children] have gone, one destructor
    after the other. *)
Definition destroy (children : list child_ptr) : M unit :=
  for_each children Child_dtor.

(** A run through most of the steps. *)
Definition busy_day : list Step :=
  [DoStart; DoConnect (Sample.ep 3 51235);
   DoLegacyPeerHello 1 [22%N] (Sample.ep 2 40000);
   DoHandoff 2 (Sample.upgrade_request "peer") (Sample.ep 2 40001);
   DoTimer 0; EnvExpire 2; DoChildDtor 2; DoRemove 2; EnvStopping; DoStop].

(** The manager reports itself stopped when it is stopping and its
    Stoppable children are. *)
Definition reports (s : OverlayImpl.t) : bool := isStopping s && areChildrenStopped s.

(** [list_] after the children at [children] have been taken off it. *)
Definition without (children : list child_ptr) (m : gmap positive positive)
  : gmap positive positive :=
  foldl (fun m k => delete k m) m children.

(** A manager with its timer (at 1) and two outbound peers (at 2 and 3),
    told to stop. *)
Definition winding_down : OverlayImpl.t :=
  final (run_steps Sample.env
           [DoStart; DoConnect (Sample.ep 3 51235); DoConnect (Sample.ep 2 51235);
            EnvStopping; DoStop] init).

(** * Properties *)

Ltac run := unfold bind, gets, modify, assert, ret, call; simpl.

(** ** The registry: activation and deactivation *)

Lemma emplace_fresh `{Countable K} {V} (k : K) (v : V) (m : gmap K V) :
  m !! k = None -> emplace k v m = (<[k := v]> m, true).
Proof. intros E. unfold emplace. by rewrite E. Qed.

Lemma emplace_present `{Countable K} {V} (k : K) (v w : V) (m : gmap K V) :
  m !! k = Some w -> emplace k v m = (m, false).
Proof. intros E. unfold emplace. by rewrite E. Qed.

Lemma emplace_keeps `{Countable K} {V} (k k' : K) (v w : V) (m : gmap K V) :
  m !! k' = Some w -> (emplace k v m).1 !! k' = Some w.
Proof.
  intros E. unfold emplace. destruct (m !! k) eqn:Ek; simpl; [done|].
  destruct (decide (k = k')) as [->|Hne]; [congruence|].
  by rewrite lookup_insert_ne.
Qed.

(** What [activate] does, case by case. *)
Lemma activate_cases env peer s :
  activate env peer s =
    match m_shortIdMap s !! PeerImp.id peer with
    | Some _ => Abort assert_activate_id s
    | None =>
        let s1 := set_m_shortIdMap (<[PeerImp.id peer := PeerImp.get peer]> (m_shortIdMap s)) s in
        match m_publicKeyMap s !! PeerImp.getNodePublic peer with
        | Some _ => Abort assert_activate_key s1
        | None =>
            Ok tt (final (journal env Debug
                     (set_m_publicKeyMap
                        (<[PeerImp.getNodePublic peer := PeerImp.get peer]> (m_publicKeyMap s)) s1)))
        end
    end.
Proof.
  unfold activate, size, emplace. run.
  destruct (m_shortIdMap s !! PeerImp.id peer) eqn:E1; simpl.
  { by destruct s. }
  destruct (m_publicKeyMap s !! PeerImp.getNodePublic peer) eqn:E2; simpl; [done|].
  unfold journal. destruct (Env.journal_active env Debug); run.
  all: rewrite map_size_insert_None by done; done.
Qed.

Lemma journal_maps env sev s :
  exists s', journal env sev s = Ok tt s'
    /\ m_shortIdMap s' = m_shortIdMap s /\ m_publicKeyMap s' = m_publicKeyMap s
    /\ m_peers s' = m_peers s /\ list_ s' = list_ s /\ work_ s' = work_ s
    /\ next_id_ s' = next_id_ s /\ heap s' = heap s.
Proof.
  unfold journal. destruct (Env.journal_active env sev); run; eauto 10.
Qed.

Lemma activate_ok env peer s s' :
  activate env peer s = Ok tt s' ->
  m_shortIdMap s !! PeerImp.id peer = None
  /\ m_publicKeyMap s !! PeerImp.getNodePublic peer = None
  /\ m_shortIdMap s' = <[PeerImp.id peer := PeerImp.get peer]> (m_shortIdMap s)
  /\ m_publicKeyMap s' = <[PeerImp.getNodePublic peer := PeerImp.get peer]> (m_publicKeyMap s)
  /\ m_peers s' = m_peers s.
Proof.
  rewrite activate_cases.
  destruct (m_shortIdMap s !! PeerImp.id peer); [done|].
  destruct (m_publicKeyMap s !! PeerImp.getNodePublic peer); [done|].
  simpl. intros [= <-].
  match goal with |- context [journal env Debug ?x] =>
    destruct (journal_maps env Debug x) as (s2 & -> & E1 & E2 & E3 & _) end.
  simpl. rewrite E1, E2, E3. done.
Qed.

Lemma onPeerDeactivate_ok id publicKey s :
  onPeerDeactivate id publicKey s =
    Ok tt (set_m_publicKeyMap (delete publicKey (m_publicKeyMap s))
             (set_m_shortIdMap (delete id (m_shortIdMap s)) s)).
Proof. reflexivity. Qed.

Lemma tracks_init : tracks [] init.
Proof. split; simpl; try constructor; done. Qed.

Lemma tracks_lookup_id act s i :
  tracks act s -> m_shortIdMap s !! i = None <-> i ∉ PeerImp.id <$> act.
Proof.
  intros T. rewrite (tracks_shortId _ _ T), <- not_elem_of_list_to_map.
  by rewrite <- list_fmap_compose.
Qed.

Lemma tracks_lookup_key act s k :
  tracks act s -> m_publicKeyMap s !! k = None <-> k ∉ PeerImp.getNodePublic <$> act.
Proof.
  intros T. rewrite (tracks_publicKey _ _ T), <- not_elem_of_list_to_map.
  by rewrite <- list_fmap_compose.
Qed.

Lemma tracks_activate env act peer s s' :
  tracks act s -> activate env peer s = Ok tt s' -> tracks (peer :: act) s'.
Proof.
  intros T (Hi & Hk & Ei & Ek & _)%activate_ok.
  split; simpl.
  - constructor; [by apply (tracks_lookup_id act s)|apply T].
  - constructor; [by apply (tracks_lookup_key act s)|apply T].
  - by rewrite Ei, (tracks_shortId _ _ T).
  - by rewrite Ek, (tracks_publicKey _ _ T).
Qed.

(** Erasing a key from an index built from a list is building the index
    from the list without the entries of that key. *)
Lemma delete_list_to_map `{Countable K} {V} (f : PeerImp.t -> K * V)
    (keep : PeerImp.t -> bool) (k : K) (act : list PeerImp.t) :
  (forall q, q ∈ act -> keep q = false <-> (f q).1 = k) ->
  delete k (list_to_map (f <$> act) : gmap K V) = list_to_map (f <$> List.filter keep act).
Proof.
  induction act as [|q act IH]; intros Hk; simpl.
  - apply delete_empty.
  - assert (Hq := Hk q (list_elem_of_here _ _)).
    assert (IH' : delete k (list_to_map (f <$> act) : gmap K V)
                  = list_to_map (f <$> List.filter keep act)).
    { apply IH. intros q' Hq'. apply Hk. by apply list_elem_of_further. }
    destruct (keep q) eqn:Eq; simpl.
    + rewrite delete_insert_ne; [f_equal; exact IH'|].
      intros E. symmetry in E. apply Hq in E. congruence.
    + destruct Hq as [Hq _]. rewrite <- (Hq eq_refl) at 1.
      rewrite delete_insert_eq. rewrite (Hq eq_refl). exact IH'.
Qed.

Lemma NoDup_fmap_filter {B} (f : PeerImp.t -> B) keep (act : list PeerImp.t) :
  NoDup (f <$> act) -> NoDup (f <$> List.filter keep act).
Proof.
  induction act as [|q act IH]; simpl; [done|].
  intros [Hq Hact]%NoDup_cons. destruct (keep q); simpl; [|by apply IH].
  apply NoDup_cons. split; [|by apply IH].
  intros (q' & E & Hin)%list_elem_of_fmap. apply Hq.
  apply list_elem_of_fmap. exists q'. split; [done|].
  apply list_elem_of_In. apply list_elem_of_In, filter_In in Hin. tauto.
Qed.

Lemma NoDup_fmap_eq {B} (f : PeerImp.t -> B) (act : list PeerImp.t) q q0 :
  NoDup (f <$> act) -> q ∈ act -> q0 ∈ act -> f q = f q0 -> q = q0.
Proof.
  induction act as [|x act IH]; simpl; [by intros _ ?%elem_of_nil|].
  intros [Hx Hact]%NoDup_cons [->|Hq]%elem_of_cons [->|Hq0]%elem_of_cons E; auto.
  - exfalso. apply Hx. rewrite E. by apply list_elem_of_fmap_2.
  - exfalso. apply Hx. rewrite <- E. by apply list_elem_of_fmap_2.
Qed.

Lemma tracks_deactivate act id publicKey s s' :
  tracks act s ->
  paired act (OpDeactivate id publicKey) = true ->
  onPeerDeactivate id publicKey s = Ok tt s' ->
  tracks (track act (OpDeactivate id publicKey)) s'.
Proof.
  intros T P. rewrite onPeerDeactivate_ok. intros [= <-]. simpl in *.
  assert (Hkey : forall q, q ∈ act ->
            negb (PeerImp.id q =? id)%N = false <-> PeerImp.getNodePublic q = publicKey).
  { intros q Hq. rewrite negb_false_iff, N.eqb_eq.
    apply orb_true_iff in P as [P|P].
    - apply existsb_exists in P as (q0 & Hq0 & [E1 E2]%andb_true_iff).
      apply N.eqb_eq in E1. apply String.eqb_eq in E2.
      apply list_elem_of_In in Hq0. split; intros E.
      + assert (q = q0) as ->; [|done].
        eapply (NoDup_fmap_eq PeerImp.id); eauto using tracks_ids. congruence.
      + assert (q = q0) as ->; [|done].
        eapply (NoDup_fmap_eq PeerImp.getNodePublic); eauto using tracks_keys.
        congruence.
    - rewrite forallb_forall in P. apply list_elem_of_In, P in Hq.
      apply andb_true_iff in Hq as [H1 H2].
      apply negb_true_iff, N.eqb_neq in H1.
      apply negb_true_iff, String.eqb_neq in H2. split; congruence. }
  split; simpl.
  - apply NoDup_fmap_filter, T.
  - apply NoDup_fmap_filter, T.
  - rewrite (tracks_shortId _ _ T). apply delete_list_to_map.
    intros q _. simpl. by rewrite negb_false_iff, N.eqb_eq.
  - rewrite (tracks_publicKey _ _ T). apply delete_list_to_map. exact Hkey.
Qed.

Lemma add_cases peer s :
  add peer s =
    match m_peers s !! PeerImp.slot peer with
    | Some _ => Abort assert_add_slot s
    | None =>
        Ok tt (set_list_ (emplace (PeerImp.get peer) (PeerImp.get peer) (list_ s)).1
                 (set_m_peers (<[PeerImp.slot peer := PeerImp.get peer]> (m_peers s)) s))
    end.
Proof.
  unfold add, emplace. run.
  destruct (m_peers s !! PeerImp.slot peer); simpl; [by destruct s|done].
Qed.

Lemma remove_cases slot s :
  remove slot s =
    match m_peers s !! slot with
    | Some _ => Ok tt (set_m_peers (delete slot (m_peers s)) s)
    | None => Abort assert_remove_found s
    end.
Proof.
  unfold remove. run. destruct (m_peers s !! slot); simpl; done.
Qed.

(** [add] and [remove] leave the two indexes of the activated peers alone. *)
Lemma tracks_add act peer s : tracks act s -> tracks act (final (add peer s)).
Proof.
  intros [? ? ? ?]. rewrite add_cases.
  destruct (m_peers s !! PeerImp.slot peer); by split.
Qed.

Lemma tracks_remove act slot s : tracks act s -> tracks act (final (remove slot s)).
Proof.
  intros [? ? ? ?]. rewrite remove_cases.
  destruct (m_peers s !! slot); by split.
Qed.

Lemma for_each_cons {A} (x : A) l body s :
  for_each (x :: l) body s =
    match body x s with
    | Ok _ s' => for_each l body s'
    | Abort site s' => Abort site s'
    end.
Proof. reflexivity. Qed.

Lemma tracks_run env ops : forall act s s',
  tracks act s -> all_paired act ops = true ->
  run_ops env ops s = Ok tt s' ->
  tracks (fold_left track ops act) s'.
Proof.
  induction ops as [|op ops IH]; intros act s s' T P.
  - by intros [= <-].
  - simpl in P. apply andb_true_iff in P as [P1 P2].
    unfold run_ops. rewrite for_each_cons.
    destruct (run_op env op s) as [[] s1|] eqn:E1; [|done].
    intros E. simpl. apply (IH _ s1); [|done|done].
    destruct op as [peer|slot|peer|id publicKey]; simpl in E1 |- *.
    + apply (tracks_add _ peer) in T. by rewrite E1 in T.
    + apply (tracks_remove _ slot) in T. by rewrite E1 in T.
    + by eapply tracks_activate.
    + by eapply (tracks_deactivate act id publicKey).
Qed.

Lemma tracks_sizes act s :
  tracks act s ->
  base.size (m_shortIdMap s) = length act /\ base.size (m_publicKeyMap s) = length act.
Proof.
  intros [H1 H2 E1 E2]. rewrite E1, E2. split.
  - rewrite map_size_list_to_map; [by rewrite length_fmap|].
    by rewrite <- list_fmap_compose.
  - rewrite map_size_list_to_map; [by rewrite length_fmap|].
    by rewrite <- list_fmap_compose.
Qed.

Lemma tracks_entries act s q :
  tracks act s -> q ∈ act ->
  m_shortIdMap s !! PeerImp.id q = Some (PeerImp.get q)
  /\ m_publicKeyMap s !! PeerImp.getNodePublic q = Some (PeerImp.get q).
Proof.
  intros [H1 H2 E1 E2] Hq. rewrite E1, E2. split.
  - apply elem_of_list_to_map; [by rewrite <- list_fmap_compose|].
    by apply (list_elem_of_fmap_2 by_id).
  - apply elem_of_list_to_map; [by rewrite <- list_fmap_compose|].
    by apply (list_elem_of_fmap_2 by_key).
Qed.

Lemma tracks_same_peers act s : tracks act s -> same_peers s.
Proof.
  intros T a. destruct T as [H1 H2 E1 E2]. rewrite E1, E2. split.
  - intros (i & Hi). apply elem_of_list_to_map in Hi; [|by rewrite <- list_fmap_compose].
    apply list_elem_of_fmap in Hi as (q & [= -> ->] & Hq).
    exists (PeerImp.getNodePublic q).
    apply elem_of_list_to_map; [by rewrite <- list_fmap_compose|].
    by apply (list_elem_of_fmap_2 by_key).
  - intros (k & Hk). apply elem_of_list_to_map in Hk; [|by rewrite <- list_fmap_compose].
    apply list_elem_of_fmap in Hk as (q & [= -> ->] & Hq).
    exists (PeerImp.id q).
    apply elem_of_list_to_map; [by rewrite <- list_fmap_compose|].
    by apply (list_elem_of_fmap_2 by_id).
Qed.

Lemma activate_size env peer s s' :
  activate env peer s = Ok tt s' -> size_of s' = S (size_of s).
Proof.
  intros (_ & Hk & _ & Ek & _)%activate_ok. unfold size_of.
  rewrite Ek. by apply map_size_insert_None.
Qed.

Lemma onPeerDeactivate_size id publicKey s :
  exists s', onPeerDeactivate id publicKey s = Ok tt s'
    /\ match m_publicKeyMap s !! publicKey with
       | Some _ => S (size_of s') = size_of s
       | None => size_of s' = size_of s
       end.
Proof.
  eexists. split; [apply onPeerDeactivate_ok|]. unfold size_of. simpl.
  destruct (m_publicKeyMap s !! publicKey) eqn:E.
  - rewrite map_size_delete, E.
    assert (base.size (m_publicKeyMap s) <> 0); [|lia].
    apply map_size_ne_0_lookup. eauto.
  - by rewrite delete_id.
Qed.

Lemma activate_fresh env peer s :
  m_shortIdMap s !! PeerImp.id peer = None ->
  m_publicKeyMap s !! PeerImp.getNodePublic peer = None ->
  exists s', activate env peer s = Ok tt s' /\ m_peers s' = m_peers s.
Proof.
  intros E1 E2. rewrite activate_cases, E1, E2.
  eexists. split; [done|].
  match goal with |- context [journal env Debug ?x] =>
    destruct (journal_maps env Debug x) as (s2 & -> & _ & _ & E3 & _) end.
  simpl. by rewrite E3.
Qed.

Lemma activate_collision env peer s :
  (is_Some (m_shortIdMap s !! PeerImp.id peer) ->
     activate env peer s = Abort assert_activate_id s)
  /\ (m_shortIdMap s !! PeerImp.id peer = None ->
      is_Some (m_publicKeyMap s !! PeerImp.getNodePublic peer) ->
      exists s', activate env peer s = Abort assert_activate_key s'
                 /\ m_publicKeyMap s' = m_publicKeyMap s).
Proof.
  rewrite activate_cases. split.
  - by intros [a ->].
  - intros -> [a ->]. by eexists.
Qed.

Lemma well_used_run env ops : forall act slots s,
  tracks act s -> dom (m_peers s) = slots ->
  all_well_used act slots ops = true ->
  (forall site s', run_ops env ops s = Abort site s' -> site = assert_add_slot)
  /\ exists act', tracks act' (final (run_ops env ops s))
       /\ (completes (run_ops env ops s) = true -> act' = fold_left track ops act).
Proof.
  induction ops as [|op ops IH]; intros act slots s T D W.
  - split; [done|]. by exists act.
  - simpl in W. apply andb_true_iff in W as [W1 W2].
    unfold run_ops. rewrite for_each_cons. fold (run_ops env ops).
    destruct op as [peer|slot|peer|id publicKey]; simpl in W1, W2; cbn [run_op fold_left track].
    + rewrite add_cases. destruct (m_peers s !! PeerImp.slot peer) eqn:E.
      * split; [by intros ? ? [= <- <-]|]. by exists act.
      * eapply IH; [| reflexivity |].
        -- destruct T; by split.
        -- simpl. by rewrite dom_insert_L, D.
    + rewrite remove_cases. apply bool_decide_eq_true in W1.
      rewrite <- D in W1. apply elem_of_dom in W1 as [a ->].
      eapply IH; [| reflexivity |].
      * destruct T; by split.
      * simpl. by rewrite dom_delete_L, D.
    + rewrite forallb_forall in W1.
      destruct (activate_fresh env peer s) as (s1 & E & Ep).
      * apply (tracks_lookup_id act s _ T).
        intros (q & Eq & Hq)%list_elem_of_fmap.
        apply list_elem_of_In, W1, andb_true_iff in Hq as [Hq _].
        apply negb_true_iff, N.eqb_neq in Hq. congruence.
      * apply (tracks_lookup_key act s _ T).
        intros (q & Eq & Hq)%list_elem_of_fmap.
        apply list_elem_of_In, W1, andb_true_iff in Hq as [_ Hq].
        apply negb_true_iff, String.eqb_neq in Hq. congruence.
      * rewrite E. eapply IH; [| |exact W2].
        -- by eapply tracks_activate.
        -- by rewrite Ep.
    + rewrite onPeerDeactivate_ok. eapply IH; [| |exact W2].
      * by eapply (tracks_deactivate act id publicKey s).
      * done.
Qed.

Module Registry.

(** C1 (as amended).  [size()] returns the size of [m_publicKeyMap] whatever
    [m_peers] holds; it is 0 on construction, grows by exactly one with every
    [activate] that passes its assertions, shrinks by exactly one with a
    deactivation whose key is present and stays as it is with one whose key
    is absent.  After every sequence of add, remove, activate and deactivate
    calls that trips no assertion and in which each deactivation is called
    with the id and the key of one peer, the id index and the key index hold
    entries for exactly the same peers and have the same size. *)
Theorem size_and_indexes (env : Env.t) (ops : list RegistryOp) (s : OverlayImpl.t) :
  all_paired [] ops = true ->
  run_ops env ops init = Ok tt s ->
  size_of init = 0
  /\ size s = Ok (base.size (m_publicKeyMap s)) s
  /\ (forall v, size (set_m_peers v s) = Ok (base.size (m_publicKeyMap s)) (set_m_peers v s))
  /\ same_peers s
  /\ base.size (m_shortIdMap s) = base.size (m_publicKeyMap s)
  /\ size_of s = length (fold_left track ops [])
  /\ (forall peer s', activate env peer s = Ok tt s' -> size_of s' = S (size_of s))
  /\ (forall id publicKey, exists s',
        onPeerDeactivate id publicKey s = Ok tt s'
        /\ match m_publicKeyMap s !! publicKey with
           | Some _ => S (size_of s') = size_of s
           | None => size_of s' = size_of s
           end).
Proof.
  intros P R.
  pose proof (tracks_run env ops [] init s tracks_init P R) as T.
  destruct (tracks_sizes _ _ T) as [S1 S2].
  split; [done|]. split; [done|]. split; [done|].
  split; [by eapply tracks_same_peers|].
  split; [congruence|]. split; [done|].
  split; [intros peer s'; apply activate_size|].
  intros id publicKey. apply onPeerDeactivate_size.
Qed.

Lemma size_and_indexes_witness :
  all_paired [] sample_ops = true
  /\ exists s, run_ops Sample.env sample_ops init = Ok tt s
     /\ same_peers s /\ size_of s = 1.
Proof.
  split; [reflexivity|].
  eexists. split; [vm_compute; reflexivity|].
  match goal with |- same_peers ?s /\ _ =>
    pose proof (size_and_indexes Sample.env sample_ops s eq_refl) as H end.
  destruct H as (_ & _ & _ & H1 & _ & H2 & _); [vm_compute; reflexivity|].
  split; [exact H1|exact H2].
Defined.

(** C1, as it is worded, fails twice.  A peer deactivated a second time
    leaves [size()] where it was: it does not shrink by one with every
    deactivation.  And a deactivation called with the id of one active peer
    and the key of another leaves the two indexes with different peers. *)
Lemma size_and_indexes_counterexample :
  (exists s s',
      run_ops Sample.env [OpActivate (sample_peer 1 1 10 "nA"); OpDeactivate 1 "nA"] init = Ok tt s
      /\ onPeerDeactivate 1 "nA" s = Ok tt s'
      /\ S (size_of s') <> size_of s)
  /\ (exists s,
      run_ops Sample.env [OpActivate (sample_peer 1 1 10 "nA"); OpActivate (sample_peer 2 2 20 "nB");
                          OpDeactivate 1 "nB"] init = Ok tt s
      /\ ~ same_peers s).
Proof.
  split.
  - eexists _, _. split; [vm_compute; reflexivity|].
    split; [vm_compute; reflexivity|]. vm_compute. lia.
  - eexists. split; [vm_compute; reflexivity|].
    intros H. destruct (H 2%positive) as [H1 _].
    destruct H1 as (k & Hk).
    + exists 2%N. reflexivity.
    + destruct (decide (k = "nA")) as [->|Hne]; [vm_compute in Hk; discriminate|].
      revert Hk. change (({[ "nA" := 1%positive ]} : gmap string positive) !! k = Some 2%positive -> False).
      rewrite lookup_singleton_ne by done. discriminate.
Qed.

(** C6.  [activate] aborts at its assertion when the peer's id or its key
    is already indexed, and the entry that was there is not overwritten;
    [remove(slot)] aborts at its assertion when the slot is not in [m_peers]
    and erases it otherwise.  When the callers keep their side (a peer is
    activated under an id and a key no active peer has, a slot is removed
    only while it is added, a deactivation comes with the peer's own id and
    key), no run reaches an assertion of [activate] or of [remove], and the
    indexes are those of a list of active peers no two of which have the
    same public key. *)
Theorem assertions_guard_the_indexes (env : Env.t) (ops : list RegistryOp) :
  all_well_used [] ∅ ops = true ->
  (forall peer s, is_Some (m_shortIdMap s !! PeerImp.id peer) ->
     activate env peer s = Abort assert_activate_id s)
  /\ (forall peer s, m_shortIdMap s !! PeerImp.id peer = None ->
       is_Some (m_publicKeyMap s !! PeerImp.getNodePublic peer) ->
       exists s', activate env peer s = Abort assert_activate_key s'
                  /\ m_publicKeyMap s' = m_publicKeyMap s)
  /\ (forall slot s, m_peers s !! slot = None ->
       remove slot s = Abort assert_remove_found s)
  /\ (forall slot s, is_Some (m_peers s !! slot) ->
       remove slot s = Ok tt (set_m_peers (delete slot (m_peers s)) s))
  /\ (forall site s', run_ops env ops init = Abort site s' ->
       site <> assert_activate_id /\ site <> assert_activate_key
       /\ site <> assert_activate_size /\ site <> assert_remove_found)
  /\ exists act,
       tracks act (final (run_ops env ops init))
       /\ (completes (run_ops env ops init) = true -> act = fold_left track ops [])
       /\ (forall q, q ∈ act ->
             m_shortIdMap (final (run_ops env ops init)) !! PeerImp.id q = Some (PeerImp.get q)
             /\ m_publicKeyMap (final (run_ops env ops init)) !! PeerImp.getNodePublic q
                = Some (PeerImp.get q))
       /\ (forall q1 q2, q1 ∈ act -> q2 ∈ act ->
             PeerImp.getNodePublic q1 = PeerImp.getNodePublic q2 -> q1 = q2).
Proof.
  intros W.
  split; [intros peer s; apply activate_collision|].
  split; [intros peer s; apply activate_collision|].
  split; [intros slot s E; by rewrite remove_cases, E|].
  split; [intros slot s [a E]; by rewrite remove_cases, E|].
  destruct (well_used_run env ops [] ∅ init tracks_init) as [A (act & T & C)]; [done..|].
  split.
  - intros site s' E. rewrite (A site s' E). repeat split; discriminate.
  - exists act. split; [done|]. split; [done|]. split.
    + intros q Hq. by eapply tracks_entries.
    + intros q1 q2 H1 H2 E.
      eapply (NoDup_fmap_eq PeerImp.getNodePublic); eauto using tracks_keys.
Qed.

Lemma assertions_guard_the_indexes_witness :
  all_well_used [] ∅ sample_ops = true
  /\ completes (run_ops Sample.env sample_ops init) = true
  /\ forall site s', run_ops Sample.env sample_ops init = Abort site s' ->
       site <> assert_activate_id /\ site <> assert_activate_key
       /\ site <> assert_activate_size /\ site <> assert_remove_found.
Proof.
  split; [vm_compute; reflexivity|]. split; [vm_compute; reflexivity|].
  apply (assertions_guard_the_indexes Sample.env sample_ops). vm_compute; reflexivity.
Defined.

End Registry.

(** ** The negotiator *)

Lemma journal_run env sev s :
  journal env sev s = Ok tt (set_log (log s ++ journal_log env sev) s).
Proof.
  unfold journal, journal_log. destruct (Env.journal_active env sev); run; [done|].
  rewrite app_nil_r. by destruct s.
Qed.

Lemma bind_journal {A} env sev (k : unit -> M A) s :
  bind (journal env sev) k s = k tt (set_log (log s ++ journal_log env sev) s).
Proof. unfold bind. by rewrite journal_run. Qed.

Lemma bind_ask {A B} (answer : list Event -> A) e (k : A -> M B) s :
  bind (ask answer e) k s = k (answer (log s)) (set_log (log s ++ [e]) s).
Proof. reflexivity. Qed.

Lemma isPeerUpgrade_false env request :
  isPeerUpgrade env request = false <->
  Http.upgrade request = false
  \/ Env.parse_ProtocolVersions env (Http.headers_get (Http.headers request) "Upgrade") = []
  \/ (Http.request request = false /\ Http.status request <> 101%N).
Proof.
  unfold isPeerUpgrade.
  destruct (Http.upgrade request); simpl; [|tauto].
  destruct (Env.parse_ProtocolVersions env _) as [|v vs]; simpl; [tauto|].
  destruct (Http.request request); simpl.
  - split; [done|]. intros [?|[?|[? _]]]; done.
  - destruct (N.eqb_spec (Http.status request) 101); simpl.
    + split; [done|]. intros [?|[?|[_ ?]]]; done.
    + tauto.
Qed.

Lemma fold_append_ip env candidates : forall acc,
  fold_left (append_ip env) candidates (Json.objectValue [("peer-ips", Json.arrayValue acc)])
  = Json.objectValue
      [("peer-ips",
        Json.arrayValue
          (acc ++ map (fun e => Json.stringValue (Env.to_string env (address e))) candidates))].
Proof.
  induction candidates as [|e candidates IH]; intros acc; simpl.
  - by rewrite app_nil_r.
  - rewrite IH, <- app_assoc. reflexivity.
Qed.

Lemma makeRedirectResponse_run env slot request remote_address s :
  makeRedirectResponse env slot request remote_address s =
    Ok (Http.make_JsonWriter (redirect_message env request remote_address)
          (peer_ips env (Env.redirect env (log s ++ [EvRedirect slot]) slot)))
       (set_log (log s ++ [EvRedirect slot; EvRedirect slot]) s).
Proof.
  unfold makeRedirectResponse. rewrite !bind_ask. unfold ret. simpl.
  change (Json.objectValue [("peer-ips", Json.arrayValue [])])
    with (Json.objectValue [("peer-ips", Json.arrayValue ([] : list Json.Value))]).
  rewrite fold_append_ip. simpl. unfold peer_ips. rewrite <- app_assoc. reflexivity.
Qed.

(** *** [onHandoff] up to the slot request *)

Lemma onHandoff_to_slot env ssl_bundle remote_endpoint s request :
  reaches_slot env ssl_bundle remote_endpoint s request = true ->
  onHandoff env ssl_bundle request remote_endpoint s =
    match the_slot env ssl_bundle remote_endpoint s with
    | None => ret Handoff.default
    | Some slot => onHandoff_with_slot env ssl_bundle remote_endpoint request slot
    end (set_log (log_slot env ssl_bundle remote_endpoint s) s).
Proof.
  unfold reaches_slot. intros [[Hup Hec]%andb_true_iff Hd%negb_true_iff]%andb_true_iff.
  unfold onHandoff. rewrite Hup. cbn [negb].
  rewrite bind_journal, bind_ask. cbn [log set_log].
  fold (log_upgrade env s). fold (the_local_endpoint env ssl_bundle s).
  fold (log_local env ssl_bundle s).
  destruct (the_local_endpoint env ssl_bundle s) as [ec local_endpoint] eqn:El.
  cbn [fst snd] in *. rewrite Hec. cbn [negb].
  rewrite bind_ask. cbn [log set_log].
  fold (the_consumer env ssl_bundle remote_endpoint s).
  fold (log_consumer env ssl_bundle remote_endpoint s).
  rewrite bind_ask. cbn [log set_log].
  fold (the_disconnect env ssl_bundle remote_endpoint s). rewrite Hd.
  fold (log_disconnect env ssl_bundle remote_endpoint s).
  rewrite bind_ask. cbn [log set_log].
  unfold the_slot, log_slot. rewrite El. cbn [snd].
  destruct (Env.new_inbound_slot env (log_disconnect env ssl_bundle remote_endpoint s)
              local_endpoint remote_endpoint);
    reflexivity.
Qed.

(** [onHandoff] before the slot request: the returns that never ask for
    one. *)
Lemma onHandoff_before_slot env ssl_bundle remote_endpoint s request :
  reaches_slot env ssl_bundle remote_endpoint s request = false ->
  exists s', onHandoff env ssl_bundle request remote_endpoint s
             = Ok {| Handoff.moved := isPeerUpgrade env request;
                     Handoff.keep_alive := false; Handoff.response := None |} s'
    /\ m_peers s' = m_peers s /\ m_shortIdMap s' = m_shortIdMap s
    /\ m_publicKeyMap s' = m_publicKeyMap s /\ list_ s' = list_ s
    /\ heap s' = heap s /\ next_id_ s' = next_id_ s /\ work_ s' = work_ s.
Proof.
  unfold reaches_slot. intros H. unfold onHandoff.
  destruct (isPeerUpgrade env request); cbn [negb andb] in *.
  2:{ eexists. split; [reflexivity|]. done. }
  rewrite bind_journal, bind_ask. cbn [log set_log].
  fold (log_upgrade env s). fold (the_local_endpoint env ssl_bundle s).
  fold (log_local env ssl_bundle s).
  destruct (the_local_endpoint env ssl_bundle s) as [ec local_endpoint] eqn:El.
  cbn [fst snd] in *.
  destruct (ec =? 0)%N; cbn [negb andb] in *.
  2:{ rewrite bind_journal. eexists. split; [reflexivity|]. done. }
  rewrite bind_ask. cbn [log set_log].
  fold (the_consumer env ssl_bundle remote_endpoint s).
  fold (log_consumer env ssl_bundle remote_endpoint s).
  rewrite bind_ask. cbn [log set_log].
  fold (the_disconnect env ssl_bundle remote_endpoint s).
  apply negb_false_iff in H. rewrite H.
  eexists. split; [reflexivity|]. done.
Qed.

(** *** Constructing and admitting a peer *)

Lemma make_PeerImp_run bundle buffer remote_endpoint publicKey slot inbound s :
  make_PeerImp bundle buffer remote_endpoint publicKey slot inbound s =
    let peer := new_peer bundle buffer remote_endpoint publicKey slot inbound s in
    Ok peer (set_log (log s ++ [EvMakePeer peer])
               (set_heap (<[new_address s := ChildPeer peer]> (heap s))
                  (set_next_id_ (next_id (next_id_ s)) s))).
Proof. reflexivity. Qed.

Lemma add_and_run_cases peer s :
  add_and_run peer s =
    match m_peers s !! PeerImp.slot peer with
    | Some _ => Abort assert_add_slot s
    | None => Ok tt (admitted peer s)
    end.
Proof.
  unfold add_and_run, bind. rewrite add_cases.
  destruct (m_peers s !! PeerImp.slot peer); reflexivity.
Qed.

(** The new peer's address is not yet a key of [list_]: the [emplace] into
    [list_] inserts. *)
Lemma new_address_fresh s :
  heap s !! new_address s = None /\ list_ s !! new_address s = None.
Proof.
  unfold new_address.
  pose proof (is_fresh (referenced s)) as F. unfold referenced in F.
  split; apply not_elem_of_dom; set_solver.
Qed.

Lemma only_logged_registry added s s' :
  only_logged added s s' ->
  m_peers s' = m_peers s /\ m_shortIdMap s' = m_shortIdMap s
  /\ m_publicKeyMap s' = m_publicKeyMap s /\ list_ s' = list_ s
  /\ heap s' = heap s /\ next_id_ s' = next_id_ s /\ work_ s' = work_ s.
Proof. by intros ->. Qed.

(** *** [onHandoff] once it has a slot: the four ways it ends *)

Ltac norm_state :=
  cbn [log set_log set_heap set_next_id_ set_m_peers set_list_ set_work_
       work_ m_peers m_shortIdMap m_publicKeyMap list_ timer_ next_id_
       isStopping areChildrenStopped heap];
  rewrite <- ?app_assoc; cbn [app].

Lemma set_log_set_log v w s : set_log v (set_log w s) = set_log v s.
Proof. reflexivity. Qed.

Lemma onHandoff_with_slot_ends env ssl_bundle remote_endpoint request slot s :
  with_slot_outcome env ssl_bundle remote_endpoint request slot s
    (onHandoff_with_slot env ssl_bundle remote_endpoint request slot s).
Proof.
  unfold onHandoff_with_slot.
  destruct (connect_as_peer env request) eqn:C; cbn [negb].
  2:{ unfold bind. rewrite makeRedirectResponse_run. unfold ret, redirected.
      apply (was_redirected _ _ _ _ _ _ []). reflexivity. }
  rewrite bind_ask.
  destruct (Env.parseHello env (log s) request) as [hello [|]]; cbn [negb].
  2:{ apply (handshake_failed _ _ _ _ _ _ [EvParseHello]); done. }
  rewrite bind_ask. norm_state.
  destruct (Env.makeSharedValue env _ ssl_bundle) as [sharedValue [|]]; cbn [negb].
  2:{ unfold ret. rewrite set_log_set_log. norm_state.
      apply (handshake_failed _ _ _ _ _ _ [EvParseHello; EvMakeSharedValue ssl_bundle]); done. }
  rewrite bind_ask. norm_state.
  destruct (Env.verifyHello env _ hello sharedValue) as [publicKey [|]]; cbn [negb].
  2:{ unfold ret. rewrite !set_log_set_log. norm_state.
      apply (handshake_failed _ _ _ _ _ _
               [EvParseHello; EvMakeSharedValue ssl_bundle; EvVerifyHello hello sharedValue]);
        done. }
  rewrite bind_ask. norm_state. rewrite bind_ask. norm_state.
  set (clusterNode := Env.nodeInCluster env _ publicKey).
  set (s1 := set_log (log s ++ [EvParseHello; EvMakeSharedValue ssl_bundle;
                                EvVerifyHello hello sharedValue; EvNodeInCluster publicKey;
                                EvActivate slot publicKey clusterNode]) s).
  assert (Hredirect :
    (journal env Trace ;;
     let! response := makeRedirectResponse env slot request (address remote_endpoint) in
     ret (redirected response request)) s1
    = Ok {| Handoff.moved := false; Handoff.keep_alive := Http.keep_alive request;
            Handoff.response :=
              Some (Http.make_JsonWriter
                      (redirect_message env request (address remote_endpoint))
                      (peer_ips env
                         (Env.redirect env
                            (log s ++ ([EvParseHello; EvMakeSharedValue ssl_bundle;
                                        EvVerifyHello hello sharedValue;
                                        EvNodeInCluster publicKey;
                                        EvActivate slot publicKey clusterNode]
                                       ++ journal_log env Trace) ++ [EvRedirect slot])
                            slot))) |}
         (set_log (log s ++ ([EvParseHello; EvMakeSharedValue ssl_bundle;
                              EvVerifyHello hello sharedValue; EvNodeInCluster publicKey;
                              EvActivate slot publicKey clusterNode]
                             ++ journal_log env Trace)
                   ++ [EvRedirect slot; EvRedirect slot]) s)).
  { rewrite bind_journal. unfold bind. rewrite makeRedirectResponse_run.
    unfold ret, redirected, s1. norm_state. reflexivity. }
  assert (Hnopeer : forallb (fun e => negb (is_peer_event e))
            ([EvParseHello; EvMakeSharedValue ssl_bundle; EvVerifyHello hello sharedValue;
              EvNodeInCluster publicKey; EvActivate slot publicKey clusterNode]
             ++ journal_log env Trace) = true).
  { unfold journal_log. by destruct (Env.journal_active env Trace). }
  match goal with |- context [match ?r with PeerFinder.success => _ | _ => _ end] =>
    destruct r end.
  1,2: rewrite !set_log_set_log; fold s1; rewrite Hredirect;
       by apply was_redirected.
  rewrite !set_log_set_log. fold s1.
  unfold bind at 1. rewrite make_PeerImp_run. cbv zeta.
  unfold bind. rewrite add_and_run_cases. norm_state. cbn [new_peer PeerImp.slot].
  change (m_peers s1) with (m_peers s).
  destruct (m_peers s !! slot) eqn:E.
  - apply slot_in_use; eauto.
  - unfold ret.
    apply (was_admitted _ _ _ _ _ _ hello sharedValue publicKey clusterNode s1); done.
Qed.

Module Negotiator.

(** C2.  A request that declares no upgrade, or whose Upgrade header parses
    to no version, or that is a response with a status other than 101, is
    not handled: [onHandoff] returns the default [Handoff] ([moved] false,
    no response) and the state it was called in, call log included: no slot
    was asked for, no accounting token, nothing of the transport. *)
Theorem not_an_upgrade_passes_through (env : Env.t) (ssl_bundle : Transport)
    (request : Http.message) (remote_endpoint : Endpoint) (s : OverlayImpl.t) :
  Http.upgrade request = false
  \/ Env.parse_ProtocolVersions env (Http.headers_get (Http.headers request) "Upgrade") = []
  \/ (Http.request request = false /\ Http.status request <> 101%N) ->
  onHandoff env ssl_bundle request remote_endpoint s = Ok Handoff.default s
  /\ Handoff.moved Handoff.default = false
  /\ Handoff.response Handoff.default = None
  /\ Handoff.handled Handoff.default = false.
Proof.
  intros H%isPeerUpgrade_false. unfold onHandoff. rewrite H. done.
Qed.

Lemma not_an_upgrade_passes_through_witness :
  onHandoff Sample.env 1%positive Sample.plain_request (Sample.ep 2 40000) init
  = Ok Handoff.default init.
Proof.
  apply (not_an_upgrade_passes_through Sample.env 1%positive Sample.plain_request
           (Sample.ep 2 40000) init).
  left. reflexivity.
Defined.

(** C3 (as amended).  A peer upgrade that gets its slot (the local endpoint
    resolves, the accounting does not ask to disconnect, and the PeerFinder
    grants an inbound slot) and whose Connect-As values do
    not contain "peer" (whatever the case) is redirected: [onHandoff]
    returns [moved = false], the request's keep-alive, and a response whose
    message is a 503 "Service Unavailable" response of the request's version
    with a Remote-Address header of the caller's address appended, and whose
    body is the object with the one member "peer-ips", the array of the
    address strings of the PeerFinder's redirect list for that slot (the
    answer to the second of the two queries the function makes, in order). *)
Theorem redirect_when_not_peer (env : Env.t) (ssl_bundle : Transport)
    (request : Http.message) (remote_endpoint : Endpoint) (s : OverlayImpl.t) (slot : Slot) :
  isPeerUpgrade env request = true ->
  reaches_slot env ssl_bundle remote_endpoint s request = true ->
  the_slot env ssl_bundle remote_endpoint s = Some slot ->
  connect_as_peer env request = false ->
  let asked := log_slot env ssl_bundle remote_endpoint s ++ [EvRedirect slot] in
  let candidates := Env.redirect env asked slot in
  let m := {| Http.request := false; Http.status := 503;
              Http.reason := "Service Unavailable";
              Http.version := Http.version request;
              Http.headers := Http.headers (Env.message_default env)
                              ++ [("Remote-Address",
                                   Env.to_string env (address remote_endpoint))];
              Http.upgrade := Http.upgrade (Env.message_default env);
              Http.keep_alive := Http.keep_alive (Env.message_default env) |} in
  let body := Json.objectValue
                [("peer-ips",
                  Json.arrayValue
                    (map (fun e => Json.stringValue (Env.to_string env (address e)))
                         candidates))] in
  onHandoff env ssl_bundle request remote_endpoint s =
    Ok {| Handoff.moved := false;
          Handoff.keep_alive := Http.keep_alive request;
          Handoff.response := Some (Http.make_JsonWriter m body) |}
       (set_log (asked ++ [EvRedirect slot]) s).
Proof.
  intros _ R Sl C. cbv zeta.
  rewrite onHandoff_to_slot by done. rewrite Sl.
  unfold onHandoff_with_slot. rewrite C. cbn [negb].
  unfold bind. rewrite makeRedirectResponse_run. cbn [log set_log].
  unfold ret, redirected, redirect_message, peer_ips. rewrite <- app_assoc.
  by destruct s.
Qed.

Lemma redirect_when_not_peer_witness :
  exists s',
    onHandoff Sample.env 1%positive (Sample.upgrade_request "Rpc, Http")
      (Sample.ep 2 40000) init =
    Ok {| Handoff.moved := false;
          Handoff.keep_alive := true;
          Handoff.response :=
            Some (Http.make_JsonWriter
                    {| Http.request := false; Http.status := 503;
                       Http.reason := "Service Unavailable"; Http.version := (1, 1)%nat;
                       Http.headers := [("Remote-Address", "10.0.0.2")];
                       Http.upgrade := false; Http.keep_alive := false |}
                    (Json.objectValue
                       [("peer-ips",
                         Json.arrayValue [Json.stringValue "10.0.0.1";
                                          Json.stringValue "10.0.0.2"])])) |} s'.
Proof.
  eexists.
  apply (redirect_when_not_peer Sample.env 1%positive (Sample.upgrade_request "Rpc, Http")
           (Sample.ep 2 40000) init 2%positive); reflexivity.
Defined.

(** C3, as it was stated, fails: a peer upgrade whose Connect-As values do
    not contain "peer" gets no response at all when the PeerFinder gives no
    slot, when the local endpoint does not resolve, and when the accounting
    asks to disconnect. *)
Lemma redirect_when_not_peer_counterexample :
  isPeerUpgrade Sample.env (Sample.upgrade_request "rpc") = true
  /\ connect_as_peer Sample.env (Sample.upgrade_request "rpc") = false
  /\ (exists h s',
        onHandoff Sample.env 1%positive (Sample.upgrade_request "rpc") (Sample.ep 2 0) init
        = Ok h s'
        /\ Handoff.response h = None)
  /\ (exists h s',
        onHandoff Sample.env 9%positive (Sample.upgrade_request "rpc") (Sample.ep 2 40000) init
        = Ok h s'
        /\ Handoff.response h = None)
  /\ (exists h s',
        onHandoff Sample.env 1%positive (Sample.upgrade_request "rpc") (Sample.ep 66 40000) init
        = Ok h s'
        /\ Handoff.response h = None).
Proof.
  split; [reflexivity|]. split; [reflexivity|].
  split; [|split]; eexists _, _; (split; [vm_compute; reflexivity|reflexivity]).
Qed.







End Negotiator.

(** ** Shutdown *)

Lemma stop_loop (children : list (positive * positive)) : forall s,
  for_each children (fun e =>
    let! child := lock (snd e) in
    match child with
    | Some c => Child_stop (snd e) c
    | None => ret tt
    end) s
  = Ok tt (set_log
             (log s ++ ((fun wc : child_ptr * Child => stop_event wc.1 wc.2) <$>
                        omap (fun e : positive * positive =>
                                (fun c => (e.2, c)) <$> heap s !! e.2) children)) s).
Proof.
  induction children as [|e children IH]; intros s.
  - simpl. unfold ret. rewrite app_nil_r. by destruct s.
  - rewrite for_each_cons. unfold bind at 1, lock, gets. cbn [omap list_omap].
    destruct (heap s !! e.2) as [c|] eqn:E; cbn [fmap option_fmap option_map].
    + assert (Child_stop e.2 c s = Ok tt (set_log (log s ++ [stop_event e.2 c]) s)) as ->
        by (by destruct c).
      rewrite IH. cbn [log set_log heap]. rewrite fmap_cons, <- app_assoc. reflexivity.
    + unfold ret. apply IH.
Qed.

Lemma stop_cases s :
  stop s =
    match work_ s with
    | Some _ => Ok tt (set_log (log s ++ stop_signals s) (set_work_ None s))
    | None => Ok tt s
    end.
Proof.
  unfold stop. unfold bind at 1, gets. destruct (work_ s); [|reflexivity].
  unfold bind at 1, modify. unfold bind at 1, gets.
  rewrite stop_loop. reflexivity.
Qed.

Lemma elem_of_resolving s w c :
  (w, c) ∈ resolving s <-> (exists k, list_ s !! k = Some w) /\ heap s !! w = Some c.
Proof.
  unfold resolving. rewrite list_elem_of_omap. split.
  - intros ([k w'] & Hin & E). apply elem_of_map_to_list in Hin. simpl in E.
    destruct (heap s !! w') eqn:Eh; simplify_eq/=. eauto.
  - intros [[k Hk] Hc]. exists (k, w). split; [by apply elem_of_map_to_list|].
    simpl. by rewrite Hc.
Qed.

Lemma resolving_length s : length (resolving s) <= base.size (list_ s).
Proof.
  unfold resolving. rewrite <- length_map_to_list.
  induction (map_to_list (list_ s)) as [|e l IH]; simpl; [done|].
  destruct (heap s !! e.2); simpl; [apply le_n_S|apply le_S]; exact IH.
Qed.

(** *** [connect], case by case *)
Lemma connect_cases env remote_endpoint s :
  connect env remote_endpoint s =
    match work_ s with
    | None => Abort assert_work s
    | Some _ =>
        let s1 := set_log (log s ++ [EvNewOutboundSlot remote_endpoint]) s in
        match Env.new_outbound_slot env (log s) remote_endpoint with
        | None => Ok tt s1
        | Some slot =>
            let peer := new_peer None [] remote_endpoint "" slot false s1 in
            let s2 := set_log (log s1 ++ [EvMakePeer peer])
                        (set_heap (<[new_address s1 := ChildPeer peer]> (heap s1))
                           (set_next_id_ (next_id (next_id_ s1)) s1)) in
            match m_peers s !! slot with
            | Some _ => Abort assert_add_slot s2
            | None => Ok tt (admitted peer s2)
            end
        end
    end.
Proof.
  unfold connect. unfold bind at 1, gets.
  destruct (work_ s) as [[]|]; [|reflexivity].
  unfold bind at 1, assert. cbn [bool_decide decide_rel is_Some_dec].
  rewrite bind_ask.
  destruct (Env.new_outbound_slot env (log s) remote_endpoint) as [slot|]; [|reflexivity].
  unfold bind. rewrite make_PeerImp_run. cbv beta iota zeta. rewrite add_and_run_cases.
  reflexivity.
Qed.

Module Lifecycle.

(** C5.  A call of [stop] that finds the work token engaged clears it and
    calls [stop] on the children of [list_] whose weak reference resolves at
    that moment, on those and on no other, changing nothing else of the
    state.  A call that finds the token cleared, so every call after the
    first, returns the state it was given: no child is visited, nothing is
    logged, nothing changes.  No call aborts. *)
Theorem stop_is_idempotent (s : OverlayImpl.t) :
  is_Some (work_ s) ->
  exists s1,
    stop s = Ok tt s1
    /\ work_ s1 = None
    /\ s1 = set_log (log s ++ stop_signals s) (set_work_ None s)
    /\ (forall w c, (w, c) ∈ resolving s <->
                    (exists k, list_ s !! k = Some w) /\ heap s !! w = Some c)
    /\ length (resolving s) <= base.size (list_ s)
    /\ stop s1 = Ok tt s1
    /\ (forall s2, work_ s2 = None -> stop s2 = Ok tt s2).
Proof.
  intros [[] W]. eexists. rewrite stop_cases, W.
  split; [reflexivity|]. split; [reflexivity|]. split; [reflexivity|].
  split; [apply elem_of_resolving|]. split; [apply resolving_length|].
  split; [by rewrite stop_cases|]. intros s2 W2. by rewrite stop_cases, W2.
Qed.

Lemma stop_is_idempotent_witness :
  exists s1,
    stop running = Ok tt s1
    /\ work_ s1 = None
    /\ stop_signals running = [EvPeerStop 3; EvTimerCancel]
    /\ stop s1 = Ok tt s1.
Proof.
  destruct (stop_is_idempotent running) as (s1 & E & W & _ & _ & _ & E2 & _).
  - vm_compute. eauto.
  - exists s1. split; [exact E|]. split; [exact W|]. split; [|exact E2].
    vm_compute. reflexivity.
Defined.

(** C8.  [connect] asserts the work token before anything else: called
    with the token cleared, so after [stop], it aborts at that assertion,
    having asked for no slot and changed nothing; it neither returns nor
    reports an error.  Called with the token engaged, it does not reach that
    abort: it goes on to ask the PeerFinder for an outbound slot. *)
Theorem connect_asserts_work (env : Env.t) (remote_endpoint : Endpoint) (s : OverlayImpl.t) :
  (work_ s = None -> connect env remote_endpoint s = Abort assert_work s)
  /\ (forall s0, is_Some (work_ s0) -> stop s0 = Ok tt s ->
       connect env remote_endpoint s = Abort assert_work s)
  /\ (is_Some (work_ s) ->
       (forall site s', connect env remote_endpoint s = Abort site s' -> site <> assert_work)
       /\ exists rest,
            log (final (connect env remote_endpoint s))
            = log s ++ EvNewOutboundSlot remote_endpoint :: rest).
Proof.
  rewrite connect_cases. split; [by intros ->|]. split.
  - intros s0 [[] W0]. rewrite stop_cases, W0. by intros [= <-].
  - intros [[] ->]. cbv zeta.
    destruct (Env.new_outbound_slot env (log s) remote_endpoint) as [slot|].
    2:{ split; [done|]. by exists []. }
    destruct (m_peers s !! slot).
    + split; [by intros ? ? [= <- _]|]. eexists. simpl. by rewrite <- app_assoc.
    + split; [done|]. eexists. simpl. by rewrite <- !app_assoc.
Qed.

Lemma connect_asserts_work_witness :
  connect Sample.env (Sample.ep 3 51235) (final (stop running))
  = Abort assert_work (final (stop running))
  /\ exists rest,
       log (final (connect Sample.env (Sample.ep 3 51235) running))
       = log running ++ EvNewOutboundSlot (Sample.ep 3 51235) :: rest.
Proof.
  split.
  - apply (connect_asserts_work Sample.env (Sample.ep 3 51235) (final (stop running))).
    vm_compute. reflexivity.
  - apply (connect_asserts_work Sample.env (Sample.ep 3 51235) running).
    vm_compute. eauto.
Defined.

End Lifecycle.

(** ** The legacy inbound path *)

Lemma onLegacyPeerHello_cases env ssl_bundle buffer remote_endpoint s :
  onLegacyPeerHello env ssl_bundle buffer remote_endpoint s =
    let s1 := set_log (log s ++ [EvLocalEndpoint ssl_bundle]) s in
    if negb ((Env.local_endpoint env (log s) ssl_bundle).1 =? 0)%N then Ok tt s1 else
    let local_endpoint := (Env.local_endpoint env (log s) ssl_bundle).2 in
    let s2 := set_log (log s1 ++ [EvNewInboundSlot local_endpoint remote_endpoint]) s in
    match Env.new_inbound_slot env (log s1) local_endpoint remote_endpoint with
    | None => Ok tt s2
    | Some slot =>
        let peer := new_peer (Some ssl_bundle) buffer remote_endpoint "" slot true s2 in
        let s3 := set_log (log s2 ++ [EvMakePeer peer])
                    (set_heap (<[new_address s2 := ChildPeer peer]> (heap s2))
                       (set_next_id_ (next_id (next_id_ s2)) s2)) in
        match m_peers s !! slot with
        | Some _ => Abort assert_add_slot s3
        | None => Ok tt (admitted peer s3)
        end
    end.
Proof.
  unfold onLegacyPeerHello. rewrite bind_ask.
  destruct (Env.local_endpoint env (log s) ssl_bundle) as [ec local_endpoint].
  cbn [fst snd]. destruct (negb (ec =? 0)%N); [reflexivity|].
  rewrite bind_ask. cbv zeta. cbn [log set_log].
  destruct (Env.new_inbound_slot env _ local_endpoint remote_endpoint) as [slot|];
    [|reflexivity].
  unfold bind. rewrite make_PeerImp_run. cbv beta iota zeta. rewrite add_and_run_cases.
  reflexivity.
Qed.

(** When [onHandoff] returns having constructed a peer, it has been through
    every check on the way. *)
Lemma onHandoff_admission env ssl_bundle request remote_endpoint s h s' :
  onHandoff env ssl_bundle request remote_endpoint s = Ok h s' ->
  next_id_ s' <> next_id_ s ->
  connect_as_peer env request = true
  /\ exists local_endpoint consumer slot hello sharedValue publicKey clusterNode peer,
       log s' = log s ++ journal_log env Trace
                ++ [EvLocalEndpoint ssl_bundle;
                    EvNewInboundEndpoint (address remote_endpoint);
                    EvDisconnect consumer;
                    EvNewInboundSlot local_endpoint remote_endpoint;
                    EvParseHello;
                    EvMakeSharedValue ssl_bundle;
                    EvVerifyHello hello sharedValue;
                    EvNodeInCluster publicKey;
                    EvActivate slot publicKey clusterNode;
                    EvMakePeer peer;
                    EvPeerRun (PeerImp.get peer)].
Proof.
  destruct (reaches_slot env ssl_bundle remote_endpoint s request) eqn:R.
  2:{ destruct (onHandoff_before_slot env ssl_bundle remote_endpoint s request R)
        as (s0 & -> & _ & _ & _ & _ & _ & N & _).
      intros [= _ <-] Hn. by destruct Hn. }
  rewrite onHandoff_to_slot by done.
  destruct (the_slot env ssl_bundle remote_endpoint s) as [slot|].
  2:{ intros [= _ <-] Hn. by destruct Hn. }
  pose proof (onHandoff_with_slot_ends env ssl_bundle remote_endpoint request slot
                (set_log (log_slot env ssl_bundle remote_endpoint s) s)) as O.
  destruct O as [added ? ?|added ?|hello sharedValue publicKey clusterNode s1 C L ? ?|? ? ?].
  - intros [= _ <-] Hn. by destruct Hn.
  - intros [= _ <-] Hn. by destruct Hn.
  - intros [= _ <-] _. split; [done|].
    exists (the_local_endpoint env ssl_bundle s).2,
           (the_consumer env ssl_bundle remote_endpoint s),
           slot, hello, sharedValue, publicKey, clusterNode,
           (new_peer (Some ssl_bundle) [] remote_endpoint publicKey slot true s1).
    cbn [admitted log set_log set_list_ set_m_peers set_heap set_next_id_].
    rewrite L. cbn [log set_log].
    unfold log_slot, log_disconnect, log_consumer, log_local, log_upgrade.
    rewrite <- !app_assoc. reflexivity.
  - done.
Qed.

Module Legacy.

(** C10.  [onLegacyPeerHello] takes the transport and the remote endpoint,
    no request.  When the local endpoint resolves and the PeerFinder grants
    an inbound slot (one not already in [m_peers]), it constructs the peer
    under the next id, adds it to [m_peers] and [list_] and runs it, and the
    calls it has made are these four, in this order: the local endpoint, the
    slot request, the construction, [run]; no accounting token is asked
    for, no hello is parsed, no shared value made, nothing verified, no slot
    activated.  [onHandoff] in contrast constructs a peer only for a request
    with "peer" among its Connect-As values and after the accounting token,
    its disconnect check, the parsing and the verification of the hello and
    the activation of the slot. *)
Theorem legacy_admits_unchecked (env : Env.t) (ssl_bundle : Transport)
    (buffer : list N) (remote_endpoint : Endpoint) (s : OverlayImpl.t)
    (local_endpoint : Endpoint) (slot : Slot) :
  Env.local_endpoint env (log s) ssl_bundle = (0%N, local_endpoint) ->
  Env.new_inbound_slot env (log s ++ [EvLocalEndpoint ssl_bundle])
    local_endpoint remote_endpoint = Some slot ->
  m_peers s !! slot = None ->
  let peer := {| PeerImp.get := new_address s; PeerImp.id := next_id_ s;
                 PeerImp.slot := slot; PeerImp.getNodePublic := "";
                 PeerImp.bundle := Some ssl_bundle; PeerImp.buffer := buffer;
                 PeerImp.remote := remote_endpoint;
                 PeerImp.inbound := true |} in
  (exists s',
     onLegacyPeerHello env ssl_bundle buffer remote_endpoint s = Ok tt s'
     /\ log s' = log s ++ [EvLocalEndpoint ssl_bundle;
                           EvNewInboundSlot local_endpoint remote_endpoint;
                           EvMakePeer peer;
                           EvPeerRun (new_address s)]
     /\ m_peers s' = <[slot := new_address s]> (m_peers s)
     /\ list_ s' = <[new_address s := new_address s]> (list_ s)
     /\ heap s' = <[new_address s := ChildPeer peer]> (heap s)
     /\ next_id_ s' = next_id (next_id_ s)
     /\ m_shortIdMap s' = m_shortIdMap s
     /\ m_publicKeyMap s' = m_publicKeyMap s)
  /\ (forall request h s',
       onHandoff env ssl_bundle request remote_endpoint s = Ok h s' ->
       next_id_ s' <> next_id_ s ->
       connect_as_peer env request = true
       /\ exists local_endpoint' consumer slot' hello sharedValue publicKey clusterNode peer',
            log s' = log s ++ journal_log env Trace
                     ++ [EvLocalEndpoint ssl_bundle;
                         EvNewInboundEndpoint (address remote_endpoint);
                         EvDisconnect consumer;
                         EvNewInboundSlot local_endpoint' remote_endpoint;
                         EvParseHello;
                         EvMakeSharedValue ssl_bundle;
                         EvVerifyHello hello sharedValue;
                         EvNodeInCluster publicKey;
                         EvActivate slot' publicKey clusterNode;
                         EvMakePeer peer';
                         EvPeerRun (PeerImp.get peer')]).
Proof.
  intros El Sl Hslot peer. split.
  - rewrite onLegacyPeerHello_cases, El. cbn [fst snd negb N.eqb]. cbv zeta.
    cbn [log set_log]. rewrite Sl, Hslot.
    eexists. split; [reflexivity|].
    destruct (new_address_fresh s) as [_ Hl].
    cbn [admitted log set_log set_list_ set_m_peers set_heap set_next_id_ new_peer
         PeerImp.get PeerImp.slot m_peers list_ heap next_id_ m_shortIdMap m_publicKeyMap].
    change (new_address (set_log _ s)) with (new_address s).
    rewrite (emplace_fresh _ _ _ Hl). rewrite <- !app_assoc. done.
  - intros request h s'. apply onHandoff_admission.
Qed.

Lemma legacy_admits_unchecked_witness :
  exists s',
    onLegacyPeerHello Sample.env 1%positive [22%N; 3%N] (Sample.ep 2 40000) init = Ok tt s'
    /\ log s' = [EvLocalEndpoint 1;
                 EvNewInboundSlot (Sample.ep 1 51235) (Sample.ep 2 40000);
                 EvMakePeer {| PeerImp.get := 1; PeerImp.id := 1; PeerImp.slot := 2;
                               PeerImp.getNodePublic := "";
                               PeerImp.bundle := Some 1%positive;
                               PeerImp.buffer := [22%N; 3%N];
                               PeerImp.remote := Sample.ep 2 40000;
                               PeerImp.inbound := true |};
                 EvPeerRun 1]
    /\ next_id_ s' = 2%N.
Proof.
  destruct (legacy_admits_unchecked Sample.env 1%positive [22%N; 3%N] (Sample.ep 2 40000) init
              (Sample.ep 1 51235) 2%positive) as [(s' & E & L & _ & _ & _ & N & _) _];
    [reflexivity..|].
  exists s'. split; [exact E|]. split; [exact L|exact N].
Defined.

End Legacy.

(** ** The maintenance timer *)

Lemma sendEndpoints_loop (plan : list (Slot * list Endpoint)) : forall s0 s,
  m_peers s = m_peers s0 -> heap s = heap s0 ->
  for_each plan (fun e =>
      let! iter := gets (fun s => m_peers s !! fst e) in
      let! peer := match iter with
                   | Some w =>
                       let! c := lock w in
                       ret (match c with Some _ => Some w | None => None end)
                   | None => ret None
                   end in
      match peer with
      | Some w => call (EvPeerSendEndpoints w (snd e))
      | None => ret tt
      end) s
  = Ok tt (set_log (log s ++ flat_map (sends_of s0) plan) s).
Proof.
  induction plan as [|e plan IH]; intros s0 s Hm Hh.
  - simpl. unfold ret. rewrite app_nil_r. by destruct s.
  - rewrite for_each_cons. cbn [flat_map]. unfold sends_of at 1. rewrite <- Hm.
    unfold bind at 1, gets.
    destruct (m_peers s !! e.1) as [w|] eqn:E.
    + unfold bind at 1, lock, gets. unfold bind at 1. rewrite <- Hh.
      destruct (heap s !! w) as [c|] eqn:Ec.
      * unfold ret, call, modify. rewrite (IH s0) by done. cbn [log set_log].
        rewrite <- app_assoc. reflexivity.
      * unfold ret. rewrite (IH s0) by done. reflexivity.
    + unfold bind at 1, ret. rewrite (IH s0) by done. reflexivity.
Qed.

Lemma sendEndpoints_run env s :
  sendEndpoints env s =
    Ok tt (set_log (log s ++ EvBuildEndpointsForPeers
                            :: flat_map (sends_of s) (Env.buildEndpointsForPeers env (log s)))
             s).
Proof.
  unfold sendEndpoints. rewrite bind_ask.
  rewrite (sendEndpoints_loop _ s) by done. cbn [log set_log].
  rewrite <- app_assoc. reflexivity.
Qed.

Lemma sends_of_class s plan : forallb is_send_event (flat_map (sends_of s) plan) = true.
Proof.
  induction plan as [|e plan IH]; [done|]. cbn [flat_map].
  rewrite forallb_app, IH, andb_true_r. unfold sends_of.
  destruct (m_peers s !! e.1) as [w|]; [|done]. by destruct (heap s !! w).
Qed.

(** What one [connect] adds to the log, run to its end or not. *)
Lemma connect_log env remote_endpoint s :
  exists added,
    log (final (connect env remote_endpoint s)) = log s ++ added
    /\ forallb is_connect_event added = true
    /\ isStopping (final (connect env remote_endpoint s)) = isStopping s.
Proof.
  rewrite connect_cases. destruct (work_ s); [|exists []; by rewrite app_nil_r].
  cbv zeta. destruct (Env.new_outbound_slot env (log s) remote_endpoint) as [slot|].
  2:{ by eexists [_]. }
  destruct (m_peers s !! slot).
  - eexists [_; _]. simpl. by rewrite <- app_assoc.
  - eexists [_; _; _]. simpl. by rewrite <- !app_assoc.
Qed.

Lemma connects_log env (targets : list Endpoint) : forall s,
  exists added,
    log (final (for_each targets (connect env) s)) = log s ++ added
    /\ forallb is_connect_event added = true
    /\ isStopping (final (for_each targets (connect env) s)) = isStopping s.
Proof.
  induction targets as [|r targets IH]; intros s.
  - exists []. by rewrite app_nil_r.
  - rewrite for_each_cons.
    destruct (connect_log env r s) as (a1 & L1 & C1 & S1).
    destruct (connect env r s) as [[] s1|site s1]; simpl in L1, S1.
    + destruct (IH s1) as (a2 & L2 & C2 & S2). exists (a1 ++ a2).
      rewrite L2, L1, S2, S1, forallb_app, C1, C2, <- app_assoc. done.
    + exists a1. done.
Qed.

Lemma connect_connected env remote_endpoint t :
  is_Some (work_ t) ->
  match Env.new_outbound_slot env (log t) remote_endpoint with
  | None => True
  | Some slot => m_peers t !! slot = None
  end ->
  connect env remote_endpoint t = Ok tt (connected env remote_endpoint t).
Proof.
  intros [[] W] H. rewrite connect_cases, W. cbv zeta. unfold connected, connect_calls.
  destruct (Env.new_outbound_slot env (log t) remote_endpoint) as [slot|]; [|done].
  rewrite H. destruct (new_address_fresh t) as [_ Hl].
  change (new_address (set_log _ t)) with (new_address t).
  change (new_peer None [] remote_endpoint "" slot false (set_log _ t))
    with (new_peer None [] remote_endpoint "" slot false t).
  unfold admitted. cbn [list_ set_log set_heap set_next_id_ set_m_peers new_peer PeerImp.get
                        PeerImp.slot].
  rewrite (emplace_fresh _ _ _ Hl).
  cbn [fst log set_log set_list_ set_m_peers set_heap set_next_id_].
  rewrite <- !app_assoc. reflexivity.
Qed.

Lemma connected_work env remote_endpoint t :
  work_ (connected env remote_endpoint t) = work_ t.
Proof.
  unfold connected. by destruct (Env.new_outbound_slot env (log t) remote_endpoint).
Qed.

Lemma connected_log env remote_endpoint t :
  log (connected env remote_endpoint t) = log t ++ connect_calls env remote_endpoint t.
Proof.
  unfold connected. by destruct (Env.new_outbound_slot env (log t) remote_endpoint).
Qed.

Lemma connected_all_log env (targets : list Endpoint) : forall t,
  log (connected_all env targets t) = log t ++ connects_of env targets t.
Proof.
  induction targets as [|r targets IH]; intros t; cbn [connected_all connects_of].
  - by rewrite app_nil_r.
  - by rewrite IH, connected_log, <- app_assoc.
Qed.

Lemma connects_connected env (targets : list Endpoint) : forall t,
  targets = [] \/ is_Some (work_ t) ->
  grants_new env targets t = true ->
  for_each targets (connect env) t = Ok tt (connected_all env targets t).
Proof.
  induction targets as [|r targets IH]; intros t W G; [done|].
  destruct W as [|W]; [done|].
  cbn [grants_new] in G. apply andb_true_iff in G as [G1 G2].
  rewrite for_each_cons, connect_connected; [|exact W|].
  - cbn [connected_all]. apply IH; [|exact G2]. right. by rewrite connected_work.
  - destruct (Env.new_outbound_slot env (log t) r); [|done].
    by apply bool_decide_eq_true in G1.
Qed.

Lemma connects_completed env (targets : list Endpoint) : forall t,
  completes (for_each targets (connect env) t) = true ->
  (targets = [] \/ is_Some (work_ t)) /\ grants_new env targets t = true.
Proof.
  induction targets as [|r targets IH]; intros t C; [by split; [left|]|].
  rewrite for_each_cons in C.
  assert (W : is_Some (work_ t)).
  { rewrite connect_cases in C. by destruct (work_ t). }
  assert (G : match Env.new_outbound_slot env (log t) r with
              | None => True
              | Some slot => m_peers t !! slot = None
              end).
  { rewrite connect_cases in C. destruct W as [[] W]. rewrite W in C. cbv zeta in C.
    destruct (Env.new_outbound_slot env (log t) r) as [slot|]; [|done].
    by destruct (m_peers t !! slot). }
  rewrite (connect_connected env r t W G) in C.
  destruct (IH _ C) as [_ G2]. split; [by right|].
  cbn [grants_new]. rewrite G2, andb_true_r.
  destruct (Env.new_outbound_slot env (log t) r); [|done]. by apply bool_decide_eq_true.
Qed.

Lemma Timer_on_timer_quiet env ec s :
  ec <> 0%N \/ isStopping s = true ->
  Timer_on_timer env ec s =
    Ok tt (set_log (log s ++ (if negb (ec =? 0)%N && negb (ec =? Env.operation_aborted env)%N
                              then journal_log env Error else [])) s).
Proof.
  intros H. unfold Timer_on_timer. unfold bind at 1, gets.
  assert (negb (ec =? 0)%N || isStopping s = true) as ->.
  { destruct H as [H| ->]; [|by rewrite orb_true_r].
    apply N.eqb_neq in H. by rewrite H. }
  destruct (negb (ec =? 0)%N && negb (ec =? Env.operation_aborted env)%N).
  - apply journal_run.
  - unfold ret. rewrite app_nil_r. by destruct s.
Qed.

Lemma Timer_on_timer_tick env s :
  isStopping s = false ->
  Timer_on_timer env 0 s =
    (call EvOncePerSecond ;; sendEndpoints env ;; autoConnect env ;; Timer_wait) s.
Proof.
  intros H. unfold Timer_on_timer. unfold bind at 1, gets. by rewrite H.
Qed.

Lemma Timer_on_timer_run env s :
  isStopping s = false ->
  Timer_on_timer env 0 s =
    match for_each (Env.autoconnect env (before_autoconnect env s)) (connect env)
            (set_log (before_autoconnect env s ++ [EvAutoconnect]) s) with
    | Ok _ s4 => Ok tt (set_log (log s4 ++ [EvTimerExpiresFromNow 1; EvTimerAsyncWait]) s4)
    | Abort site s4 => Abort site s4
    end.
Proof.
  intros St. rewrite Timer_on_timer_tick by done.
  unfold bind at 1, call, modify. unfold bind at 1. rewrite sendEndpoints_run.
  cbn [log set_log]. rewrite set_log_set_log.
  change (flat_map (sends_of (set_log (log s ++ [EvOncePerSecond]) s)))
    with (flat_map (sends_of s)).
  unfold bind at 1, autoConnect. rewrite bind_ask. cbn [log set_log].
  rewrite set_log_set_log. unfold before_autoconnect. rewrite <- !app_assoc.
  destruct (for_each _ (connect env) _) as [[] s4|site s4]; [|reflexivity].
  unfold Timer_wait, bind, call, modify. cbn [log set_log].
  rewrite set_log_set_log, <- app_assoc. reflexivity.
Qed.

Module Timer.

(** C7.  A tick that comes with an error or finds the manager stopping does
    none of the work and does not wait again: the state is as it was but for
    the error line in the journal, written for an error that is not the
    cancellation.  A tick without error on a manager that is not stopping
    calls the PeerFinder's [once_per_second], then broadcasts the endpoints
    (the plan, then a send to every peer of the plan that is still there),
    then auto-connects (the targets, then one [connect] after the other),
    in this order, and then sets the timer to expire one second from now
    and waits on it again.  The tick gets to that end exactly when no
    [connect] trips an assertion: when there is no target or the work token
    is engaged, and every slot the PeerFinder grants is one [m_peers] does
    not hold.  Its calls are then these, and no other: for every target, in
    the order of the targets, the request for an outbound slot and, where
    one is granted, the construction of the peer and its [run]; and the
    manager is left as these connects leave it.  A tick that trips an
    assertion ends there, its calls so far in the same order. *)
Theorem on_timer_in_order (env : Env.t) (ec : error_code) (s : OverlayImpl.t) :
  (ec <> 0%N \/ isStopping s = true ->
     Timer_on_timer env ec s
     = Ok tt (set_log (log s ++ (if negb (ec =? 0)%N && negb (ec =? Env.operation_aborted env)%N
                                 then journal_log env Error else [])) s))
  /\ (ec = 0%N -> isStopping s = false ->
       let targets := Env.autoconnect env (before_autoconnect env s) in
       let s3 := set_log (before_autoconnect env s ++ [EvAutoconnect]) s in
       (exists connects,
          forallb is_connect_event connects = true
          /\ log (final (Timer_on_timer env ec s))
             = log s
               ++ [EvOncePerSecond]
               ++ EvBuildEndpointsForPeers
                  :: flat_map (sends_of s)
                       (Env.buildEndpointsForPeers env (log s ++ [EvOncePerSecond]))
               ++ EvAutoconnect :: connects
               ++ (if completes (Timer_on_timer env ec s)
                   then [EvTimerExpiresFromNow 1; EvTimerAsyncWait] else [])
          /\ forallb is_send_event
               (flat_map (sends_of s)
                  (Env.buildEndpointsForPeers env (log s ++ [EvOncePerSecond]))) = true)
       /\ (completes (Timer_on_timer env ec s) = true <->
           (targets = [] \/ is_Some (work_ s)) /\ grants_new env targets s3 = true)
       /\ (completes (Timer_on_timer env ec s) = true ->
           Timer_on_timer env ec s
           = Ok tt (set_log (log (connected_all env targets s3)
                             ++ [EvTimerExpiresFromNow 1; EvTimerAsyncWait])
                      (connected_all env targets s3))
           /\ log (final (Timer_on_timer env ec s))
              = log s
                ++ [EvOncePerSecond]
                ++ EvBuildEndpointsForPeers
                   :: flat_map (sends_of s)
                        (Env.buildEndpointsForPeers env (log s ++ [EvOncePerSecond]))
                ++ EvAutoconnect :: connects_of env targets s3
                ++ [EvTimerExpiresFromNow 1; EvTimerAsyncWait]))
  /\ isStopping (final (Timer_on_timer env ec s)) = isStopping s.
Proof.
  split; [apply Timer_on_timer_quiet|]. split.
  - intros -> St. cbv zeta.
    set (s3 := set_log (before_autoconnect env s ++ [EvAutoconnect]) s).
    set (targets := Env.autoconnect env (before_autoconnect env s)).
    assert (Hrun : Timer_on_timer env 0 s =
              match for_each targets (connect env) s3 with
              | Ok _ s4 => Ok tt (set_log (log s4 ++ [EvTimerExpiresFromNow 1;
                                                      EvTimerAsyncWait]) s4)
              | Abort site s4 => Abort site s4
              end) by (by apply Timer_on_timer_run).
    assert (Hc : completes (Timer_on_timer env 0 s)
                 = completes (for_each targets (connect env) s3)).
    { rewrite Hrun. by destruct (for_each targets (connect env) s3). }
    assert (Hlog : forall connects,
              log s3 ++ connects
              = log s ++ [EvOncePerSecond]
                ++ EvBuildEndpointsForPeers
                   :: flat_map (sends_of s)
                        (Env.buildEndpointsForPeers env (log s ++ [EvOncePerSecond]))
                ++ EvAutoconnect :: connects).
    { intros connects. unfold s3, before_autoconnect. cbn [log set_log].
      repeat first [rewrite <- app_assoc | rewrite <- app_comm_cons]. reflexivity. }
    assert (Hiff : completes (Timer_on_timer env 0 s) = true <->
                   (targets = [] \/ is_Some (work_ s)) /\ grants_new env targets s3 = true).
    { rewrite Hc. split.
      - intros C. exact (connects_completed env targets s3 C).
      - intros [W G]. by rewrite (connects_connected env targets s3 W G). }
    split; [|split; [exact Hiff|]].
    + destruct (connects_log env targets s3) as (connects & L & C & _).
      exists connects. split; [done|]. split; [|apply sends_of_class].
      rewrite Hrun.
      destruct (for_each targets (connect env) s3) as [[] s4|site s4];
        cbn [final completes log set_log] in L |- *.
      * rewrite L, Hlog. repeat first [rewrite <- app_assoc | rewrite <- app_comm_cons].
        reflexivity.
      * rewrite L, Hlog.
        repeat first [rewrite <- app_assoc | rewrite <- app_comm_cons | rewrite app_nil_r].
        reflexivity.
    + intros [W G]%Hiff. rewrite Hrun, (connects_connected env targets s3 W G).
      split; [reflexivity|]. cbn [final log set_log].
      rewrite connected_all_log, Hlog.
      repeat first [rewrite <- app_assoc | rewrite <- app_comm_cons]. reflexivity.
  - destruct (decide (ec = 0%N)) as [->|Hne];
      [destruct (isStopping s) eqn:St|].
    + rewrite Timer_on_timer_quiet by auto. done.
    + rewrite Timer_on_timer_run by done.
      set (s3 := set_log (before_autoconnect env s ++ [EvAutoconnect]) s).
      set (targets := Env.autoconnect env (before_autoconnect env s)).
      destruct (connects_log env targets s3) as (connects & _ & _ & S3).
      destruct (for_each targets (connect env) s3) as [[] s4|site s4];
        cbn [final isStopping set_log] in S3 |- *; by rewrite S3.
    + rewrite Timer_on_timer_quiet by auto. done.
Qed.

Lemma on_timer_in_order_witness :
  Timer_on_timer Sample.env 125 init = Ok tt init
  /\ completes (Timer_on_timer Sample.env 0 (final (Timer_on_timer Sample.env 0 init))) = true
  /\ log (final (Timer_on_timer Sample.env 0 (final (Timer_on_timer Sample.env 0 init))))
     = log (final (Timer_on_timer Sample.env 0 init))
       ++ [EvOncePerSecond; EvBuildEndpointsForPeers; EvAutoconnect;
           EvNewOutboundSlot (Sample.ep 2 0);
           EvNewOutboundSlot (Sample.ep 3 51235);
           EvMakePeer {| PeerImp.get := 2; PeerImp.id := 2; PeerImp.slot := 3;
                         PeerImp.getNodePublic := ""; PeerImp.bundle := None;
                         PeerImp.buffer := []; PeerImp.remote := Sample.ep 3 51235;
                         PeerImp.inbound := false |};
           EvPeerRun 2;
           EvTimerExpiresFromNow 1; EvTimerAsyncWait].
Proof.
  destruct (on_timer_in_order Sample.env 125 init) as (Q & _ & _).
  destruct (on_timer_in_order Sample.env 0 (final (Timer_on_timer Sample.env 0 init)))
    as (_ & T & _).
  destruct (T eq_refl eq_refl) as (_ & Hiff & Hlog).
  assert (Cc : completes (Timer_on_timer Sample.env 0
                            (final (Timer_on_timer Sample.env 0 init))) = true).
  { apply Hiff. split; [right; vm_compute; eauto|vm_compute; reflexivity]. }
  split; [|split].
  - apply Q. left. discriminate.
  - exact Cc.
  - destruct (Hlog Cc) as [_ L]. rewrite L. vm_compute. reflexivity.
Defined.

End Timer.


(** ** What a computation keeps *)

Section Keeps.
Context (R : OverlayImpl.t -> OverlayImpl.t -> Prop).
Hypothesis R_refl : forall s, R s s.
Hypothesis R_trans : forall a b c, R a b -> R b c -> R a c.
Hypothesis R_log : forall s v, R s (set_log v s).

Lemma keeps_ret {A} (a : A) : keeps R (ret a).
Proof. intros s. apply R_refl. Qed.

Lemma keeps_gets {A} (f : OverlayImpl.t -> A) : keeps R (gets f).
Proof. intros s. apply R_refl. Qed.

Lemma keeps_assert site b : keeps R (assert site b).
Proof. intros s. unfold assert. destruct b; apply R_refl. Qed.

Lemma keeps_modify f : (forall s, R s (f s)) -> keeps R (modify f).
Proof. intros H s. apply H. Qed.

Lemma keeps_call e : keeps R (call e).
Proof. intros s. apply R_log. Qed.

Lemma keeps_bind {A B} (c : M A) (k : A -> M B) :
  keeps R c -> (forall a, keeps R (k a)) -> keeps R (bind c k).
Proof.
  intros Hc Hk s. unfold bind. specialize (Hc s).
  destruct (c s) as [a s1|site s1]; simpl in Hc; [|done].
  eapply R_trans; [exact Hc|apply Hk].
Qed.

Lemma keeps_for_each {A} (l : list A) (body : A -> M unit) :
  (forall x, keeps R (body x)) -> keeps R (for_each l body).
Proof.
  intros H. induction l as [|x l IH]; simpl; [apply keeps_ret|].
  apply keeps_bind; [apply H|intros _; exact IH].
Qed.

Lemma keeps_journal env sev : keeps R (journal env sev).
Proof. unfold journal. destruct (Env.journal_active env sev); [apply keeps_call|apply keeps_ret]. Qed.

Lemma keeps_ask {A} (answer : list Event -> A) e : keeps R (ask answer e).
Proof.
  unfold ask. apply keeps_bind; [apply keeps_gets|intros a].
  apply keeps_bind; [apply keeps_call|intros _; apply keeps_ret].
Qed.

Lemma keeps_lock w : keeps R (lock w).
Proof. apply keeps_gets. Qed.
End Keeps.

(** One step of taking a computation apart. *)
Ltac keeps_step Hrefl Htrans Hlog :=
  first
    [ apply (keeps_ret _ Hrefl)
    | apply (keeps_gets _ Hrefl)
    | apply (keeps_assert _ Hrefl)
    | apply (keeps_call _ Hlog)
    | apply (keeps_journal _ Hrefl Hlog)
    | apply (keeps_ask _ Hrefl Htrans Hlog)
    | apply (keeps_lock _ Hrefl)
    | apply (keeps_bind _ Htrans); [|intros ?]
    | apply (keeps_for_each _ Hrefl Htrans); intros ?
    | match goal with
      | |- keeps _ (match ?x with _ => _ end) => destruct x
      end
    | progress cbv zeta ].

Ltac unfold_members :=
  unfold run_step, onStop, stop, onChildrenStopped, checkStopped, Child_dtor, remove_child,
    connect, onLegacyPeerHello, onHandoff, makeRedirectResponse, make_PeerImp, add_and_run,
    add, remove, Timer_on_timer, Timer_wait, sendEndpoints, autoConnect, findPeerByShortID,
    getActivePeers, expire, onStart, Timer_run, Timer_wait, Child_stop, activate,
    onPeerDeactivate, size.

Lemma same_indexes_refl s : same_indexes s s.
Proof. by split. Qed.

Lemma same_indexes_trans a b c : same_indexes a b -> same_indexes b c -> same_indexes a c.
Proof. intros [? ?] [? ?]. split; congruence. Qed.

Lemma same_indexes_log s v : same_indexes s (set_log v s).
Proof. by split. Qed.

Lemma step_keeps_indexes env st :
  indexes_peers st = false -> keeps same_indexes (run_step env st).
Proof.
  intros H. destruct st; try discriminate H; unfold_members;
    repeat first
      [ keeps_step same_indexes_refl same_indexes_trans same_indexes_log
      | progress cbv beta
      | apply keeps_modify; intros ?; split; reflexivity ].
Qed.

Lemma stays_cleared_refl s : stays_cleared s s.
Proof. by intros ?. Qed.

Lemma stays_cleared_trans a b c : stays_cleared a b -> stays_cleared b c -> stays_cleared a c.
Proof. unfold stays_cleared. auto. Qed.

Lemma stays_cleared_log s v : stays_cleared s (set_log v s).
Proof. by intros ?. Qed.

Lemma step_keeps_cleared env st : keeps stays_cleared (run_step env st).
Proof.
  destruct st; unfold_members;
    repeat first
      [ keeps_step stays_cleared_refl stays_cleared_trans stays_cleared_log
      | progress cbv beta
      | apply keeps_modify; intros ? ?; first [assumption | reflexivity] ].
Qed.

Lemma list_self_emplace a s s' :
  list_ s' = (emplace a a (list_ s)).1 -> list_self s -> list_self s'.
Proof.
  intros E H k w. rewrite E. unfold emplace.
  destruct (list_ s !! a) eqn:Ea; simpl; [apply H|].
  destruct (decide (a = k)) as [->|Hne].
  - rewrite lookup_insert_eq. congruence.
  - rewrite lookup_insert_ne by done. apply H.
Qed.

Lemma list_self_delete a s s' :
  list_ s' = delete a (list_ s) -> list_self s -> list_self s'.
Proof.
  intros E H k w. rewrite E. intros Hk.
  apply lookup_delete_Some in Hk as [_ Hk]. by apply H.
Qed.

Lemma keeps_list_self_refl s : keeps_list_self s s.
Proof. by intros ?. Qed.

Lemma keeps_list_self_trans a b c :
  keeps_list_self a b -> keeps_list_self b c -> keeps_list_self a c.
Proof. unfold keeps_list_self. auto. Qed.

Lemma keeps_list_self_log s v : keeps_list_self s (set_log v s).
Proof. by intros ?. Qed.

Lemma step_keeps_list_self env st : keeps keeps_list_self (run_step env st).
Proof.
  destruct st; unfold_members;
    repeat first
      [ keeps_step keeps_list_self_refl keeps_list_self_trans keeps_list_self_log
      | progress cbv beta
      | apply keeps_modify; intros ? ?;
        first [ assumption
              | eapply list_self_emplace; [reflexivity|assumption]
              | eapply list_self_delete; [reflexivity|assumption] ] ].
Qed.

Lemma run_steps_cons env st steps s :
  run_steps env (st :: steps) s =
    match run_step env st s with
    | Ok _ s' => run_steps env steps s'
    | Abort site s' => Abort site s'
    end.
Proof. reflexivity. Qed.

Lemma NoDup_resolving (f : positive * positive -> option (positive * Child))
    (l : list (positive * positive)) :
  (forall e y, f e = Some y -> y.1 = e.2) ->
  (forall e, e ∈ l -> e.2 = e.1) ->
  NoDup l.*1 -> NoDup (omap f l).*1.
Proof.
  intros Hf. induction l as [|e l IH]; intros Hself Hnd; [constructor|].
  apply NoDup_cons in Hnd as [He Hnd]. cbn [omap list_omap].
  assert (IH' : NoDup (omap f l).*1).
  { apply IH; [|done]. intros e' He'. apply Hself. by apply list_elem_of_further. }
  destruct (f e) as [y|] eqn:Ey; [|exact IH'].
  rewrite fmap_cons. apply NoDup_cons. split; [|exact IH'].
  intros (y' & Ey' & Hin)%list_elem_of_fmap.
  apply list_elem_of_omap in Hin as (e' & He' & Ef').
  apply He. apply list_elem_of_fmap. exists e'. split; [|done].
  pose proof (Hself e' (list_elem_of_further _ _ _ He')) as H1.
  pose proof (Hself e (list_elem_of_here _ _)) as H2.
  pose proof (Hf _ _ Ef') as H3. pose proof (Hf _ _ Ey) as H4.
  congruence.
Qed.

Module Frames.

(** X1.  The indexes by id and by public key, and with them [size()], are
    changed by [activate] and [onPeerDeactivate] only: whatever else runs
    (start, stop, the admissions, the removals, the timer, the broadcast, the
    auto-connect, the lookups, children going away), to its end or to an
    assertion, leaves both as they were. *)
Theorem only_activation_changes_the_indexes (env : Env.t) (steps : list Step)
    (s : OverlayImpl.t) :
  forallb (fun st => negb (indexes_peers st)) steps = true ->
  m_shortIdMap (final (run_steps env steps s)) = m_shortIdMap s
  /\ m_publicKeyMap (final (run_steps env steps s)) = m_publicKeyMap s
  /\ size_of (final (run_steps env steps s)) = size_of s.
Proof.
  revert s. induction steps as [|st steps IH]; intros s H; [done|].
  simpl in H. apply andb_true_iff in H as [H1%negb_true_iff H2].
  rewrite run_steps_cons.
  destruct (step_keeps_indexes env st H1 s) as [E1 E2].
  destruct (run_step env st s) as [[] s1|site s1]; simpl in E1, E2.
  - destruct (IH s1 H2) as (I1 & I2 & _).
    split; [congruence|]. split; [congruence|]. unfold size_of. by rewrite I2, E2.
  - unfold size_of. simpl. by rewrite E1, E2.
Qed.

Lemma only_activation_changes_the_indexes_witness :
  size_of (final (run_steps Sample.env busy_day init)) = 0.
Proof.
  apply (only_activation_changes_the_indexes Sample.env busy_day init). reflexivity.
Defined.

(** X2.  Nothing engages the work token again: from a state in which it is
    cleared, whatever runs leaves it cleared, and [connect] aborts at its
    assertion there. *)
Theorem a_cleared_token_stays_cleared (env : Env.t) (steps : list Step)
    (s : OverlayImpl.t) (remote_endpoint : Endpoint) :
  work_ s = None ->
  work_ (final (run_steps env steps s)) = None
  /\ connect env remote_endpoint (final (run_steps env steps s))
     = Abort assert_work (final (run_steps env steps s)).
Proof.
  intros W.
  assert (W' : work_ (final (run_steps env steps s)) = None).
  { apply (keeps_for_each stays_cleared stays_cleared_refl stays_cleared_trans
             steps (run_step env) (step_keeps_cleared env) s W). }
  split; [exact W'|]. by rewrite connect_cases, W'.
Qed.

Lemma a_cleared_token_stays_cleared_witness :
  work_ (final (run_steps Sample.env busy_day (final (stop init)))) = None.
Proof.
  apply (a_cleared_token_stays_cleared Sample.env busy_day (final (stop init))
           (Sample.ep 3 51235)).
  reflexivity.
Defined.

(** X3.  In every state the manager gets into from its construction, each
    entry of [list_] is a child's address with the weak reference to that
    very child, so the children [stop] visits and finds alive are pairwise
    different: no child is told to stop twice by one call. *)
Theorem stop_visits_no_child_twice (env : Env.t) (steps : list Step) :
  list_self (final (run_steps env steps init))
  /\ NoDup (resolving (final (run_steps env steps init))).*1.
Proof.
  assert (L : list_self (final (run_steps env steps init))).
  { apply (keeps_for_each keeps_list_self keeps_list_self_refl keeps_list_self_trans
             steps (run_step env) (step_keeps_list_self env) init).
    intros k w. change (list_ init) with (∅ : gmap positive positive).
    by rewrite lookup_empty. }
  split; [exact L|]. unfold resolving. apply NoDup_resolving.
  - intros e y. destruct (heap _ !! e.2); simpl; [|done]. by intros [= <-].
  - intros [k w] He. apply elem_of_map_to_list in He. simpl. by apply L.
  - apply NoDup_fst_map_to_list.
Qed.

End Frames.

(** ** Children going away *)

Set Warnings "-clear-no-such-hyp".

Lemma remove_child_cases child s :
  remove_child child s =
    Ok tt (let s1 := set_list_ (delete child (list_ s)) s in
           if bool_decide (delete child (list_ s) = ∅) && reports s
           then set_log (log s ++ [EvStopped]) s1 else s1).
Proof.
  unfold remove_child, checkStopped, reports. run.
  destruct (bool_decide (delete child (list_ s) = ∅)) eqn:E; simpl; [|done].
  rewrite E. destruct (isStopping s), (areChildrenStopped s); reflexivity.
Qed.

Lemma destroy_quiet children : forall s,
  reports s = false ->
  destroy children s = Ok tt (set_list_ (without children (list_ s)) s).
Proof.
  induction children as [|k children IH]; intros s H.
  - simpl. unfold ret. by destruct s.
  - unfold destroy. rewrite for_each_cons. fold (destroy children).
    unfold Child_dtor. rewrite remove_child_cases, H, andb_false_r. cbv zeta.
    rewrite IH by exact H. reflexivity.
Qed.

Lemma dom_without children : forall m : gmap positive positive,
  dom (without children m) = dom m ∖ list_to_set children.
Proof.
  induction children as [|k children IH]; intros m; simpl.
  - set_solver.
  - rewrite IH, dom_delete_L. set_solver.
Qed.

Lemma destroy_all children : forall s,
  reports s = true -> NoDup children -> children <> [] ->
  dom (list_ s) = list_to_set children ->
  destroy children s = Ok tt (set_log (log s ++ [EvStopped]) (set_list_ ∅ s)).
Proof.
  induction children as [|k children IH]; intros s H Hnd Hne Hdom; [done|].
  apply NoDup_cons in Hnd as [Hk Hnd].
  unfold destroy. rewrite for_each_cons. fold (destroy children).
  unfold Child_dtor. rewrite remove_child_cases, H, andb_true_r. cbv zeta.
  assert (Hdom' : dom (delete k (list_ s)) = list_to_set children).
  { rewrite dom_delete_L, Hdom. set_solver. }
  destruct children as [|k' children].
  - assert (delete k (list_ s) = ∅) as -> by (by apply dom_empty_inv_L).
    rewrite bool_decide_eq_true_2 by done. reflexivity.
  - rewrite bool_decide_eq_false_2.
    2:{ intros E. rewrite E, dom_empty_L in Hdom'. set_solver. }
    rewrite IH; [reflexivity|exact H|exact Hnd|done|exact Hdom'].
Qed.

Module Shutdown.

(** X4.  While the manager is stopping, the report that it has stopped is
    made exactly once, whichever comes last: the notice that its Stoppable
    children have stopped, or the destructor of the last child of [list_].
    Children going away before the notice report nothing; the notice
    reports if [list_] is empty by then; otherwise the destructor that
    empties [list_] reports.  In the end [list_] is empty and the log has
    gained the one report. *)
Theorem stopped_is_reported_once (s : OverlayImpl.t) (before after : list child_ptr) :
  isStopping s = true ->
  areChildrenStopped s = false ->
  NoDup (before ++ after) ->
  dom (list_ s) = list_to_set (before ++ after) ->
  (destroy before ;;
   modify (set_areChildrenStopped true) ;; onChildrenStopped ;;
   destroy after) s
  = Ok tt (set_log (log s ++ [EvStopped])
             (set_areChildrenStopped true (set_list_ ∅ s))).
Proof.
  intros St Ch Hnd Hdom.
  apply NoDup_app in Hnd as (Hb & Hdisj & Ha).
  unfold bind at 1. rewrite destroy_quiet by (unfold reports; by rewrite Ch, andb_false_r).
  set (L := without before (list_ s)).
  assert (HL : dom L = list_to_set after).
  { unfold L. rewrite dom_without, Hdom, list_to_set_app_L.
    apply set_eq. intros x. rewrite elem_of_difference, elem_of_union, !elem_of_list_to_set.
    split; [tauto|]. intros Hx. split; [tauto|]. intros Hx'. by apply (Hdisj x). }
  unfold bind at 1, modify. unfold bind at 1, onChildrenStopped, checkStopped. run.
  rewrite St. simpl.
  destruct after as [|k after].
  - assert (L = ∅) as -> by (by apply dom_empty_inv_L).
    rewrite bool_decide_eq_true_2 by done. reflexivity.
  - rewrite bool_decide_eq_false_2.
    2:{ intros E. rewrite E, dom_empty_L in HL. set_solver. }
    rewrite destroy_all; [reflexivity| |exact Ha|done|exact HL].
    unfold reports. simpl. by rewrite St.
Qed.

Lemma stopped_is_reported_once_witness :
  (destroy [3%positive] ;;
   modify (set_areChildrenStopped true) ;; onChildrenStopped ;;
   destroy [1%positive; 2%positive]) winding_down
  = Ok tt (set_log (log winding_down ++ [EvStopped])
             (set_areChildrenStopped true (set_list_ ∅ winding_down))).
Proof.
  apply (stopped_is_reported_once winding_down [3%positive] [1%positive; 2%positive]).
  - reflexivity.
  - reflexivity.
  - apply (bool_decide_unpack _). vm_compute. exact I.
  - vm_compute. reflexivity.
Defined.

(** X5.  While the manager is not stopping, or before its Stoppable
    children are found stopped, the children of [list_] going away report
    nothing, however many go and even if [list_] runs empty: only their
    entries are erased. *)
Theorem children_go_quietly (s : OverlayImpl.t) (children : list child_ptr) :
  isStopping s = false \/ areChildrenStopped s = false ->
  destroy children s = Ok tt (set_list_ (without children (list_ s)) s)
  /\ dom (without children (list_ s)) = dom (list_ s) ∖ list_to_set children.
Proof.
  intros H. split; [|apply dom_without]. apply destroy_quiet. unfold reports.
  destruct H as [-> | ->]; [done|apply andb_false_r].
Qed.

Lemma children_go_quietly_witness :
  exists s', destroy [1%positive; 2%positive; 3%positive; 7%positive] winding_down = Ok tt s'
             /\ list_ s' = ∅ /\ log s' = log winding_down.
Proof.
  destruct (children_go_quietly winding_down [1%positive; 2%positive; 3%positive; 7%positive])
    as [E _]; [right; reflexivity|].
  eexists. split; [exact E|]. split; vm_compute; reflexivity.
Defined.

End Shutdown.

(** ** Round trips and lookups *)

Lemma activate_heap env peer s s' :
  activate env peer s = Ok tt s' -> heap s' = heap s /\ list_ s' = list_ s.
Proof.
  rewrite activate_cases.
  destruct (m_shortIdMap s !! PeerImp.id peer); [done|].
  destruct (m_publicKeyMap s !! PeerImp.getNodePublic peer); [done|].
  intros [= <-].
  match goal with |- context [journal env Debug ?x] =>
    destruct (journal_maps env Debug x) as (s2 & -> & _ & _ & _ & El & _ & _ & Eh) end.
  simpl. by rewrite El, Eh.
Qed.

Lemma omap_length_le {A B} (f : A -> option B) (l : list A) :
  length (omap f l) <= length l.
Proof.
  induction l as [|x l IH]; simpl; [done|].
  destruct (f x); simpl; [apply le_n_S|apply le_S]; exact IH.
Qed.

Lemma omap_length_all {A B} (f : A -> option B) (l : list A) :
  (forall x, x ∈ l -> is_Some (f x)) -> length (omap f l) = length l.
Proof.
  induction l as [|x l IH]; intros H; simpl; [done|].
  destruct (H x (list_elem_of_here _ _)) as [y ->]. simpl. f_equal.
  apply IH. intros x' Hx'. apply H. by apply list_elem_of_further.
Qed.

Module Lookups.

(** X6.  A peer that [activate] has indexed is taken out again by
    [onPeerDeactivate] called with its id and its key: both indexes are
    what they were before the activation, and so is [size()]. *)
Theorem deactivate_undoes_activate (env : Env.t) (peer : PeerImp.t) (s s' : OverlayImpl.t) :
  activate env peer s = Ok tt s' ->
  exists s'',
    onPeerDeactivate (PeerImp.id peer) (PeerImp.getNodePublic peer) s' = Ok tt s''
    /\ m_shortIdMap s'' = m_shortIdMap s
    /\ m_publicKeyMap s'' = m_publicKeyMap s
    /\ size_of s'' = size_of s.
Proof.
  intros (Hi & Hk & Ei & Ek & _)%activate_ok.
  eexists. split; [apply onPeerDeactivate_ok|]. unfold size_of. simpl.
  rewrite Ei, Ek, !delete_insert_eq, !delete_id by done. done.
Qed.

Lemma deactivate_undoes_activate_witness :
  exists s' s'',
    activate Sample.env (sample_peer 1 1 10 "nA") init = Ok tt s'
    /\ onPeerDeactivate 1 "nA" s' = Ok tt s''
    /\ m_shortIdMap s'' = ∅ /\ m_publicKeyMap s'' = ∅.
Proof.
  eexists. 
  destruct (deactivate_undoes_activate Sample.env (sample_peer 1 1 10 "nA") init
              (final (activate Sample.env (sample_peer 1 1 10 "nA") init)))
    as (s'' & E & E1 & E2 & _); [vm_compute; reflexivity|].
  exists s''. split; [vm_compute; reflexivity|]. split; [exact E|]. split; assumption.
Defined.

(** X7.  A peer added under a slot that [m_peers] did not hold is taken out
    of [m_peers] again by [remove] of that slot, which leaves [m_peers] as
    it was before the [add]; the peer's entry in [list_] stays, so that
    [stop] still reaches the peer until its destructor has run.  A second
    [remove] of the slot aborts at the assertion. *)
Theorem remove_undoes_add_in_m_peers (peer : PeerImp.t) (s s' : OverlayImpl.t) :
  add peer s = Ok tt s' ->
  exists s'',
    remove (PeerImp.slot peer) s' = Ok tt s''
    /\ m_peers s'' = m_peers s
    /\ list_ s'' = list_ s'
    /\ is_Some (list_ s'' !! PeerImp.get peer)
    /\ remove (PeerImp.slot peer) s'' = Abort assert_remove_found s''.
Proof.
  rewrite add_cases. destruct (m_peers s !! PeerImp.slot peer) eqn:E; [done|].
  intros [= <-]. rewrite remove_cases. cbn [m_peers set_list_ set_m_peers].
  rewrite lookup_insert_eq. eexists. split; [reflexivity|].
  cbn [m_peers list_ set_m_peers set_list_].
  rewrite delete_insert_eq, delete_id by done.
  split; [done|]. split; [done|]. split.
  - unfold emplace. destruct (list_ s !! PeerImp.get peer) eqn:El; simpl.
    + rewrite El. eauto.
    + rewrite lookup_insert_eq. eauto.
  - rewrite remove_cases. cbn [m_peers set_m_peers]. by rewrite E.
Qed.

Lemma remove_undoes_add_in_m_peers_witness :
  exists s' s'',
    add (sample_peer 1 1 10 "") init = Ok tt s'
    /\ remove 10 s' = Ok tt s''
    /\ m_peers s'' = ∅
    /\ is_Some (list_ s'' !! 1%positive).
Proof.
  eexists.
  destruct (remove_undoes_add_in_m_peers (sample_peer 1 1 10 "") init
              (final (add (sample_peer 1 1 10 "") init)))
    as (s'' & E & E1 & _ & E2 & _); [vm_compute; reflexivity|].
  exists s''. split; [vm_compute; reflexivity|]. split; [exact E|]. split; assumption.
Defined.

(** X8.  [findPeerByShortID] never changes the state.  For the id of a peer
    just activated it gives what the peer's weak reference resolves to: the
    peer while it is alive, nothing once it has gone; after the peer's
    deactivation it gives nothing; and it gives nothing for an id that is
    not indexed. *)
Theorem find_follows_activation (env : Env.t) (peer : PeerImp.t) (s s' : OverlayImpl.t) :
  activate env peer s = Ok tt s' ->
  findPeerByShortID (PeerImp.id peer) s' = Ok (heap s !! PeerImp.get peer) s'
  /\ (forall s1, expire (PeerImp.get peer) s' = Ok tt s1 ->
        findPeerByShortID (PeerImp.id peer) s1 = Ok None s1)
  /\ (forall s2, onPeerDeactivate (PeerImp.id peer) (PeerImp.getNodePublic peer) s' = Ok tt s2 ->
        findPeerByShortID (PeerImp.id peer) s2 = Ok None s2)
  /\ (forall id, m_shortIdMap s' !! id = None -> findPeerByShortID id s' = Ok None s').
Proof.
  intros A. destruct (activate_heap _ _ _ _ A) as [Eh _].
  apply activate_ok in A as (_ & _ & Ei & _).
  assert (F : forall id t, findPeerByShortID id t
                = Ok (match m_shortIdMap t !! id with
                      | Some w => heap t !! w
                      | None => None
                      end) t).
  { intros id t. unfold findPeerByShortID, lock. run.
    by destruct (m_shortIdMap t !! id). }
  split; [|split; [|split]].
  - by rewrite F, Ei, lookup_insert_eq, Eh.
  - intros s1 [= <-]. rewrite F. cbn [m_shortIdMap heap set_heap].
    by rewrite Ei, lookup_insert_eq, lookup_delete_eq.
  - intros s2. rewrite onPeerDeactivate_ok. intros [= <-]. rewrite F.
    cbn [m_shortIdMap set_m_shortIdMap set_m_publicKeyMap].
    by rewrite lookup_delete_eq.
  - intros id Hid. by rewrite F, Hid.
Qed.

Lemma find_follows_activation_witness :
  findPeerByShortID 4 (final (activate Sample.env (sample_peer 5 4 5 "nA")
                                (final (run_steps Sample.env busy_day init))))
  = Ok (Some (ChildPeer {| PeerImp.get := 5; PeerImp.id := 4; PeerImp.slot := 5;
                           PeerImp.getNodePublic := ""; PeerImp.bundle := None;
                           PeerImp.buffer := []; PeerImp.remote := Sample.ep 3 51235;
                           PeerImp.inbound := false |}))
       (final (activate Sample.env (sample_peer 5 4 5 "nA")
                 (final (run_steps Sample.env busy_day init)))).
Proof.
  apply (find_follows_activation Sample.env (sample_peer 5 4 5 "nA")
           (final (run_steps Sample.env busy_day init))).
  vm_compute. reflexivity.
Defined.

(** X9.  [getActivePeers] never changes the state and returns the peers
    that the weak references of the public-key index resolve to, those and
    no others: an indexed peer that has gone is skipped.  So it returns at
    most [size()] peers, and exactly [size()] when every indexed peer is
    alive. *)
Theorem active_peers_are_the_live_indexed_peers (s : OverlayImpl.t) :
  exists peers,
    getActivePeers s = Ok peers s
    /\ (forall c, c ∈ peers <->
                  exists k w, m_publicKeyMap s !! k = Some w /\ heap s !! w = Some c)
    /\ length peers <= size_of s
    /\ ((forall k w, m_publicKeyMap s !! k = Some w -> is_Some (heap s !! w)) ->
        length peers = size_of s).
Proof.
  eexists. split; [reflexivity|]. split; [|split].
  - intros c. rewrite list_elem_of_omap. split.
    + intros ([k w] & Hin%elem_of_map_to_list & E). eauto.
    + intros (k & w & Hk & Hw). exists (k, w). split; [by apply elem_of_map_to_list|done].
  - unfold size_of. rewrite <- length_map_to_list. apply omap_length_le.
  - intros H. unfold size_of. rewrite <- length_map_to_list. apply omap_length_all.
    intros [k w] Hin%elem_of_map_to_list. by apply (H k w).
Qed.

Lemma active_peers_are_the_live_indexed_peers_witness :
  exists peers,
    getActivePeers (final (run_steps Sample.env
                             [DoConnect (Sample.ep 3 51235);
                              DoActivate (sample_peer 1 1 2 "nA")] init))
    = Ok peers (final (run_steps Sample.env
                         [DoConnect (Sample.ep 3 51235);
                          DoActivate (sample_peer 1 1 2 "nA")] init))
    /\ length peers = 1.
Proof.
  destruct (active_peers_are_the_live_indexed_peers
              (final (run_steps Sample.env
                        [DoConnect (Sample.ep 3 51235);
                         DoActivate (sample_peer 1 1 2 "nA")] init)))
    as (peers & E & _ & _ & L).
  exists peers. split; [exact E|]. rewrite L; [vm_compute; reflexivity|].
  intros k w.
  change (m_publicKeyMap _) with (<["nA" := 1%positive]> (∅ : gmap string positive)).
  intros [[_ <-]|[_ H]]%lookup_insert_Some; [vm_compute; eauto|].
  by rewrite lookup_empty in H.
Defined.

End Lookups.

(** ** Admission and what follows it *)

Lemma admitted_fields peer s :
  list_ s !! PeerImp.get peer = None ->
  m_peers (admitted peer s) = <[PeerImp.slot peer := PeerImp.get peer]> (m_peers s)
  /\ list_ (admitted peer s) = <[PeerImp.get peer := PeerImp.get peer]> (list_ s)
  /\ heap (admitted peer s) = heap s
  /\ next_id_ (admitted peer s) = next_id_ s
  /\ work_ (admitted peer s) = work_ s
  /\ m_shortIdMap (admitted peer s) = m_shortIdMap s
  /\ m_publicKeyMap (admitted peer s) = m_publicKeyMap s
  /\ log (admitted peer s) = log s ++ [EvPeerRun (PeerImp.get peer)].
Proof.
  intros Hl. unfold admitted. rewrite (emplace_fresh _ _ _ Hl). done.
Qed.

Lemma stop_signal_peer s a :
  EvPeerStop a ∈ stop_signals s <->
  (exists k, list_ s !! k = Some a) /\ exists p, heap s !! a = Some (ChildPeer p).
Proof.
  unfold stop_signals. rewrite list_elem_of_fmap. split.
  - intros ([w c] & E & Hin). apply elem_of_resolving in Hin as [Hk Hc].
    destruct c as [|p]; simpl in E; [done|]. injection E as ->. eauto.
  - intros [Hk [p Hp]]. exists (a, ChildPeer p). split; [done|].
    apply elem_of_resolving. eauto.
Qed.

Lemma stop_signal_timer s :
  EvTimerCancel ∈ stop_signals s <->
  exists k w, list_ s !! k = Some w /\ heap s !! w = Some ChildTimer.
Proof.
  unfold stop_signals. rewrite list_elem_of_fmap. split.
  - intros ([w c] & E & Hin). apply elem_of_resolving in Hin as [[k Hk] Hc].
    destruct c as [|p]; simpl in E; [|done]. eauto.
  - intros (k & w & Hk & Hw). exists (w, ChildTimer). split; [done|].
    apply elem_of_resolving. eauto.
Qed.

Module Admission.

(** X10.  [connect] with the work token engaged asks the PeerFinder for an
    outbound slot and does one of three things.  Given no slot it returns,
    having changed nothing.  Given a slot that [m_peers] does not hold it
    constructs an outbound peer under the next id (no key yet, no bundle),
    enters it in [m_peers] under the slot and in [list_], and runs it; the
    indexes and the token are as they were.  Given a slot that [m_peers]
    already holds it aborts at the assertion of [add]: the peer has been
    constructed and the id is used up, but the peer is in neither map and
    is not run. *)
Theorem connect_outcomes (env : Env.t) (remote_endpoint : Endpoint) (s : OverlayImpl.t) :
  is_Some (work_ s) ->
  (Env.new_outbound_slot env (log s) remote_endpoint = None ->
     connect env remote_endpoint s
     = Ok tt (set_log (log s ++ [EvNewOutboundSlot remote_endpoint]) s))
  /\ (forall slot,
        Env.new_outbound_slot env (log s) remote_endpoint = Some slot ->
        let peer := new_peer None [] remote_endpoint "" slot false s in
        (m_peers s !! slot = None ->
           exists s',
             connect env remote_endpoint s = Ok tt s'
             /\ log s' = log s ++ [EvNewOutboundSlot remote_endpoint; EvMakePeer peer;
                                   EvPeerRun (new_address s)]
             /\ m_peers s' = <[slot := new_address s]> (m_peers s)
             /\ list_ s' = <[new_address s := new_address s]> (list_ s)
             /\ heap s' = <[new_address s := ChildPeer peer]> (heap s)
             /\ next_id_ s' = next_id (next_id_ s)
             /\ work_ s' = work_ s
             /\ m_shortIdMap s' = m_shortIdMap s
             /\ m_publicKeyMap s' = m_publicKeyMap s)
        /\ (is_Some (m_peers s !! slot) ->
              exists s',
                connect env remote_endpoint s = Abort assert_add_slot s'
                /\ log s' = log s ++ [EvNewOutboundSlot remote_endpoint; EvMakePeer peer]
                /\ m_peers s' = m_peers s
                /\ list_ s' = list_ s
                /\ heap s' = <[new_address s := ChildPeer peer]> (heap s)
                /\ next_id_ s' = next_id (next_id_ s))).
Proof.
  intros [[] W]. rewrite connect_cases, W. cbv zeta. split.
  - by intros ->.
  - intros slot ->. change (new_address (set_log _ s)) with (new_address s).
    change (new_peer None [] remote_endpoint "" slot false (set_log _ s))
      with (new_peer None [] remote_endpoint "" slot false s).
    split.
    + intros ->. eexists. split; [reflexivity|].
      destruct (new_address_fresh s) as [_ Hl].
      match goal with |- context [admitted ?p ?t] =>
        destruct (admitted_fields p t) as (E1 & E2 & E3 & E4 & E5 & E6 & E7 & E8);
          [exact Hl|] end.
      rewrite E1, E2, E3, E4, E5, E6, E7, E8. cbn [log set_log].
      rewrite <- !app_assoc. done.
    + intros [w ->]. eexists. split; [reflexivity|].
      cbn [log set_log]. rewrite <- !app_assoc. done.
Qed.

Lemma connect_outcomes_witness :
  exists s',
    connect Sample.env (Sample.ep 3 51235) init = Ok tt s'
    /\ m_peers s' = <[2%positive := 1%positive]> ∅
    /\ next_id_ s' = 2%N.
Proof.
  destruct (connect_outcomes Sample.env (Sample.ep 3 51235) init) as [_ H];
    [by exists tt|].
  destruct (H 2%positive eq_refl) as [H1 _].
  destruct (H1 eq_refl) as (s' & E & _ & Em & _ & _ & En & _).
  exists s'. split; [exact E|]. split; [exact Em|exact En].
Defined.

(** X11.  A peer that [connect] has admitted is told to stop by the next
    [stop], as long as it is alive: its [stop] is among the calls [stop]
    makes.  Once the last reference to it has gone, [stop] passes over its
    entry in [list_]. *)
Theorem stop_reaches_a_connected_peer (env : Env.t) (remote_endpoint : Endpoint)
    (s s' : OverlayImpl.t) (slot : Slot) :
  Env.new_outbound_slot env (log s) remote_endpoint = Some slot ->
  connect env remote_endpoint s = Ok tt s' ->
  stop s' = Ok tt (set_log (log s' ++ stop_signals s') (set_work_ None s'))
  /\ EvPeerStop (new_address s) ∈ stop_signals s'
  /\ EvPeerStop (new_address s) ∉ stop_signals (final (expire (new_address s) s')).
Proof.
  intros Hs. rewrite connect_cases.
  destruct (work_ s) as [[]|] eqn:W; [|done]. cbv zeta. rewrite Hs.
  destruct (m_peers s !! slot); [done|]. intros [= <-].
  change (new_address (set_log _ s)) with (new_address s).
  destruct (new_address_fresh s) as [_ Hl].
  match goal with |- context [admitted ?p ?t] =>
    destruct (admitted_fields p t) as (E1 & E2 & E3 & E4 & E5 & E6 & E7 & E8);
      [exact Hl|] end.
  split; [|split].
  - rewrite stop_cases, E5. cbn [work_ set_log set_heap set_next_id_]. by rewrite W.
  - apply stop_signal_peer. rewrite E2, E3. cbn [heap set_log set_heap].
    split; [exists (new_address s)|eexists]; by rewrite lookup_insert_eq.
  - rewrite stop_signal_peer. intros [_ [p Hp]]. cbn [expire modify final heap set_heap] in Hp.
    by rewrite lookup_delete_eq in Hp.
Qed.

Lemma stop_reaches_a_connected_peer_witness :
  EvPeerStop 1 ∈ stop_signals (final (connect Sample.env (Sample.ep 3 51235) init)).
Proof.
  apply (stop_reaches_a_connected_peer Sample.env (Sample.ep 3 51235) init
           (final (connect Sample.env (Sample.ep 3 51235) init)) 2%positive);
    reflexivity.
Defined.

(** X12.  [onStart] makes the timer, enters it in [list_], keeps it in
    [timer_] and arms it: the timer is set to expire in one second and is
    waited on.  The next [stop] cancels it. *)
Theorem start_arms_the_timer_and_stop_cancels_it (s : OverlayImpl.t) :
  exists s',
    onStart s = Ok tt s'
    /\ timer_ s' = Some (new_address s)
    /\ list_ s' = <[new_address s := new_address s]> (list_ s)
    /\ heap s' = <[new_address s := ChildTimer]> (heap s)
    /\ log s' = log s ++ [EvTimerExpiresFromNow 1; EvTimerAsyncWait]
    /\ EvTimerCancel ∈ stop_signals s'
    /\ (is_Some (work_ s) ->
        exists rest, log (final (stop s')) = log s' ++ rest /\ EvTimerCancel ∈ rest).
Proof.
  destruct (new_address_fresh s) as [_ Hl].
  eexists. split; [reflexivity|]. cbn [timer_ list_ heap log set_log set_timer_ set_list_ set_heap].
  rewrite (emplace_fresh _ _ _ Hl). cbn [fst]. rewrite <- app_assoc.
  split; [done|]. split; [done|]. split; [done|]. split; [done|].
  match goal with |- ?P /\ _ => assert (C : P) end.
  { apply stop_signal_timer. exists (new_address s), (new_address s).
    cbn [list_ heap set_log set_timer_ set_list_ set_heap]. by rewrite !lookup_insert_eq. }
  split; [exact C|]. intros [[] W]. rewrite stop_cases.
  cbn [work_ set_log set_timer_ set_list_ set_heap]. rewrite W.
  eexists. split; [reflexivity|exact C].
Qed.

Lemma start_arms_the_timer_and_stop_cancels_it_witness :
  exists rest,
    log (final (stop (final (onStart init)))) = log (final (onStart init)) ++ rest
    /\ EvTimerCancel ∈ rest.
Proof.
  destruct (start_arms_the_timer_and_stop_cancels_it init) as (s' & E & _ & _ & _ & _ & _ & H).
  rewrite E. cbn [final]. apply H. by exists tt.
Defined.

(** X13.  The inbound path does not look at the work token.  After [stop]
    has cleared it, [onLegacyPeerHello] still admits and runs a peer for a
    connection that gets its slot, while [connect] aborts at its assertion;
    and the peer admitted then is never told to stop, every later [stop]
    being a call that changes nothing. *)
Theorem inbound_admission_ignores_the_work_token (env : Env.t) (ssl_bundle : Transport)
    (buffer : list N) (remote_endpoint : Endpoint) (s : OverlayImpl.t)
    (local_endpoint : Endpoint) (slot : Slot) :
  work_ s = None ->
  Env.local_endpoint env (log s) ssl_bundle = (0%N, local_endpoint) ->
  Env.new_inbound_slot env (log s ++ [EvLocalEndpoint ssl_bundle])
    local_endpoint remote_endpoint = Some slot ->
  m_peers s !! slot = None ->
  exists s',
    onLegacyPeerHello env ssl_bundle buffer remote_endpoint s = Ok tt s'
    /\ EvPeerRun (new_address s) ∈ log s'
    /\ m_peers s' !! slot = Some (new_address s)
    /\ list_ s' !! new_address s = Some (new_address s)
    /\ is_Some (heap s' !! new_address s)
    /\ work_ s' = None
    /\ stop s' = Ok tt s'
    /\ connect env remote_endpoint s' = Abort assert_work s'.
Proof.
  intros W El Sl Hslot.
  rewrite onLegacyPeerHello_cases, El. cbn [fst snd negb N.eqb]. cbv zeta.
  cbn [log set_log]. rewrite Sl, Hslot. eexists. split; [reflexivity|].
  change (new_address (set_log _ s)) with (new_address s).
  destruct (new_address_fresh s) as [_ Hl].
  match goal with |- context [admitted ?p ?t] =>
    destruct (admitted_fields p t) as (E1 & E2 & E3 & E4 & E5 & E6 & E7 & E8);
      [exact Hl|] end.
  rewrite stop_cases, connect_cases, E1, E2, E3, E5, E8.
  cbn [work_ heap set_log set_heap set_next_id_ new_peer PeerImp.get PeerImp.slot].
  rewrite W, !lookup_insert_eq.
  split; [set_solver|]. done.
Qed.

Lemma inbound_admission_ignores_the_work_token_witness :
  exists s',
    onLegacyPeerHello Sample.env 1%positive [22%N] (Sample.ep 2 40000) (final (stop init))
    = Ok tt s'
    /\ EvPeerRun 1 ∈ log s'
    /\ stop s' = Ok tt s'.
Proof.
  destruct (inbound_admission_ignores_the_work_token Sample.env 1%positive [22%N]
              (Sample.ep 2 40000) (final (stop init)) (Sample.ep 1 51235) 2%positive)
    as (s' & E & R & _ & _ & _ & _ & S & _); [reflexivity..|].
  exists s'. split; [exact E|]. split; [exact R|exact S].
Defined.

End Admission.

(** ** Auto-connect and the broadcast *)

Lemma connect_requests env remote_endpoint s s' :
  connect env remote_endpoint s = Ok tt s' ->
  List.filter is_slot_request (log s')
  = List.filter is_slot_request (log s) ++ [EvNewOutboundSlot remote_endpoint].
Proof.
  rewrite connect_cases. destruct (work_ s); [|done]. cbv zeta.
  destruct (Env.new_outbound_slot env (log s) remote_endpoint) as [slot|].
  - destruct (m_peers s !! slot); [done|]. intros [= <-].
    cbn [admitted log set_log set_list_ set_m_peers set_heap set_next_id_].
    by rewrite !List.filter_app, !app_nil_r.
  - intros [= <-]. cbn [log set_log]. by rewrite List.filter_app.
Qed.

Lemma connects_requests env (targets : list Endpoint) : forall s s',
  for_each targets (connect env) s = Ok tt s' ->
  List.filter is_slot_request (log s')
  = List.filter is_slot_request (log s) ++ (EvNewOutboundSlot <$> targets).
Proof.
  induction targets as [|r targets IH]; intros s s'.
  - intros [= <-]. by rewrite app_nil_r.
  - rewrite for_each_cons. destruct (connect env r s) as [[] s1|] eqn:E; [|done].
    intros H. rewrite (IH _ _ H), (connect_requests _ _ _ _ E), <- app_assoc. done.
Qed.

Lemma autoConnect_run env s :
  autoConnect env s
  = for_each (Env.autoconnect env (log s)) (connect env)
      (set_log (log s ++ [EvAutoconnect]) s).
Proof. unfold autoConnect. by rewrite bind_ask. Qed.

Lemma stays_stopping_refl s : stays_stopping s s.
Proof. by intros ?. Qed.

Lemma stays_stopping_trans a b c : stays_stopping a b -> stays_stopping b c -> stays_stopping a c.
Proof. unfold stays_stopping. auto. Qed.

Lemma stays_stopping_log s v : stays_stopping s (set_log v s).
Proof. by intros ?. Qed.

Lemma step_keeps_stopping env st : keeps stays_stopping (run_step env st).
Proof.
  destruct st; unfold_members;
    repeat first
      [ keeps_step stays_stopping_refl stays_stopping_trans stays_stopping_log
      | progress cbv beta
      | apply keeps_modify; intros ? ?; first [assumption | reflexivity] ].
Qed.

Module Maintenance.

(** X14.  [autoConnect] asks the PeerFinder for the targets and calls
    [connect] on each, in their order.  It gets to its end exactly when
    there is no target or the work token is engaged, and every slot the
    PeerFinder grants on the way is one [m_peers] does not hold.  A run that
    gets to its end has made these calls and no other: for every target, in
    order, the request for an outbound slot and, where a slot is granted,
    the construction of a peer and its [run]; so it has asked for one slot
    per target.  With no target it makes no [connect] and returns even when
    the token is cleared; with the token cleared and a target it aborts at
    the assertion of the first [connect], having asked for no slot. *)
Theorem autoConnect_asks_once_per_target (env : Env.t) (s : OverlayImpl.t) :
  let targets := Env.autoconnect env (log s) in
  let s1 := set_log (log s ++ [EvAutoconnect]) s in
  (completes (autoConnect env s) = true <->
     (targets = [] \/ is_Some (work_ s)) /\ grants_new env targets s1 = true)
  /\ (forall s', autoConnect env s = Ok tt s' ->
        s' = connected_all env targets s1
        /\ log s' = log s ++ EvAutoconnect :: connects_of env targets s1
        /\ List.filter is_slot_request (log s')
           = List.filter is_slot_request (log s) ++ (EvNewOutboundSlot <$> targets))
  /\ (targets = [] -> autoConnect env s = Ok tt s1)
  /\ (work_ s = None -> targets <> [] -> autoConnect env s = Abort assert_work s1).
Proof.
  cbv zeta. rewrite autoConnect_run.
  set (targets := Env.autoconnect env (log s)).
  set (s1 := set_log (log s ++ [EvAutoconnect]) s).
  assert (Hiff : completes (for_each targets (connect env) s1) = true <->
                 (targets = [] \/ is_Some (work_ s)) /\ grants_new env targets s1 = true).
  { split.
    - intros C. exact (connects_completed env targets s1 C).
    - intros [W G]. by rewrite (connects_connected env targets s1 W G). }
  split; [exact Hiff|]. split; [|split].
  - intros s' H.
    assert (C : completes (for_each targets (connect env) s1) = true) by (by rewrite H).
    apply Hiff in C as [W G].
    pose proof (connects_connected env targets s1 W G) as E. rewrite H in E.
    injection E as ->. split; [reflexivity|]. split.
    + rewrite connected_all_log. unfold s1 at 1. cbn [log set_log].
      by rewrite <- app_assoc.
    + rewrite (connects_requests _ _ _ _ H). unfold s1. cbn [log set_log].
      by rewrite List.filter_app, app_nil_r.
  - by intros ->.
  - intros W Ht. destruct targets as [|r targets]; [done|].
    rewrite for_each_cons, connect_cases. unfold s1. cbn [work_ set_log]. by rewrite W.
Qed.

Lemma autoConnect_asks_once_per_target_witness :
  completes (autoConnect Sample.env (final (autoConnect Sample.env init))) = true
  /\ List.filter is_slot_request
       (log (final (autoConnect Sample.env (final (autoConnect Sample.env init)))))
     = [EvNewOutboundSlot (Sample.ep 2 0); EvNewOutboundSlot (Sample.ep 3 51235);
        EvNewOutboundSlot (Sample.ep 2 0); EvNewOutboundSlot (Sample.ep 3 51235)]
  /\ autoConnect Sample.env (final (stop init))
     = Abort assert_work
         (set_log (log (final (stop init)) ++ [EvAutoconnect]) (final (stop init))).
Proof.
  destruct (autoConnect_asks_once_per_target Sample.env (final (autoConnect Sample.env init)))
    as (Hiff & Hok & _ & _).
  destruct (autoConnect_asks_once_per_target Sample.env (final (stop init)))
    as (_ & _ & _ & Habort).
  assert (C : completes (autoConnect Sample.env (final (autoConnect Sample.env init))) = true).
  { apply Hiff. split; [right; vm_compute; eauto|vm_compute; reflexivity]. }
  split; [exact C|]. split.
  - destruct (autoConnect Sample.env (final (autoConnect Sample.env init)))
      as [[] s'|site s'] eqn:E; [|discriminate C].
    destruct (Hok s' eq_refl) as (_ & _ & F). cbn [final]. rewrite F.
    vm_compute. reflexivity.
  - apply Habort; [reflexivity|discriminate].
Defined.

(** X15.  [sendEndpoints] never aborts and changes nothing of the manager.
    It asks the PeerFinder for its plan and sends to a peer the endpoints of
    an entry of the plan exactly when [m_peers] holds the entry's slot and
    the peer under it is alive: an entry whose slot has been removed, or
    whose peer has gone, is passed over, and there are at most as many sends
    as entries. *)
Theorem sendEndpoints_reaches_the_live_peers_of_the_plan (env : Env.t) (s : OverlayImpl.t) :
  exists sends,
    sendEndpoints env s = Ok tt (set_log (log s ++ EvBuildEndpointsForPeers :: sends) s)
    /\ (forall e, e ∈ sends <->
          exists slot eps w,
            e = EvPeerSendEndpoints w eps
            /\ (slot, eps) ∈ Env.buildEndpointsForPeers env (log s)
            /\ m_peers s !! slot = Some w
            /\ is_Some (heap s !! w))
    /\ length sends <= length (Env.buildEndpointsForPeers env (log s)).
Proof.
  eexists. split; [apply sendEndpoints_run|].
  generalize (Env.buildEndpointsForPeers env (log s)). intros plan. split.
  - intros e. rewrite list_elem_of_In, in_flat_map. split.
    + intros ([slot eps] & Hin%list_elem_of_In & He). unfold sends_of in He. simpl in He.
      destruct (m_peers s !! slot) as [w|] eqn:Em; [|done].
      destruct (heap s !! w) as [c|] eqn:Eh; [|done].
      destruct He as [<-|[]]. exists slot, eps, w. eauto.
    + intros (slot & eps & w & -> & Hin & Em & [c Eh]). exists (slot, eps).
      split; [by apply list_elem_of_In|]. unfold sends_of. simpl. rewrite Em, Eh. by left.
  - induction plan as [|e plan IH]; [done|]. cbn [flat_map]. rewrite length_app.
    cbn [length]. unfold sends_of at 1.
    destruct (m_peers s !! e.1) as [w|]; [destruct (heap s !! w)|]; simpl; lia.
Qed.

(** X16.  Once the manager is stopping it stays so, whatever runs, and the
    timer is at its end: a tick then does nothing (no [once_per_second], no
    broadcast, no connection attempt) and does not wait again. *)
Theorem a_stopping_manager_ticks_no_more (env : Env.t) (steps : list Step)
    (s : OverlayImpl.t) :
  isStopping s = true ->
  isStopping (final (run_steps env steps s)) = true
  /\ Timer_on_timer env 0 (final (run_steps env steps s))
     = Ok tt (final (run_steps env steps s)).
Proof.
  intros St.
  assert (St' : isStopping (final (run_steps env steps s)) = true).
  { apply (keeps_for_each stays_stopping stays_stopping_refl stays_stopping_trans
             steps (run_step env) (step_keeps_stopping env) s St). }
  split; [exact St'|]. rewrite Timer_on_timer_quiet by auto. cbn [N.eqb negb andb].
  rewrite app_nil_r. by destruct (final _).
Qed.

Lemma a_stopping_manager_ticks_no_more_witness :
  Timer_on_timer Sample.env 0 (final (run_steps Sample.env busy_day winding_down))
  = Ok tt (final (run_steps Sample.env busy_day winding_down)).
Proof.
  apply (a_stopping_manager_ticks_no_more Sample.env busy_day winding_down). reflexivity.
Defined.

End Maintenance.

(** ** onPrepare *)

Module Preparation.
Import Prepare.

(** X17.  [onPrepare] pushes one configuration to the PeerFinder, first,
    and then always asks the resolver for the bootstrap names: the
    configured ones, or the one default name when none is configured, so
    never an empty list and the test before that call never fails.  The
    fixed peers are asked for exactly when the server is not standalone and
    has some configured.  The configuration pushed is the tuned one; before
    tuning it listens on the overlay port, wants incoming connections only
    when the peer is not private and the port is not 0, connects
    automatically only when the server is neither standalone nor private,
    and its out-peer target is computed after the maximum has been
    overridden. *)
Theorem onPrepare_calls (d : Deps) (g : Settings) (port : N) :
  exists config names rest,
    onPrepare d g port = setConfig (applyTuning d config) :: resolve names bootstrap :: rest
    /\ names <> []
    /\ names = (if empty (IPS g) then ["r.ripple.com 51235"] else IPS g)
    /\ rest = (if RUN_STANDALONE g || empty (IPS_FIXED g) then []
               else [resolve (IPS_FIXED g) fixed])
    /\ (forall ns h, resolve ns h ∈ onPrepare d g port -> ns <> [])
    /\ listeningPort config = port
    /\ (wantIncoming config = true <-> PEER_PRIVATE g = false /\ port <> 0%N)
    /\ (autoConnect config = true <-> RUN_STANDALONE g = false /\ PEER_PRIVATE g = false)
    /\ maxPeers config = (if (PEERS_MAX g =? 0)%N then maxPeers (Config_default d)
                          else PEERS_MAX g)
    /\ outPeers config
       = calcOutPeers d (set_maxPeers (maxPeers config) (Config_default d)).
Proof.
  unfold onPrepare. cbv zeta.
  set (c0 := if negb (PEERS_MAX g =? 0)%N then set_maxPeers (PEERS_MAX g) (Config_default d)
             else Config_default d).
  assert (Hc0 : c0 = set_maxPeers (maxPeers c0) (Config_default d)).
  { unfold c0. destruct (PEERS_MAX g =? 0)%N; simpl; [|done]. by destruct (Config_default d). }
  assert (Hnames : (if empty (IPS g) then IPS g ++ ["r.ripple.com 51235"] else IPS g)
                   = (if empty (IPS g) then ["r.ripple.com 51235"] else IPS g)).
  { by destruct (IPS g). }
  rewrite Hnames.
  assert (Hne : (if empty (IPS g) then ["r.ripple.com 51235"] else IPS g) <> []).
  { by destruct (IPS g). }
  assert (He : empty (if empty (IPS g) then ["r.ripple.com 51235"] else IPS g) = false).
  { by destruct (IPS g). }
  rewrite He. cbn [negb app].
  eexists _, _, _. split; [reflexivity|]. split; [exact Hne|]. split; [reflexivity|].
  split; [by destruct (RUN_STANDALONE g), (empty (IPS_FIXED g))|].
  split.
  { intros ns h Hin. apply elem_of_cons in Hin as [?|Hin]; [done|].
    apply elem_of_cons in Hin as [[= -> _]|Hin]; [exact Hne|].
    destruct (RUN_STANDALONE g); [by apply elem_of_nil in Hin|].
    destruct (IPS_FIXED g) eqn:E; [by apply elem_of_nil in Hin|].
    apply list_elem_of_singleton in Hin as [= -> _]. done. }
  cbn [listeningPort wantIncoming autoConnect maxPeers outPeers
       set_features set_listeningPort set_autoConnect set_wantIncoming set_outPeers].
  split; [done|]. split.
  { rewrite andb_true_iff, !negb_true_iff, N.eqb_neq. done. }
  split.
  { rewrite andb_true_iff, !negb_true_iff. done. }
  split.
  { unfold c0. by destruct (PEERS_MAX g =? 0)%N. }
  by rewrite <- Hc0.
Qed.

Lemma onPrepare_calls_witness :
  exists config,
    onPrepare sample_deps sample_settings 51235
    = [setConfig config; resolve ["r.ripple.com 51235"] bootstrap;
       resolve ["s1.ripple.com 51235"] fixed]
    /\ wantIncoming config = false
    /\ autoConnect config = false.
Proof.
  destruct (onPrepare_calls sample_deps sample_settings 51235)
    as (config & names & rest & E & _ & -> & -> & H & _ & W & A & _).
  exists (applyTuning sample_deps config). split; [exact E|].
  change (applyTuning sample_deps config) with config.
  split.
  - destruct (wantIncoming config); [|done]. by destruct (proj1 W eq_refl).
  - destruct (autoConnect config); [|done]. by destruct (proj1 A eq_refl) as [_ ?].
Defined.

(** X18.  What the resolver hands back goes on to the PeerFinder only when
    there is something in it: a name that resolved to no address is dropped,
    and what is forwarded is never empty.  A bootstrap name is forwarded
    under "config: " and the name, with one address string per address, in
    their order; a fixed peer is forwarded under its name with the addresses
    as they came. *)
Theorem on_resolved_forwards_nothing_empty (d : Deps) (handler : Handler) (name : string)
    (addresses : list Endpoint) :
  (addresses = [] -> on_resolved d handler name addresses = [])
  /\ (addresses <> [] ->
        on_resolved d handler name addresses
        = [match handler with
           | bootstrap => addFallbackStrings ("config: " ++ name) (to_string d <$> addresses)
           | fixed => addFixedPeer name addresses
           end])
  /\ (forall n ips, addFallbackStrings n ips ∈ on_resolved d handler name addresses ->
        ips <> [] /\ length ips = length addresses)
  /\ (forall n l, addFixedPeer n l ∈ on_resolved d handler name addresses -> l <> []).
Proof.
  destruct addresses as [|a addresses]; destruct handler; cbn.
  all: split; [done|]; split; [done|]; split.
  all: try (intros ? ? Hin; by apply elem_of_nil in Hin).
  all: intros ? ? Hin; apply list_elem_of_singleton in Hin; try done.
  - injection Hin as -> ->. split; [done|]. cbn. by rewrite length_map.
  - by injection Hin as -> ->.
Qed.

Lemma on_resolved_forwards_nothing_empty_witness :
  on_resolved sample_deps bootstrap "r.ripple.com 51235" [Sample.ep 1 51235; Sample.ep 2 51235]
  = [addFallbackStrings "config: r.ripple.com 51235" ["10.0.0.1"; "10.0.0.2"]]
  /\ on_resolved sample_deps fixed "s1.ripple.com" [] = [].
Proof.
  destruct (on_resolved_forwards_nothing_empty sample_deps bootstrap "r.ripple.com 51235"
              [Sample.ep 1 51235; Sample.ep 2 51235]) as (_ & H1 & _).
  destruct (on_resolved_forwards_nothing_empty sample_deps fixed "s1.ripple.com" [])
    as (H2 & _).
  split; [exact (H1 ltac:(discriminate))|exact (H2 eq_refl)].
Defined.

End Preparation.

(** ** The ids of the peers *)

Lemma keeps_ids_refl s : keeps_ids s s.
Proof. by intros ?. Qed.

Lemma keeps_ids_trans a b c : keeps_ids a b -> keeps_ids b c -> keeps_ids a c.
Proof. unfold keeps_ids. auto. Qed.

Lemma made_ids_app h1 h2 : made_ids (h1 ++ h2) = made_ids h1 ++ made_ids h2.
Proof. unfold made_ids. apply omap_app. Qed.

(** Relations that every call of some kind keeps. *)
Section KeepsCalls.
Context (R : OverlayImpl.t -> OverlayImpl.t -> Prop) (ok : Event -> bool).
Hypothesis R_refl : forall s, R s s.
Hypothesis R_trans : forall a b c, R a b -> R b c -> R a c.
Hypothesis R_call : forall e s, ok e = true -> R s (set_log (log s ++ [e]) s).

Lemma keeps_call_of e : ok e = true -> keeps R (call e).
Proof. intros He s. by apply R_call. Qed.

Lemma keeps_journal_of env sev : ok (EvJournal sev) = true -> keeps R (journal env sev).
Proof.
  intros He. unfold journal. destruct (Env.journal_active env sev);
    [by apply keeps_call_of|by apply keeps_ret].
Qed.

Lemma keeps_ask_of {A} (answer : list Event -> A) e : ok e = true -> keeps R (ask answer e).
Proof.
  intros He. unfold ask.
  apply (keeps_bind _ R_trans); [by apply keeps_gets|intros a].
  apply (keeps_bind _ R_trans); [by apply keeps_call_of|intros _].
  by apply keeps_ret.
Qed.
End KeepsCalls.

Ltac calls_step Hrefl Htrans Hcall :=
  first
    [ apply (keeps_ret _ Hrefl)
    | apply (keeps_gets _ Hrefl)
    | apply (keeps_assert _ Hrefl)
    | apply (keeps_lock _ Hrefl)
    | apply (keeps_call_of _ _ Hcall); reflexivity
    | apply (keeps_journal_of _ _ Hrefl Hcall); reflexivity
    | apply (keeps_ask_of _ _ Hrefl Htrans Hcall); reflexivity
    | apply (keeps_bind _ Htrans); [|intros ?]
    | apply (keeps_for_each _ Hrefl Htrans); intros ?
    | match goal with
      | |- keeps _ (match ?x with _ => _ end) => destruct x
      end
    | progress cbv zeta
    | progress cbv beta ].

Lemma keeps_ids_call e s : makes_no_peer e = true -> keeps_ids s (set_log (log s ++ [e]) s).
Proof.
  intros He (k & E1 & E2). exists k. cbn. split; [done|].
  rewrite made_ids_app, E2. destruct e; try discriminate He; cbn; by rewrite app_nil_r.
Qed.

Lemma next_nth_id k : next_id (nth_id k) = nth_id (S k).
Proof.
  unfold next_id, nth_id. rewrite N.Div0.add_mod_idemp_l. f_equal. lia.
Qed.

Lemma ids_make_PeerImp bundle buffer remote_endpoint publicKey slot inbound :
  keeps keeps_ids (make_PeerImp bundle buffer remote_endpoint publicKey slot inbound).
Proof.
  intros s (k & E1 & E2). rewrite make_PeerImp_run. exists (S k).
  cbn [final next_id_ log set_log set_heap set_next_id_].
  split; [by rewrite E1, next_nth_id|].
  rewrite made_ids_app, E2, seq_S, fmap_app. cbn [made_ids omap list_omap new_peer PeerImp.id].
  by rewrite E1.
Qed.

Lemma step_keeps_ids env st : keeps keeps_ids (run_step env st).
Proof.
  destruct st;
    unfold run_step, onStop, stop, onChildrenStopped, checkStopped, Child_dtor, remove_child,
      connect, onLegacyPeerHello, onHandoff, makeRedirectResponse, add_and_run,
      add, remove, Timer_on_timer, Timer_wait, sendEndpoints, autoConnect, findPeerByShortID,
      getActivePeers, expire, onStart, Timer_run, Timer_wait, Child_stop, activate,
      onPeerDeactivate, size;
    repeat first
      [ apply ids_make_PeerImp
      | calls_step keeps_ids_refl keeps_ids_trans keeps_ids_call
      | apply keeps_modify; intros ? (k & E1 & E2); exists k; split; assumption ].
Qed.

Lemma elem_of_made_ids h i :
  i ∈ made_ids h <-> exists p, EvMakePeer p ∈ h /\ PeerImp.id p = i.
Proof.
  unfold made_ids. rewrite list_elem_of_omap. split.
  - intros (e & He & E). destruct e; try discriminate E. injection E as <-. eauto.
  - intros (p & Hp & <-). by exists (EvMakePeer p).
Qed.

Lemma wrap_inj (M a b : N) :
  (1 <= a <= M)%N -> (1 <= b <= M)%N -> (a mod M = b mod M)%N -> a = b.
Proof.
  intros Ha Hb.
  assert (W : forall c, (1 <= c <= M)%N -> (c mod M)%N = if (c =? M)%N then 0%N else c).
  { intros c Hc. destruct (N.eqb_spec c M) as [->|Hne].
    - apply N.Div0.mod_same.
    - apply N.mod_small. lia. }
  rewrite (W a Ha), (W b Hb).
  destruct (N.eqb_spec a M), (N.eqb_spec b M); lia.
Qed.

Lemma NoDup_fmap_same {A B} (f : A -> B) (l : list A) x y :
  NoDup (f <$> l) -> x ∈ l -> y ∈ l -> f x = f y -> x = y.
Proof.
  induction l as [|z l IH]; intros Hnd Hx Hy E; [by apply elem_of_nil in Hx|].
  rewrite fmap_cons in Hnd. apply NoDup_cons in Hnd as [Hz Hnd].
  apply elem_of_cons in Hx as [->|Hx]; apply elem_of_cons in Hy as [->|Hy].
  - done.
  - destruct Hz. rewrite E. apply list_elem_of_fmap. eauto.
  - destruct Hz. rewrite <- E. apply list_elem_of_fmap. eauto.
  - by apply IH.
Qed.

Lemma NoDup_nth_ids (k : nat) :
  NoDup (nth_id <$> seq 1 k) <-> (N.of_nat k <= 2 ^ id_bits)%N.
Proof.
  unfold nth_id. generalize (2 ^ id_bits)%N (N.pow_nonzero 2 id_bits ltac:(done)).
  intros M HM. split.
  - intros Hnd. destruct (N.le_gt_cases (N.of_nat k) M) as [|Hgt]; [done|].
    assert (E : 1%nat = S (N.to_nat M)); [|lia].
    apply (NoDup_fmap_same (fun i => (N.of_nat i mod M)%N) (seq 1 k)); [exact Hnd|..].
    + apply elem_of_seq. lia.
    + apply elem_of_seq. lia.
    + replace (N.of_nat (S (N.to_nat M))) with (1 + 1 * M)%N by lia.
      by rewrite N.Div0.mod_add.
  - intros Hk. apply NoDup_fmap_2_strong; [|apply NoDup_seq].
    intros x y Hx%elem_of_seq Hy%elem_of_seq E.
    apply Nat2N.inj. apply (wrap_inj M); [lia|lia|exact E].
Qed.

Module Ids.

(** X19.  [next_id_] starts at 1 and only the construction of a peer moves
    it, by one and around the width of [Peer::id_t]: in every state the
    manager gets into from its construction, the peers constructed so far
    have the ids 1, 2, ..., 4294967295, 0, 1, ... in the order of their
    construction, and [next_id_] is the id of the next.  So the peers
    constructed have pairwise different ids exactly as long as there are at
    most 2^32 of them; from the next one on, ids are handed out again. *)
Theorem peer_ids_wrap_at_their_width (env : Env.t) (steps : list Step) :
  exists k : nat,
    made_ids (log (final (run_steps env steps init))) = nth_id <$> seq 1 k
    /\ next_id_ (final (run_steps env steps init)) = nth_id (S k)
    /\ (NoDup (made_ids (log (final (run_steps env steps init))))
        <-> (N.of_nat k <= 2 ^ id_bits)%N)
    /\ (forall p, EvMakePeer p ∈ log (final (run_steps env steps init)) ->
          exists i, (1 <= i <= k)%nat /\ PeerImp.id p = nth_id i).
Proof.
  assert (I : ids_in_order (final (run_steps env steps init))).
  { apply (keeps_for_each keeps_ids keeps_ids_refl keeps_ids_trans
             steps (run_step env) (step_keeps_ids env) init).
    by exists 0%nat. }
  destruct I as (k & E1 & E2). exists k. split; [exact E2|]. split; [exact E1|]. split.
  - rewrite E2. apply NoDup_nth_ids.
  - intros p Hp.
    assert (Hi : PeerImp.id p ∈ made_ids (log (final (run_steps env steps init)))).
    { apply elem_of_made_ids. eauto. }
    rewrite E2 in Hi. apply list_elem_of_fmap in Hi as (i & -> & Hi%elem_of_seq).
    exists i. split; [lia|done].
Qed.

Lemma peer_ids_wrap_at_their_width_witness :
  made_ids (log (final (run_steps Sample.env busy_day init))) = [1; 2; 3; 4]%N
  /\ NoDup (made_ids (log (final (run_steps Sample.env busy_day init)))).
Proof.
  destruct (peer_ids_wrap_at_their_width Sample.env busy_day) as (k & E & _ & [_ H] & _).
  assert (Hk : k = 4%nat).
  { apply (f_equal length) in E. rewrite length_fmap, length_seq in E.
    rewrite <- E. vm_compute. reflexivity. }
  subst k. split; [vm_compute; reflexivity|]. apply H. vm_compute. discriminate.
Defined.

End Ids.

(** ** When the manager reports itself stopped *)

Lemma reports_nothing_refl s : reports_nothing s s.
Proof. reflexivity. Qed.

Lemma reports_nothing_trans a b c :
  reports_nothing a b -> reports_nothing b c -> reports_nothing a c.
Proof. unfold reports_nothing. congruence. Qed.

Lemma reports_nothing_call e s :
  negb (is_stopped_event e) = true -> reports_nothing s (set_log (log s ++ [e]) s).
Proof.
  intros He. unfold reports_nothing, reported. cbn [log set_log].
  rewrite List.filter_app, length_app. destruct e; try discriminate He; cbn; lia.
Qed.

Lemma step_reports_nothing env st :
  may_report st = false -> keeps reports_nothing (run_step env st).
Proof.
  intros H. destruct st; try discriminate H; unfold_members;
    repeat first
      [ calls_step reports_nothing_refl reports_nothing_trans reports_nothing_call
      | apply keeps_modify; intros ?; reflexivity ].
Qed.

Lemma reported_stopped s t :
  log t = log s ++ [EvStopped] -> reported t = S (reported s).
Proof.
  intros E. unfold reported. rewrite E, List.filter_app, length_app. cbn. lia.
Qed.

Module Reports.

(** X20.  The manager reports itself stopped at two places only, when its
    Stoppable children have stopped and when a child of its own has gone,
    once at a time, and only in a state in which it is stopping, its
    Stoppable children have stopped and [list_] is empty: it never reports
    while a child is left. *)
Theorem stopped_is_reported_only_when_all_is_gone (env : Env.t) (st : Step)
    (s : OverlayImpl.t) :
  reported (final (run_step env st s)) <> reported s ->
  may_report st = true
  /\ log (final (run_step env st s)) = log s ++ [EvStopped]
  /\ reported (final (run_step env st s)) = S (reported s)
  /\ isStopping (final (run_step env st s)) = true
  /\ areChildrenStopped (final (run_step env st s)) = true
  /\ list_ (final (run_step env st s)) = ∅.
Proof.
  intros Hr. destruct (may_report st) eqn:M.
  2:{ destruct Hr. apply (step_reports_nothing env st M s). }
  split; [done|].
  destruct st; try discriminate M.
  - revert Hr. unfold run_step, onChildrenStopped, checkStopped. run.
    destruct (isStopping s) eqn:St; simpl; [|done].
    destruct (bool_decide (list_ s = ∅)) eqn:El; simpl; [|done].
    intros _. apply bool_decide_eq_true in El.
    split; [done|]. split; [by apply reported_stopped|done].
  - revert Hr. unfold run_step, Child_dtor. rewrite remove_child_cases. cbv zeta.
    destruct (bool_decide (delete child (list_ s) = ∅)) eqn:El; simpl; [|done].
    unfold reports. destruct (isStopping s) eqn:St; simpl; [|done].
    destruct (areChildrenStopped s) eqn:Ac; simpl; [|done].
    intros _. apply bool_decide_eq_true in El.
    split; [done|]. split; [by apply reported_stopped|done].
Qed.

Lemma stopped_is_reported_only_when_all_is_gone_witness :
  log (final (run_step Sample.env DoChildrenStopped
                (final (run_steps Sample.env [EnvStopping; DoStop] init))))
  = [EvStopped].
Proof.
  apply (stopped_is_reported_only_when_all_is_gone Sample.env DoChildrenStopped
           (final (run_steps Sample.env [EnvStopping; DoStop] init))).
  vm_compute. discriminate.
Defined.

End Reports.

(** ** What [onHandoff] leaves behind *)

Lemma onHandoff_with_slot_cases env ssl_bundle remote_endpoint request slot t :
  connect_as_peer env request = true ->
  onHandoff_with_slot env ssl_bundle remote_endpoint request slot t
  = let moved := {| Handoff.moved := true; Handoff.keep_alive := false;
                    Handoff.response := None |} in
    if negb (the_hello env request (log t)).2
    then Ok moved (set_log (log_hello (log t)) t)
    else if negb (the_shared_value env ssl_bundle (log t)).2
    then Ok moved (set_log (log_shared_value ssl_bundle (log t)) t)
    else if negb (the_key env ssl_bundle request (log t)).2
    then Ok moved (set_log (log_key env ssl_bundle request (log t)) t)
    else
      match the_activation env ssl_bundle request slot (log t) with
      | PeerFinder.success =>
          let peer := new_peer (Some ssl_bundle) [] remote_endpoint
                        (the_key env ssl_bundle request (log t)).1 slot true t in
          let t2 := set_log (log_activation env ssl_bundle request slot (log t)
                             ++ [EvMakePeer peer])
                      (set_heap (<[new_address t := ChildPeer peer]> (heap t))
                         (set_next_id_ (next_id (next_id_ t)) t)) in
          match m_peers t !! slot with
          | Some _ => Abort assert_add_slot t2
          | None => Ok moved (admitted peer t2)
          end
      | _ =>
          (journal env Trace ;;
           let! response := makeRedirectResponse env slot request (address remote_endpoint) in
           ret (redirected response request))
            (set_log (log_activation env ssl_bundle request slot (log t)) t)
      end.
Proof.
  intros C. unfold onHandoff_with_slot. rewrite C. cbn [negb]. cbv zeta.
  rewrite bind_ask. fold (the_hello env request (log t)).
  destruct (the_hello env request (log t)) as [hello ok1] eqn:E1.
  cbn [snd]. destruct ok1; cbn [negb]; [|reflexivity].
  rewrite bind_ask. cbn [log set_log]. fold (log_hello (log t)).
  fold (the_shared_value env ssl_bundle (log t)).
  destruct (the_shared_value env ssl_bundle (log t)) as [sharedValue ok2] eqn:E2.
  cbn [snd]. destruct ok2; cbn [negb]; [|reflexivity].
  rewrite bind_ask. cbn [log set_log]. fold (log_shared_value ssl_bundle (log t)).
  assert (Ek : Env.verifyHello env (log_shared_value ssl_bundle (log t)) hello sharedValue
               = the_key env ssl_bundle request (log t)).
  { unfold the_key. by rewrite E1, E2. }
  assert (Elk : log_shared_value ssl_bundle (log t) ++ [EvVerifyHello hello sharedValue]
                = log_key env ssl_bundle request (log t)).
  { unfold log_key. by rewrite E1, E2. }
  rewrite Ek.
  destruct (the_key env ssl_bundle request (log t)) as [publicKey ok3] eqn:E3.
  cbn [snd fst]. destruct ok3; cbn [negb]; [|by rewrite <- Elk].
  rewrite bind_ask, bind_ask. cbn [log set_log]. rewrite Elk.
  assert (Ec : Env.nodeInCluster env (log_key env ssl_bundle request (log t)) publicKey
               = the_cluster env ssl_bundle request (log t)).
  { unfold the_cluster. by rewrite E3. }
  assert (Elc : log_key env ssl_bundle request (log t) ++ [EvNodeInCluster publicKey]
                = log_cluster env ssl_bundle request (log t)).
  { unfold log_cluster. by rewrite E3. }
  rewrite Ec, Elc.
  assert (Ea : Env.pf_activate env (log_cluster env ssl_bundle request (log t)) slot publicKey
                 (the_cluster env ssl_bundle request (log t))
               = the_activation env ssl_bundle request slot (log t)).
  { unfold the_activation. by rewrite E3. }
  assert (Ela : log_cluster env ssl_bundle request (log t)
                ++ [EvActivate slot publicKey (the_cluster env ssl_bundle request (log t))]
                = log_activation env ssl_bundle request slot (log t)).
  { unfold log_activation. by rewrite E3. }
  rewrite Ea, Ela.
  destruct (the_activation env ssl_bundle request slot (log t)); [reflexivity..|].
  unfold bind at 1. rewrite make_PeerImp_run. cbv zeta.
  unfold bind. rewrite add_and_run_cases.
  cbn [log set_log set_heap set_next_id_ m_peers new_peer PeerImp.slot fst].
  destruct (m_peers t !! slot); reflexivity.
Qed.

Lemma onHandoff_with_slot_fails env ssl_bundle remote_endpoint request slot t :
  connect_as_peer env request = false
  \/ handshake_passes env ssl_bundle request slot (log t) = false ->
  exists h t',
    onHandoff_with_slot env ssl_bundle remote_endpoint request slot t = Ok h t'
    /\ registry_untouched t t'.
Proof.
  assert (R : connect_as_peer env request = false ->
              exists h t',
                onHandoff_with_slot env ssl_bundle remote_endpoint request slot t = Ok h t'
                /\ registry_untouched t t').
  { intros C. unfold onHandoff_with_slot. rewrite C. cbn [negb].
    unfold bind. rewrite makeRedirectResponse_run. eexists _, _. by split. }
  intros [C|P]; [by apply R|].
  destruct (connect_as_peer env request) eqn:C; [|by apply R].
  rewrite onHandoff_with_slot_cases by done. cbv zeta. unfold handshake_passes in P.
  destruct (the_hello env request (log t)).2; cbn [negb]; [|eexists _, _; by split].
  destruct (the_shared_value env ssl_bundle (log t)).2; cbn [negb]; [|eexists _, _; by split].
  destruct (the_key env ssl_bundle request (log t)).2; cbn [negb]; [|eexists _, _; by split].
  destruct (the_activation env ssl_bundle request slot (log t)); [| |discriminate P].
  all: rewrite bind_journal; unfold bind; rewrite makeRedirectResponse_run;
    eexists _, _; by split.
Qed.

Module Inbound.

(** X21.  [onHandoff] admits a peer for the attempts that are a peer
    upgrade, get as far as the slot request and are granted a slot, ask to
    connect as a peer and pass the handshake (the hello parses, the shared
    value is made, the hello verifies, and the PeerFinder activates the slot
    for the key), and for no other.  For such an attempt, when [m_peers] does
    not hold the slot, it constructs one inbound peer on the caller's
    transport, under the next id, with the public key that the verification
    answered and the slot that the PeerFinder granted, enters it in
    [m_peers] and in [list_] and runs it, and tells the caller that the
    connection has moved, with no response; when [m_peers] holds the slot it
    aborts at the assertion of [add].  For every other attempt it returns
    and has left [m_peers], [list_], the indexes, the live objects,
    [next_id_] and the work token as they were. *)
Theorem handoff_admits_the_verified_and_no_other (env : Env.t) (ssl_bundle : Transport)
    (request : Http.message) (remote_endpoint : Endpoint) (s : OverlayImpl.t) :
  (forall slot,
     admits env ssl_bundle request remote_endpoint s slot ->
     match m_peers s !! slot with
     | None =>
         onHandoff env ssl_bundle request remote_endpoint s
         = Ok {| Handoff.moved := true; Handoff.keep_alive := false;
                 Handoff.response := None |}
              (handed_off env ssl_bundle request remote_endpoint s slot)
     | Some _ =>
         exists s', onHandoff env ssl_bundle request remote_endpoint s
                    = Abort assert_add_slot s'
     end)
  /\ ((forall slot, ~ admits env ssl_bundle request remote_endpoint s slot) ->
      exists h s',
        onHandoff env ssl_bundle request remote_endpoint s = Ok h s'
        /\ registry_untouched s s').
Proof.
  split.
  - intros slot (R & Sl & C & P). rewrite onHandoff_to_slot by done. rewrite Sl.
    rewrite onHandoff_with_slot_cases by done. cbv zeta. cbn [log set_log].
    unfold handshake_passes in P.
    apply andb_true_iff in P as [P Pa]. apply andb_true_iff in P as [P Pk].
    apply andb_true_iff in P as [Ph Ps]. rewrite Ph, Ps, Pk. cbn [negb].
    destruct (the_activation env ssl_bundle request slot
                (log_slot env ssl_bundle remote_endpoint s)); try discriminate Pa.
    cbn [m_peers set_log].
    destruct (m_peers s !! slot) eqn:Em; [by eexists|].
    f_equal. unfold handed_off, admitted. cbv zeta.
    change (new_address (set_log _ s)) with (new_address s).
    destruct (new_address_fresh s) as [_ Hl].
    cbn [list_ set_log set_heap set_next_id_ set_m_peers new_peer PeerImp.get PeerImp.slot
         m_peers log].
    rewrite (emplace_fresh _ _ _ Hl). cbn [fst]. rewrite <- !app_assoc. reflexivity.
  - intros Hno.
    destruct (reaches_slot env ssl_bundle remote_endpoint s request) eqn:R.
    2:{ destruct (onHandoff_before_slot env ssl_bundle remote_endpoint s request R)
          as (s0 & -> & E1 & E2 & E3 & E4 & E5 & E6 & E7).
        eexists _, _. split; [reflexivity|]. by repeat split. }
    rewrite onHandoff_to_slot by done.
    destruct (the_slot env ssl_bundle remote_endpoint s) as [slot|] eqn:Sl.
    2:{ eexists _, _. split; [reflexivity|]. by repeat split. }
    destruct (onHandoff_with_slot_fails env ssl_bundle remote_endpoint request slot
                (set_log (log_slot env ssl_bundle remote_endpoint s) s))
      as (h & t' & -> & U).
    + destruct (connect_as_peer env request) eqn:C; [|by left].
      destruct (handshake_passes env ssl_bundle request slot
                  (log (set_log (log_slot env ssl_bundle remote_endpoint s) s))) eqn:P;
        [|by right].
      destruct (Hno slot). by repeat split.
    + eexists _, _. split; [reflexivity|exact U].
Qed.

Lemma handoff_admits_the_verified_and_no_other_witness :
  onHandoff Sample.env 2%positive (Sample.upgrade_request "peer") (Sample.ep 2 40001) init
  = Ok {| Handoff.moved := true; Handoff.keep_alive := false; Handoff.response := None |}
       (handed_off Sample.env 2%positive (Sample.upgrade_request "peer")
          (Sample.ep 2 40001) init 2%positive)
  /\ heap (handed_off Sample.env 2%positive (Sample.upgrade_request "peer")
             (Sample.ep 2 40001) init 2%positive) !! 1%positive
     = Some (ChildPeer {| PeerImp.get := 1; PeerImp.id := 1; PeerImp.slot := 2;
                          PeerImp.getNodePublic := "nKey"; PeerImp.bundle := Some 2%positive;
                          PeerImp.buffer := []; PeerImp.remote := Sample.ep 2 40001;
                          PeerImp.inbound := true |})
  /\ exists h s',
       onHandoff Sample.env 2%positive (Sample.upgrade_request "http") (Sample.ep 2 40001) init
       = Ok h s'
       /\ registry_untouched init s'.
Proof.
  destruct (handoff_admits_the_verified_and_no_other Sample.env 2%positive
              (Sample.upgrade_request "peer") (Sample.ep 2 40001) init) as [A _].
  destruct (handoff_admits_the_verified_and_no_other Sample.env 2%positive
              (Sample.upgrade_request "http") (Sample.ep 2 40001) init) as [_ U].
  split; [|split].
  - apply (A 2%positive). repeat split; vm_compute; reflexivity.
  - vm_compute. reflexivity.
  - apply U. intros slot (_ & _ & C & _). vm_compute in C. discriminate C.
Defined.

End Inbound.
